(** * Game of Life benchmark: variable map, direct diagram builders and the
      Garden-of-Eden accumulation of [src/game-of-life.cpp].

    Conventions of the embedding.
    - [int] values are unbounded [Z]; the [char] fields of [cell] are 8-bit
      signed and every conversion to [char] is written out with [to_char].
    - [assert] is compiled out (release build): it is not part of the model.
    - A C++ exception is the [Throw] result of the error monad [res].
    - The adapter keeps the builder reference [_latest_build]; code that calls
      the adapter runs in the state-and-error monad [M adapter].
    - [input_sizes] and [std::hash<char>] are not part of the listed sources;
      they are parameters of the development, as is the iteration order of
      the [std::unordered_map].
    - The [std::unordered_map] compares the hash codes of two keys before it
      asks [operator==] (libstdc++ and libc++ both do); the pre and the post
      cell of one coordinate, equal for [operator==], are two keys. *)

From Stdlib Require Import ZArith List Bool Lia String Permutation.
Import ListNotations.
Local Open Scope string_scope.
Local Open Scope list_scope.
Local Open Scope Z_scope.

(* ------------------------------------------------------------------------- *)
(** ** Exceptions and the two monads *)

(** The last one is no exception: it stands for a run whose behaviour the
    language leaves undefined. *)
Inductive exn : Type :=
| out_of_range_exn (what : string)
| length_error_exn
| undefined_behaviour (what : string).

Inductive res (A : Type) : Type :=
| Ok (a : A)
| Throw (e : exn).
Arguments Ok {A} a.
Arguments Throw {A} e.

Definition rbind {A B : Type} (r : res A) (k : A -> res B) : res B :=
  match r with
  | Ok a => k a
  | Throw e => Throw e
  end.

Declare Scope res_scope.
Delimit Scope res_scope with res.
Notation "'try' x <- e ; k" := (rbind e (fun x => k))
  (at level 10, x name, e at level 100, k at level 200) : res_scope.

(** State threaded through code that may throw. *)
Definition M (S A : Type) : Type := S -> res (A * S).

Definition ret {S A : Type} (a : A) : M S A := fun s => Ok (a, s).

Definition bind {S A B : Type} (m : M S A) (k : A -> M S B) : M S B :=
  fun s => match m s with
           | Ok (a, s') => k a s'
           | Throw e => Throw e
           end.

Definition lift {S A : Type} (r : res A) : M S A :=
  fun s => match r with
           | Ok a => Ok (a, s)
           | Throw e => Throw e
           end.

Declare Scope monad_scope.
Delimit Scope monad_scope with monad.
Notation "'do' x <- e ; k" := (bind e (fun x => k))
  (at level 10, x name, e at level 100, k at level 200) : monad_scope.

(** [for (x : xs) s = body(x, s)] in [res] and in [M]. *)
Fixpoint for_each {A S : Type} (body : A -> S -> res S) (xs : list A) (s : S)
  : res S :=
  match xs with
  | [] => Ok s
  | x :: xs' => rbind (body x s) (for_each body xs')
  end.

Fixpoint for_eachM {A S T : Type} (body : A -> T -> M S T) (xs : list A) (t : T)
  : M S T :=
  match xs with
  | [] => ret t
  | x :: xs' => bind (body x t) (for_eachM body xs')
  end.

(** The values of [for (i = lo; i <= hi; ++i)] and of
    [for (i = hi; lo <= i; --i)]. *)
Definition upto (lo hi : Z) : list Z :=
  map (fun i => lo + Z.of_nat i) (seq 0 (Z.to_nat (hi + 1 - lo))).

Definition downto (hi lo : Z) : list Z :=
  map (fun i => hi - Z.of_nat i) (seq 0 (Z.to_nat (hi + 1 - lo))).

(** [std::vector::at] for reading and for writing. *)
Definition vec_at {A : Type} (v : list A) (i : Z) : res A :=
  if i <? 0 then Throw (out_of_range_exn "vector::at")
  else match nth_error v (Z.to_nat i) with
       | Some a => Ok a
       | None => Throw (out_of_range_exn "vector::at")
       end.

Fixpoint set_nth {A : Type} (v : list A) (n : nat) (a : A) : list A :=
  match v, n with
  | [], _ => []
  | _ :: v', O => a :: v'
  | b :: v', S n' => b :: set_nth v' n' a
  end.

Definition vec_set {A : Type} (v : list A) (i : Z) (a : A) : res (list A) :=
  if (i <? 0) || (Z.of_nat (List.length v) <=? i)
  then Throw (out_of_range_exn "vector::at")
  else Ok (set_nth v (Z.to_nat i) a).

(** The largest [int]. *)
Definition INT_MAX : Z := 2 ^ 31 - 1.

(** Conversion of an [int] to the 8-bit signed [char]. *)
Definition to_char (z : Z) : Z := (z + 128) mod 256 - 128.

(* ------------------------------------------------------------------------- *)
(** ** Priming, grid geometry and cells *)

(** [enum prime : bool { pre = false, post = true }]. *)
Definition pre : bool := false.
Definition post : bool := true.

Record cell : Type := Cell { row : Z; col : Z; prime : bool }.

(** [cell()] : the illegal cell. *)
Definition cell_default : cell := Cell (-1) (-1) pre.

(** [cell(const cell& c, bool prime)] : no bounds check. *)
Definition cell_reprime (c : cell) (p : bool) : cell := Cell (row c) (col c) p.

(** [cell::operator==] and [operator!=]. *)
Definition cell_eq (a b : cell) : bool :=
  (row a =? row b) && (col a =? col b).

Definition cell_neq (a b : cell) : bool := negb (cell_eq a b).

Definition vertical_dist_to (a o : cell) : Z := Z.abs (row a - row o).
Definition horizontal_dist_to (a o : cell) : Z := Z.abs (col a - col o).

Definition in_neighbourhood (a o : cell) : bool :=
  (vertical_dist_to a o <=? 1) && (horizontal_dist_to a o <=? 1).

Definition is_neighbour (a o : cell) : bool :=
  if (row a =? row o) && (col a =? col o) then false else in_neighbourhood a o.

Inductive symmetry : Type := none | mirror.

(* ------------------------------------------------------------------------- *)
(** ** Decision diagrams and the adapter *)

(** Modelled from the spec: the external decision-diagram engine. A handle is
    a decision tree, reduced at construction, so that structural equality is
    equality of handles. *)
Inductive dd : Type :=
| Leaf (b : bool)
| Node (x : Z) (lo hi : dd).

Fixpoint dd_eqb (f g : dd) : bool :=
  match f, g with
  | Leaf a, Leaf b => Bool.eqb a b
  | Node x flo fhi, Node y glo ghi =>
      (x =? y) && dd_eqb flo glo && dd_eqb fhi ghi
  | _, _ => false
  end.

(** Value of a diagram under a total assignment of the variables. *)
Fixpoint eval (A : Z -> bool) (f : dd) : bool :=
  match f with
  | Leaf b => b
  | Node x lo hi => if A x then eval A hi else eval A lo
  end.

(** Modelled from the spec: "create a raw internal node from (variable,
    low-handle, high-handle)"; the engine's [ite(ithvar(x), hi, lo)]. *)
Definition mk_node (x : Z) (lo hi : dd) : dd :=
  if dd_eqb lo hi then lo else Node x lo hi.

(** Modelled from the spec: "combine two handles under {and, or, xor,
    implication}". *)
Fixpoint apply (op : bool -> bool -> bool) (f : dd) : dd -> dd :=
  fix apply_f (g : dd) : dd :=
    match f, g with
    | Leaf a, Leaf b => Leaf (op a b)
    | Leaf _, Node y glo ghi => mk_node y (apply_f glo) (apply_f ghi)
    | Node x flo fhi, Leaf _ => mk_node x (apply op flo g) (apply op fhi g)
    | Node x flo fhi, Node y glo ghi =>
        if x <? y then mk_node x (apply op flo g) (apply op fhi g)
        else if y <? x then mk_node y (apply_f glo) (apply_f ghi)
        else mk_node x (apply op flo glo) (apply op fhi ghi)
    end.

Fixpoint negate (f : dd) : dd :=
  match f with
  | Leaf b => Leaf (negb b)
  | Node x lo hi => Node x (negate lo) (negate hi)
  end.

(** Modelled from the spec: "existentially quantify a handle over a
    caller-supplied variable-selection predicate". *)
Fixpoint bdd_exist (f : dd) (cube : Z -> bool) : dd :=
  match f with
  | Leaf b => Leaf b
  | Node x lo hi =>
      if cube x then apply orb (bdd_exist lo cube) (bdd_exist hi cube)
      else mk_node x (bdd_exist lo cube) (bdd_exist hi cube)
  end.

(** The adapter object: number of variables and the builder reference. *)
Record adapter : Type := Adapter { a_varcount : Z; _latest_build : dd }.

Definition top : dd := Leaf true.
Definition bot : dd := Leaf false.

Definition ithvar (i : Z) : dd := Node i bot top.
Definition nithvar (i : Z) : dd := Node i top bot.

Definition apply_and (f g : dd) : dd := apply andb f g.
Definition apply_or (f g : dd) : dd := apply orb f g.
Definition apply_imp (f g : dd) : dd := apply implb f g.

(** [adapter.exists(f, pred)] : [pred] is asked for the variables
    [_varcount - 1 .. 0] and the selected ones form the cube. *)
Definition adapter_exists (f : dd) (pred : Z -> res bool) : M adapter dd :=
  fun a =>
    rbind (for_each (fun i cube => rbind (pred i)
                       (fun b => Ok (if b then i :: cube else cube)))
                    (downto (a_varcount a - 1) 0) [])
          (fun cube => Ok (bdd_exist f (fun x => existsb (Z.eqb x) cube), a)).

(** [build_node(const bool value)]. *)
Definition build_node_leaf (value : bool) : M adapter dd :=
  fun a =>
    let r := if value then top else bot in
    Ok (r, if dd_eqb (_latest_build a) bot
           then Adapter (a_varcount a) r else a).

(** [build_node(const int label, low, high)]. *)
Definition build_node (label : Z) (low high : dd) : M adapter dd :=
  fun a => let r := mk_node label low high in Ok (r, Adapter (a_varcount a) r).

(** [build()]. *)
Definition build : M adapter dd :=
  fun a => Ok (_latest_build a, Adapter (a_varcount a) bot).

(* ------------------------------------------------------------------------- *)
(** ** Machine integers of the adapters and of [tic_tac_toe.cpp] *)

(** [size_t] is 64 bits wide and [int] 32 bits; every conversion and every
    operation on [size_t] is written out. *)
Definition to_size_t (z : Z) : Z := z mod 2 ^ 64.
Definition to_int (z : Z) : Z := (z + 2 ^ 31) mod 2 ^ 32 - 2 ^ 31.

Definition add64 (a b : Z) : Z := to_size_t (a + b).
Definition sub64 (a b : Z) : Z := to_size_t (a - b).
Definition mul64 (a b : Z) : Z := to_size_t (a * b).

(* ------------------------------------------------------------------------- *)
(** ** BuDDy adapter: sizes of the node table and of the cache *)

Definition max_int : Z := 2 ^ 31 - 1.
Definition min_cache_ratio : Z := 32.
Definition max_cache_ratio : Z := 64.
Definition sizeof_node : Z := 24.
Definition sizeof_cache : Z := 16.
Definition caches : Z := 6.

(** [table_size(memory_bytes)]. *)
Definition table_size (memory_bytes : Z) : Z :=
  let sizeof_norm :=
    add64 (mul64 sizeof_node max_cache_ratio) (mul64 sizeof_cache caches) in
  let nodes := mul64 (Z.quot memory_bytes sizeof_norm) max_cache_ratio in
  to_int (Z.min nodes max_int).

(** The condition of the [assert] of [table_size], on the local [nodes]
    before the cap, with the [size_t] arithmetic of the source. *)
Definition table_size_assert (memory_bytes : Z) : bool :=
  let sizeof_norm :=
    add64 (mul64 sizeof_node max_cache_ratio) (mul64 sizeof_cache caches) in
  let nodes := mul64 (Z.quot memory_bytes sizeof_norm) max_cache_ratio in
  add64 (mul64 nodes sizeof_node)
        (mul64 (Z.quot nodes max_cache_ratio) sizeof_cache)
  <=? memory_bytes.

(** [cache_size(memory_bytes, nodes)]; [cache_memory] is computed and not
    used. *)
Definition cache_size (memory_bytes nodes : Z) : Z :=
  let min_cache := Z.quot (to_size_t nodes) max_cache_ratio in
  let max_cache := Z.quot (to_size_t nodes) min_cache_ratio in
  let cache_memory :=
    Z.quot (sub64 memory_bytes (mul64 (to_size_t nodes) sizeof_node))
           (mul64 sizeof_cache caches) in
  to_int (Z.max min_cache (Z.min max_cache max_cache)).

(* ------------------------------------------------------------------------- *)
(** ** Sylvan adapter: [log2] *)

(** [while (val < n) { val <<= 1u; exp++; } return exp;] with a bound on the
    number of iterations; [None] when the bound is reached. *)
Fixpoint log2_loop (fuel : nat) (n val exp : Z) : option Z :=
  match fuel with
  | O => None
  | S fuel' =>
      if val <? n
      then log2_loop fuel' n (to_size_t (Z.shiftl val 1)) (add64 exp 1)
      else Some exp
  end.

(** [log2(n)] : the loop starts from [exp = 1] and [val = 2]. *)
Definition log2 (fuel : nat) (n : Z) : option Z := log2_loop fuel n 2 1.

(* ------------------------------------------------------------------------- *)
(** ** Tic-Tac-Toe: labels, the line constraint and the exactly-N constraint *)

(** [label_of_position(i, j, k)]. *)
Definition label_of_position (i j k : Z) : Z :=
  add64 (add64 (mul64 (4 * 4) i) (mul64 4 j)) k.

(** Modelled from the spec: the engine's if-then-else [mgr.ite(f, g, h)]. *)
Definition ite (f g h : dd) : dd :=
  apply orb (apply andb f g) (apply andb (negate f) h).

(** A [std::array<uint64_t, 4>] and [line[idx]]. *)
Definition line4 : Type := (Z * Z * Z * Z)%type.

Definition line_at (line : line4) (idx : Z) : Z :=
  match line with
  | (l0, l1, l2, l3) =>
      if idx =? 0 then l0 else if idx =? 1 then l1
      else if idx =? 2 then l2 else l3
  end.

(** Body of the [do ... while (idx-- > 0)] of [construct_is_not_winning]. *)
Definition not_winning_step (line : line4) (st : dd * dd) (idx : Z)
  : dd * dd :=
  let no_Xs := fst st in
  let only_Xs := snd st in
  let no_Xs' := ite (ithvar (line_at line idx))
                    (if idx =? 0 then only_Xs else top) no_Xs in
  let only_Xs' := if 0 <? idx
                  then ite (ithvar (line_at line idx)) only_Xs top
                  else only_Xs in
  (no_Xs', only_Xs').

(** [construct_is_not_winning(mgr, line)]. *)
Definition construct_is_not_winning (line : line4) : dd :=
  fst (fold_left (not_winning_step line) (downto (4 - 1) 0) (bot, bot)).

(** Body of the inner loop of [construct_init]; an access outside the array
    [init_parts], undefined in C++, is the [Throw] result. *)
Definition init_update (N curr_level curr_idx : Z) (init_parts : list dd)
  : res (list dd) :=
  (try low <- vec_at init_parts curr_idx;
   try high <- (if curr_idx =? N then Ok bot
                else vec_at init_parts (add64 curr_idx 1));
   vec_set init_parts curr_idx (ite (ithvar curr_level) low high))%res.

(** Body of the [do ... while (curr_level-- > 0)] of [construct_init]. *)
Definition init_level (N curr_level : Z) (init_parts : list dd)
  : res (list dd) :=
  let min_idx := if sub64 63 N <? curr_level
                 then sub64 N (add64 (sub64 63 curr_level) 1)
                 else 0 in
  let max_idx := Z.min curr_level N in
  for_each (init_update N curr_level) (upto min_idx max_idx) init_parts.

(** [construct_init(mgr)] for the global [N]. *)
Definition construct_init (N : Z) : res dd :=
  let init_parts := map (fun i => if i <? N then bot else top) (upto 0 N) in
  (try parts <- for_each (init_level N) (downto 63 0) init_parts;
   vec_at parts 0)%res.

(** Number of the variables [L .. 63] that an assignment makes false. *)
Definition count_false (A : Z -> bool) (L : Z) : Z :=
  Z.of_nat (List.length (filter (fun x => negb (A x)) (upto L 63))).


(** [construct_lines()]: each [lines.push_back] appends to the global
    vector [lines], which is passed in and returned. *)
Definition construct_lines (lines : list line4) : list line4 :=
  let lp := label_of_position in
  (* 4 planes and the rows in these *)
  let lines :=
    fold_left (fun lines i =>
      fold_left (fun lines j =>
        lines ++ [(lp i j 0, lp i j 1, lp i j 2, lp i j 3)])
        (upto 0 (4 - 1)) lines)
      (upto 0 (4 - 1)) lines in
  (* 4 planes and a diagonal within *)
  let lines :=
    fold_left (fun lines i =>
      lines ++ [(lp i 0 3, lp i 1 2, lp i 2 1, lp i 3 0)])
      (upto 0 (4 - 1)) lines in
  (* 4 planes... again, now the columns *)
  let lines :=
    fold_left (fun lines i =>
      fold_left (fun lines k =>
        lines ++ [(lp i 0 k, lp i 1 k, lp i 2 k, lp i 3 k)])
        (upto 0 (4 - 1)) lines)
      (upto 0 (4 - 1)) lines in
  (* 4 planes and the other diagonal within *)
  let lines :=
    fold_left (fun lines i =>
      lines ++ [(lp i 0 0, lp i 1 1, lp i 2 2, lp i 3 3)])
      (upto 0 (4 - 1)) lines in
  (* Diagonals of the entire cube *)
  let lines := lines ++ [(lp 0 3 3, lp 1 2 2, lp 2 1 1, lp 3 0 0)] in
  let lines := lines ++ [(lp 0 3 0, lp 1 2 1, lp 2 1 2, lp 3 0 3)] in
  (* Diagonals in the vertical planes *)
  let lines :=
    fold_left (fun lines j =>
      lines ++ [(lp 0 j 3, lp 1 j 2, lp 2 j 1, lp 3 j 0)])
      (upto 0 (4 - 1)) lines in
  (* 16 vertical lines *)
  let lines :=
    fold_left (fun lines j =>
      fold_left (fun lines k =>
        lines ++ [(lp 0 j k, lp 1 j k, lp 2 j k, lp 3 j k)])
        (upto 0 (4 - 1)) lines)
      (upto 0 (4 - 1)) lines in
  (* Diagonals in the vertical planes *)
  let lines :=
    fold_left (fun lines j =>
      lines ++ [(lp 0 j 0, lp 1 j 1, lp 2 j 2, lp 3 j 3)])
      (upto 0 (4 - 1)) lines in
  let lines :=
    fold_left (fun lines k =>
      lines ++ [(lp 0 3 k, lp 1 2 k, lp 2 1 k, lp 3 0 k)])
      (upto 0 (4 - 1)) lines in
  let lines :=
    fold_left (fun lines k =>
      lines ++ [(lp 0 0 k, lp 1 1 k, lp 2 2 k, lp 3 3 k)])
      (upto 0 (4 - 1)) lines in
  (* The diagonals of the entire cube *)
  let lines := lines ++ [(lp 0 0 3, lp 1 1 2, lp 2 2 1, lp 3 3 0)] in
  lines ++ [(lp 0 0 0, lp 1 1 1, lp 2 2 2, lp 3 3 3)].

(** The diagram that [run_tic_tac_toe] counts the solutions of:
    [res = construct_init(mgr)], then [construct_lines()] and
    [res &= construct_is_not_winning(mgr, line)] for every line of the
    global [lines]. *)
Definition tic_tac_toe_res (N : Z) (lines : list line4) : res dd :=
  (try r <- construct_init N;
   let lines := construct_lines lines in
   Ok (fold_left (fun r line => apply_and r (construct_is_not_winning line))
                 lines r))%res.

(** The four labels met from position [(i, j, k)] in steps of
    [(di, dj, dk)]. *)
Definition line_from (i j k di dj dk : Z) : line4 :=
  (label_of_position i j k,
   label_of_position (i + di) (j + dj) (k + dk),
   label_of_position (i + 2 * di) (j + 2 * dj) (k + 2 * dk),
   label_of_position (i + 3 * di) (j + 3 * dj) (k + 3 * dk)).

Definition in_cube (i j k : Z) : bool :=
  (0 <=? i) && (i <? 4) && (0 <=? j) && (j <? 4) && (0 <=? k) && (k <? 4).

(** A step to a neighbouring position: every coordinate moves by at most
    one, and some coordinate moves. *)
Definition is_step (di dj dk : Z) : bool :=
  (-1 <=? di) && (di <=? 1) && (-1 <=? dj) && (dj <=? 1)
  && (-1 <=? dk) && (dk <=? 1)
  && negb ((di =? 0) && (dj =? 0) && (dk =? 0)).

Definition line_eqb (a b : line4) : bool :=
  (line_at a 0 =? line_at b 0) && (line_at a 1 =? line_at b 1)
  && (line_at a 2 =? line_at b 2) && (line_at a 3 =? line_at b 3).

Definition line_mem (l : line4) (lines : list line4) : bool :=
  existsb (line_eqb l) lines.

(** The lines of four positions inside the cube, from every end. *)
Definition straight_lines : list line4 :=
  flat_map (fun i => flat_map (fun j => flat_map (fun k =>
    flat_map (fun di => flat_map (fun dj => flat_map (fun dk =>
      if in_cube i j k
      then if in_cube (i + 3 * di) (j + 3 * dj) (k + 3 * dk)
           then if is_step di dj dk
                then [line_from i j k di dj dk] else []
           else []
      else [])
    (upto (-1) 1)) (upto (-1) 1)) (upto (-1) 1))
  (upto 0 3)) (upto 0 3)) (upto 0 3).

(** Decision procedures for the two directions of the description of
    [construct_lines]. *)
Definition lines_are_straight (lines : list line4) : bool :=
  let all := straight_lines in
  forallb (fun l => (line_at l 0 <? line_at l 1)
                    && (line_at l 1 <? line_at l 2)
                    && (line_at l 2 <? line_at l 3)
                    && line_mem l all) lines.

Definition straight_lines_listed (lines : list line4) : bool :=
  forallb (fun i => forallb (fun j => forallb (fun k =>
    forallb (fun di => forallb (fun dj => forallb (fun dk =>
      implb (in_cube (i + 3 * di) (j + 3 * dj) (k + 3 * dk)
             && is_step di dj dk)
            (line_mem (line_from i j k di dj dk) lines
             || line_mem (line_from (i + 3 * di) (j + 3 * dj) (k + 3 * dk)
                                    (- di) (- dj) (- dk)) lines))
    (upto (-1) 1)) (upto (-1) 1)) (upto (-1) 1))
  (upto 0 3)) (upto 0 3)) (upto 0 3).

Definition line4_eq_dec (a b : line4) : {a = b} + {a <> b}.
Proof. repeat decide equality. Defined.

(* ------------------------------------------------------------------------- *)
(** ** Sylvan pigeonhole: the clause accumulator *)

(** A literal is a pair, read here by [.first] and [.second] only, and a
    clause is a sequence of literals, traversed from [rbegin()] to
    [rend()]. *)
Definition literal_t : Type := (Z * bool)%type.
Definition clause_t : Type := list literal_t.

(** The lambda [sat_and_clause] of [main], on the captured [sat_acc];
    [sylvan_makenode(level, low, high)] is the engine's node constructor. *)
Definition sat_and_clause (clause : clause_t) (sat_acc : dd) : dd :=
  let c :=
    fold_left (fun c (v : literal_t) =>
                 mk_node (fst v)
                         (if snd v then top else c)
                         (if snd v then c else top))
              (rev clause) bot in
  apply_and sat_acc c.

(* ------------------------------------------------------------------------- *)
(** ** Common header: [ilog2] *)

Definition to_unsigned (z : Z) : Z := z mod 2 ^ 32.

(** The compiler's [__builtin_clzll(n)]: the number of leading 0-bits of the
    64-bit value [n], counted from the most significant bit; the compiler
    leaves the result for 0 undefined (here 64). *)
Fixpoint clz_from (bits : nat) (n : Z) : Z :=
  match bits with
  | O => 0
  | S b => if Z.testbit n (Z.of_nat b) then 0 else 1 + clz_from b n
  end.

Definition builtin_clzll (n : Z) : Z := clz_from 64 n.

(** [ilog2(n)] under [__GNUC__]:
    [sizeof(unsigned long long) * 8 - __builtin_clzll(n) - 1], computed in
    [size_t] and returned as [unsigned]. *)
Definition ilog2_gnuc (n : Z) : Z :=
  to_unsigned
    (sub64 (sub64 (mul64 8 8) (to_size_t (builtin_clzll n))) 1).

(** [ilog2(n)] without [__GNUC__]: the loop of the [#else] branch, with a
    bound on the number of iterations; [None] when the bound is reached. *)
Fixpoint ilog2_loop (fuel : nat) (n val exp : Z) : option Z :=
  match fuel with
  | O => None
  | S fuel' =>
      if val <? n
      then ilog2_loop fuel' n (to_size_t (Z.shiftl val 1))
                      (to_unsigned (exp + 1))
      else Some exp
  end.

Definition ilog2_else (fuel : nat) (n : Z) : option Z := ilog2_loop fuel n 2 1.

(** Between two levels of [construct_init], the levels from [L] on being
    done: entry [idx] holds when [idx] and the number of false variables
    from level [L] on make [N] together. *)
Definition init_inv (N L : Z) (init_parts : list dd) : Prop :=
  Z.of_nat (List.length init_parts) = N + 1
  /\ forall idx p,
      0 <= idx <= Z.min L N -> vec_at init_parts idx = Ok p ->
      forall A : Z -> bool, eval A p = (idx + count_false A L =? N).

Section GameOfLife.

(** [input_sizes.at(0)] and [input_sizes.at(1)]. *)
Variables N_rows N_cols : Z.

(** [std::hash<char>]. *)
Variable hash_char : Z -> Z.

(** Order in which a range-for visits the entries of the unordered map. *)
Variable map_iteration : list (cell * Z) -> list (cell * Z).

Definition rows (p : bool) : Z := N_rows + 2 * Z.b2z (negb p).
Definition MIN_ROW (p : bool) : Z := Z.b2z p.
Definition MAX_ROW (p : bool) : Z := rows p - Z.b2z (negb p).
Definition cols (p : bool) : Z := N_cols + 2 * Z.b2z (negb p).
Definition MIN_COL (p : bool) : Z := Z.b2z p.
Definition MAX_COL (p : bool) : Z := cols p - Z.b2z (negb p).

Definition out_of_range (c : cell) : bool :=
  (row c <? MIN_ROW (prime c)) || (MAX_ROW (prime c) <? row c)
  || (col c <? MIN_COL (prime c)) || (MAX_COL (prime c) <? col c).

(** [cell(char row, char col, bool prime)] : the checking constructor. *)
Definition cell_new (r c : Z) (p : bool) : res cell :=
  let k := Cell (to_char r) (to_char c) p in
  if out_of_range k
  then Throw (out_of_range_exn "Cell not within valid boundaries")
  else Ok k.

(** [cell::neighbourhood]. The centre is [*this]. *)
Definition neighbourhood (c : cell) : res (list cell) :=
  (try c1 <- cell_new (row c - 1) (col c - 1) pre;
   try c2 <- cell_new (row c - 1) (col c) pre;
   try c3 <- cell_new (row c - 1) (col c + 1) pre;
   try c4 <- cell_new (row c) (col c - 1) pre;
   try c6 <- cell_new (row c) (col c + 1) pre;
   try c7 <- cell_new (row c + 1) (col c - 1) pre;
   try c8 <- cell_new (row c + 1) (col c) pre;
   try c9 <- cell_new (row c + 1) (col c + 1) pre;
   Ok [c1; c2; c3; c4; c; c6; c7; c8; c9])%res.

(** [std::hash<cell>]. *)
Definition hash_cell (c : cell) : Z :=
  Z.lxor (Z.lxor (hash_char (row c)) (hash_char (col c))) (Z.b2z (prime c)).

(* ------------------------------------------------------------------------- *)
(** ** The cell -> variable map *)

(** An entry of [std::unordered_map<cell, int>] is located by the hash code of
    its key and then by [operator==]: two cells are one key when their hash
    codes agree and [operator==] holds. *)
Definition same_key (a b : cell) : bool :=
  (hash_cell a =? hash_cell b) && cell_eq a b.

Fixpoint map_find (m : list (cell * Z)) (c : cell) : option Z :=
  match m with
  | [] => None
  | (k, v) :: m' => if same_key k c then Some v else map_find m' c
  end.

(** [unordered_map::insert] keeps an entry that is already there. *)
Definition map_insert (m : list (cell * Z)) (c : cell) (v : Z)
  : list (cell * Z) :=
  match map_find m c with
  | Some _ => m
  | None => (c, v) :: m
  end.

Record var_map : Type := Var_map {
  _varcount_pre : Z;
  _varcount_post : Z;
  _map : list (cell * Z);
  _inv : list cell
}.

(** The constructor's local [x], the two counters and the map. *)
Record vm_builder : Type := Vm_builder {
  vb_x : Z;
  vb_pre : Z;
  vb_post : Z;
  vb_map : list (cell * Z)
}.

(** [_map.insert({ c, x++ }); _varcount[p] += 1]. *)
Definition insert_fresh (c : cell) (p : bool) (b : vm_builder) : vm_builder :=
  Vm_builder (vb_x b + 1)
             (if p then vb_pre b else vb_pre b + 1)
             (if p then vb_post b + 1 else vb_post b)
             (map_insert (vb_map b) c (vb_x b)).

(** Body of the two nested loops of [case symmetry::none]. *)
Definition none_step (r c : Z) (b : vm_builder) : res vm_builder :=
  (try cell_pre <- cell_new r c pre;
   let b1 := insert_fresh cell_pre pre b in
   let cell_post := cell_reprime cell_pre post in
   if negb (out_of_range cell_post)
   then Ok (insert_fresh cell_post post b1)
   else Ok b1)%res.

(** Body of the two nested loops of [case symmetry::mirror]. *)
Definition mirror_step (max_col r left_col : Z) (b : vm_builder)
  : res vm_builder :=
  let right_col := MAX_COL pre - left_col in
  let add_mirror := max_col <? right_col in
  (try pre_left <- cell_new r left_col pre;
   let b1 := insert_fresh pre_left pre b in
   try b2 <- (if add_mirror
              then try pre_right <- cell_new r right_col pre;
                   Ok (insert_fresh pre_right pre b1)
              else Ok b1);
   let post_left := cell_reprime pre_left post in
   if negb (out_of_range post_left)
   then
     let post_var := vb_x b2 in
     let b3 := insert_fresh post_left post b2 in
     if add_mirror
     then try post_right <- cell_new r right_col post;
          Ok (Vm_builder (vb_x b3) (vb_pre b3) (vb_post b3)
                         (map_insert (vb_map b3) post_right post_var))
     else Ok b3
   else Ok b2)%res.

Definition mirror_max_col : Z :=
  let odd_cols := negb (Z.rem (cols pre) 2 =? 0) in
  MIN_COL pre + Z.quot (cols pre) 2 - Z.b2z (negb odd_cols).

Definition fill_map (s : symmetry) : res vm_builder :=
  let b0 := Vm_builder 0 0 0 [] in
  match s with
  | none =>
      for_each (fun r => for_each (none_step r)
                                  (upto (MIN_COL pre) (MAX_COL pre)))
               (upto (MIN_ROW pre) (MAX_ROW pre)) b0
  | mirror =>
      for_each (fun r => for_each (mirror_step mirror_max_col r)
                                  (upto (MIN_COL pre) mirror_max_col))
               (upto (MIN_ROW pre) (MAX_ROW pre)) b0
  end.

(** [_inv.resize(varcount()); for (kv : _map) _inv.at(kv.second) = kv.first]. *)
Definition fill_inv (n : Z) (m : list (cell * Z)) : res (list cell) :=
  for_each (fun kv inv => vec_set inv (snd kv) (fst kv))
           (map_iteration m)
           (repeat cell_default (Z.to_nat n)).

(** [var_map::var_map(const symmetry&)]. *)
Definition var_map_new (s : symmetry) : res var_map :=
  (try b <- fill_map s;
   try inv <- fill_inv (vb_pre b + vb_post b) (vb_map b);
   Ok (Var_map (vb_pre b) (vb_post b) (vb_map b) inv))%res.

Definition varcount_of (vm : var_map) (p : bool) : Z :=
  if p then _varcount_post vm else _varcount_pre vm.

Definition varcount (vm : var_map) : Z :=
  varcount_of vm false + varcount_of vm true.

(** [var_map::var_from_cell]. *)
Definition var_from_cell (vm : var_map) (c : cell) : res Z :=
  if out_of_range c
  then Throw (out_of_range_exn "Cell not within valid boundaries")
  else match map_find (_map vm) c with
       | None => Throw (out_of_range_exn "Cell not found in 'cell -> var' map")
       | Some x => Ok x
       end.

(** [var_map::cell_from_var(int)]. *)
Definition cell_from_var (vm : var_map) (x : Z) : res cell :=
  vec_at (_inv vm) x.

(** [var_map::cell_from_var(int, const cell&)]. *)
Definition cell_from_var_cand (vm : var_map) (x : Z) (c : cell) : res cell :=
  (try c_x <- var_from_cell vm c;
   if c_x =? x then Ok c else cell_from_var vm x)%res.

(* ------------------------------------------------------------------------- *)
(** ** Transition relation *)

(** The loop-carried locals of [construct_count]. *)
Record count_state : Type := Count_state {
  init_parts : list dd;
  remaining_cells : Z;
  alive_min : Z;
  alive_max : Z
}.

(** "Update all chains with a possible increment." *)
Definition count_incr (x : Z) (parts : list dd) (lo hi : Z)
  : M adapter (list dd) :=
  for_eachM (fun curr_idx parts =>
               do low <- lift (vec_at parts curr_idx);
               do high <- lift (vec_at parts (curr_idx + 1));
               do n <- build_node x low high;
               lift (vec_set parts curr_idx n))%monad
            (upto lo hi) parts.

(** "Update all current chains with don't-care nodes." *)
Definition count_skip (x : Z) (parts : list dd) (lo hi : Z)
  : M adapter (list dd) :=
  for_eachM (fun curr_idx parts =>
               do child <- lift (vec_at parts curr_idx);
               do n <- build_node x child child;
               lift (vec_set parts curr_idx n))%monad
            (upto lo hi) parts.

Definition count_step (vm : var_map) (c : cell) (x : Z) (st : count_state)
  : M adapter count_state :=
  (do curr_cell <- lift (cell_from_var vm x);
   if Bool.eqb (prime curr_cell) pre && in_neighbourhood c curr_cell
   then
     let remaining := remaining_cells st - 1 in
     let amin := Z.max (alive_min st - 1) 0 in
     let amax := if (0 <? remaining) && (remaining =? alive_max st)
                 then alive_max st - 1 else alive_max st in
     do parts <- count_incr x (init_parts st) amin amax;
     ret (Count_state parts remaining amin amax)
   else
     do parts <- count_skip x (init_parts st) (alive_min st) (alive_max st);
     ret (Count_state parts (remaining_cells st) (alive_min st) (alive_max st))
  )%monad.

(** [construct_count(adapter, vm, c, alive)]. The count is an [int]: the
    behaviour is undefined where [alive + 2] overflows, and a negative
    [alive + 2] is converted to a size that no vector can have. *)
Definition construct_count (vm : var_map) (c : cell) (alive : Z)
  : M adapter dd :=
  (do f <- build_node_leaf false;
   do parts0 <- lift (if INT_MAX <? alive + 2
                      then Throw (undefined_behaviour "signed overflow")
                      else if alive + 2 <? 0 then Throw length_error_exn
                      else Ok (repeat f (Z.to_nat (alive + 2))));
   do t <- build_node_leaf true;
   do parts <- lift (vec_set parts0 alive t);
   do nb <- lift (neighbourhood c);
   let remaining := Z.of_nat (List.length nb) in
   if remaining <? alive then ret bot
   else
     do st <- for_eachM (count_step vm c) (downto (varcount vm - 1) 0)
                        (Count_state parts remaining alive alive);
     build)%monad.

(** [construct_eq(adapter, vm, c)]. After each [for] the local [x] holds the
    value at which the loop condition failed. *)
Definition construct_eq (vm : var_map) (c : cell) : M adapter dd :=
  (do x_pre <- lift (var_from_cell vm (cell_reprime c pre));
   do x_post <- lift (var_from_cell vm (cell_reprime c post));
   do root0 <- build_node_leaf true;
   let root1 := root0 in
   let x := varcount vm - 1 in
   (* below 'x_post' *)
   do root0 <- for_eachM (fun x r => build_node x r r) (downto x (x_post + 1))
                         root0;
   let x := Z.min x x_post in
   (* 'x_post' *)
   do f1 <- build_node_leaf false;
   do root1 <- build_node x f1 root0;
   do f0 <- build_node_leaf false;
   do root0 <- build_node x root0 f0;
   (* between 'x_pre' and 'x_post' *)
   let x := x - 1 in
   do roots <- for_eachM (fun x (r : dd * dd) =>
                            do r1 <- build_node x (snd r) (snd r);
                            do r0 <- build_node x (fst r) (fst r);
                            ret (r0, r1))
                         (downto x (x_pre + 1)) (root0, root1);
   let x := Z.min x x_pre in
   (* 'x_pre' *)
   do root0 <- build_node x (fst roots) (snd roots);
   (* above 'x_pre' *)
   let x := x - 1 in
   do root0 <- for_eachM (fun x r => build_node x r r) (downto x 0) root0;
   build)%monad.

(** [construct_rel(adapter, vm, c)]. *)
Definition construct_rel (vm : var_map) (c : cell) : M adapter dd :=
  (do alive_3 <- construct_count vm c 3;
   do alive_4 <- construct_count vm c 4;
   do x_post <- lift (var_from_cell vm (cell_reprime c post));
   let alive_post := ithvar x_post in
   let out := apply_imp alive_3 alive_post in
   do eq <- construct_eq vm c;
   let out := apply_and out (apply_imp alive_4 eq) in
   let alive_3or4 := apply_or alive_3 alive_4 in
   let alive_other := negate alive_3or4 in
   do x_post' <- lift (var_from_cell vm (cell_reprime c post));
   let dead_post := nithvar x_post' in
   ret (apply_and out (apply_imp alive_other dead_post)))%monad.

(* ------------------------------------------------------------------------- *)
(** ** Garden of Eden *)

(** [acc_rel(adapter, vm, const int row)] : relation of one row. *)
Definition acc_rel_row (vm : var_map) (r : Z) : M adapter dd :=
  for_eachM (fun c res =>
               do k <- lift (cell_new r c pre);
               do rel <- construct_rel vm k;
               ret (apply_and res rel))%monad
            (downto (MAX_COL post) (MIN_COL post)) top.

(** The lines [Acc [begin-row]] and [Exi [quant_row]] that a sweep prints
    when statistics are compiled in (node counts left out). *)
Inductive stat_line : Type :=
| Acc (begin_row current_row : Z)
| Exi (quant_row : Z).

(** Rows visited by [for (row = begin; bottom ? end <= row : row <= end;
    bottom ? --row : ++row)]. *)
Definition sweep_rows (bottom : bool) (begin_ end_ : Z) : list Z :=
  if bottom then downto begin_ end_ else upto begin_ end_.

(** Predicate of the sweep's quantification. *)
Definition pre_row_pred (vm : var_map) (quant_row : Z) (x : Z) : res bool :=
  (try k <- cell_from_var vm x;
   if Bool.eqb (prime k) pre
   then try k' <- cell_from_var vm x; Ok (row k' =? quant_row)
   else Ok false)%res.

(** One iteration of the sweep: conjoin the row, then quantify [quant_row]
    when the guard allows it. *)
Definition sweep_step (vm : var_map) (bottom : bool) (begin_ : Z) (r : Z)
           (st : dd * list stat_line) : M adapter (dd * list stat_line) :=
  (do row_rel <- acc_rel_row vm r;
   let res := apply_and (fst st) row_rel in
   let out := snd st ++ [Acc begin_ r] in
   let quant_row := r + (if bottom then 1 else -1) in
   if (if bottom then begin_ <=? quant_row else quant_row <? begin_)
   then do res' <- adapter_exists res (pre_row_pred vm quant_row);
        ret (res', out ++ [Exi quant_row])
   else ret (res, out))%monad.

(** [acc_rel(adapter, vm, const bool bottom)] : one edge sweep; the result is
    the accumulated relation and the stat lines of the sweep. *)
Definition acc_rel_half (vm : var_map) (bottom : bool)
  : M adapter (dd * list stat_line) :=
  let half_rows := Z.quot (rows post) 2 in
  let top_begin := MIN_ROW post in
  let top_end := top_begin + half_rows - 1 in
  let bot_begin := MAX_ROW post in
  let bot_end := bot_begin - half_rows + 1 in
  let begin_ := if bottom then bot_begin else top_begin in
  let end_ := if bottom then bot_end else top_end in
  for_eachM (sweep_step vm bottom begin_) (sweep_rows bottom begin_ end_)
            (top, []).

Definition pre_pred (vm : var_map) (x : Z) : res bool :=
  (try k <- cell_from_var vm x; Ok (Bool.eqb (prime k) pre))%res.

(** [garden_of_eden(adapter, vm)]. *)
Definition garden_of_eden (vm : var_map) : M adapter dd :=
  (do top_half <- acc_rel_half vm false;
   let res := fst top_half in
   do bot_half <- acc_rel_half vm true;
   let res := apply_and res (fst bot_half) in
   do res <- (if Z.rem (rows post) 2 =? 1
              then do mid <- acc_rel_row vm (Z.quot (rows post) 2 + 1);
                   ret (apply_and res mid)
              else ret res);
   adapter_exists res (pre_pred vm))%monad.

(* ------------------------------------------------------------------------- *)
(** ** Further members of [cell] and [var_map] *)

(** [cell::min] and [cell::max]. *)
Definition cell_min (p : bool) : res cell := cell_new (MIN_ROW p) (MIN_COL p) p.
Definition cell_max (p : bool) : res cell := cell_new (MAX_ROW p) (MAX_COL p) p.

(** [cell::to_string] : the three characters of the string, as [char]
    values ('0' is 48, 'A' is 65, ' ' is 32 and the apostrophe is 39). *)
Definition cell_to_string (c : cell) : list Z :=
  [to_char (48 + row c); to_char (65 + col c - 1);
   if Bool.eqb (prime c) pre then 32 else 39].

(** [var_map::size] : the number of mappings, returned as [int]. *)
Definition size (vm : var_map) : Z :=
  to_int (Z.of_nat (List.length (_map vm))).

(* ------------------------------------------------------------------------- *)
(** ** Invariants, schedules and concrete grids used by the proofs *)

(** What holds of the constructor's locals between two iterations. *)
Record core_inv (b : vm_builder) : Prop := {
  ci_nodup : NoDup (map fst (vb_map b));
  ci_range : forall k v, In (k, v) (vb_map b) -> 0 <= v < vb_x b;
  ci_valid : forall k v, In (k, v) (vb_map b) -> out_of_range k = false;
  ci_surj : forall v, 0 <= v < vb_x b -> exists k, In (k, v) (vb_map b);
  ci_pre_inj : forall k1 k2 v,
      In (k1, v) (vb_map b) -> In (k2, v) (vb_map b) -> prime k1 = pre ->
      k1 = k2;
  ci_lt : forall k v,
      In (k, v) (vb_map b) -> prime k = post ->
      exists v', In (cell_reprime k pre, v') (vb_map b) /\ v' < v;
  ci_x : vb_x b = vb_pre b + vb_post b;
  ci_nonneg : 0 <= vb_pre b /\ 0 <= vb_post b
}.

(** Keys of the map: the cells over the coordinates [D] already visited. *)
Definition keys_inv (D : Z -> Z -> Prop) (b : vm_builder) : Prop :=
  forall k, In k (map fst (vb_map b))
            <-> D (row k) (col k) /\ out_of_range k = false.

(** Coordinates visited before row [r]; before column [i] of row [r] in the
    plain order; before left column [i] of row [r] in the mirrored order. *)
Definition rows_done (r r' c' : Z) : Prop :=
  0 <= r' < r /\ 0 <= c' <= N_cols + 1.

Definition none_done (r i r' c' : Z) : Prop :=
  rows_done r r' c' \/ (r' = r /\ 0 <= c' < i).

Definition mirror_done (r i r' c' : Z) : Prop :=
  rows_done r r' c'
  \/ (r' = r
      /\ (0 <= c' < i
          \/ (N_cols + 1 - i < c' <= N_cols + 1 /\ mirror_max_col < c'))).

(** Under mirror symmetry a post cell and its mirror image in the same row
    have the same index. *)
Definition mirror_pairs (m : list (cell * Z)) : Prop :=
  forall k v, In (k, v) m -> prime k = post ->
              In (Cell (row k) (MAX_COL pre - col k) post, v) m.

(** Post cells among the columns before [i] of row [r]. *)
Definition post_in_row (r i : Z) : Z :=
  if (1 <=? r) && (r <=? N_rows) then Z.min (Z.max (i - 1) 0) N_cols else 0.

(** Post indices handed out per interior row. *)
Definition post_per_row (s : symmetry) : Z :=
  match s with
  | none => N_cols
  | mirror => mirror_max_col
  end.

(** The cells of one phase, row by row. *)
Definition grid_cells (p : bool) : list cell :=
  flat_map (fun r => map (fun c => Cell r c p) (upto (MIN_COL p) (MAX_COL p)))
           (upto (MIN_ROW p) (MAX_ROW p)).

(** Largest distance between the index of a post cell and the index of the
    pre cell of the same coordinate. *)
Definition post_gap (s : symmetry) : Z :=
  match s with
  | none => 1
  | mirror => 2
  end.

(** Order of the indices in the map: a post cell follows its pre cell
    closely, the indices grow with the rows, and only mirrored post cells
    share an index. *)
Record order_inv (s : symmetry) (m : list (cell * Z)) : Prop := {
  oi_adj : forall k v,
      In (k, v) m -> prime k = post ->
      exists v', In (cell_reprime k pre, v') m /\ v - post_gap s <= v' < v;
  oi_rows : forall k1 v1 k2 v2,
      In (k1, v1) m -> In (k2, v2) m -> row k1 < row k2 -> v1 < v2;
  oi_share : forall k1 k2 v,
      In (k1, v) m -> In (k2, v) m ->
      k1 = k2
      \/ (s = mirror /\ prime k1 = post /\ prime k2 = post
          /\ row k1 = row k2 /\ col k1 + col k2 = N_cols + 1)
}.

(** Entries that one iteration of the constructor adds (newest first). *)
Definition none_news (r c x : Z) : list (cell * Z) :=
  (if out_of_range (Cell r c post) then [] else [(Cell r c post, x + 1)])
  ++ [(Cell r c pre, x)].

Definition mirror_news (r l x : Z) : list (cell * Z) :=
  let add := mirror_max_col <? N_cols + 1 - l in
  let valid := negb (out_of_range (Cell r l post)) in
  let pv := x + 1 + Z.b2z add in
  (if valid && add then [(Cell r (N_cols + 1 - l) post, pv)] else [])
  ++ (if valid then [(Cell r l post, pv)] else [])
  ++ (if add then [(Cell r (N_cols + 1 - l) pre, x + 1)] else [])
  ++ [(Cell r l pre, x)].

(** What the rest of the program relies on in a constructed [var_map]. *)
Record vm_ok (s : symmetry) (vm : var_map) : Prop := {
  ok_nodup : NoDup (map fst (_map vm));
  ok_range : forall k v, In (k, v) (_map vm) -> 0 <= v < varcount vm;
  ok_keys : forall k, In k (map fst (_map vm)) <-> out_of_range k = false;
  ok_pre_inj : forall k1 k2 v,
      In (k1, v) (_map vm) -> In (k2, v) (_map vm) -> prime k1 = pre -> k1 = k2;
  ok_lt : forall k v,
      In (k, v) (_map vm) -> prime k = post ->
      exists v', In (cell_reprime k pre, v') (_map vm) /\ v' < v;
  ok_inv_length : Z.of_nat (List.length (_inv vm)) = varcount vm;
  ok_inv : forall x, 0 <= x < varcount vm ->
                     exists k, cell_from_var vm x = Ok k /\ In (k, x) (_map vm);
  ok_pre : _varcount_pre vm = rows pre * cols pre;
  ok_post : _varcount_post vm = N_rows * post_per_row s;
  ok_pairs : s = mirror -> mirror_pairs (_map vm)
}.

(** Every variable tested somewhere in [f] satisfies [S]. *)
Fixpoint support (S : Z -> Prop) (f : dd) : Prop :=
  match f with
  | Leaf _ => True
  | Node x lo hi => S x /\ support S lo /\ support S hi
  end.

Definition in_range (n x : Z) : Prop := 0 <= x < n.

(** The adapter was created for [n] variables and its builder reference only
    tests variables below [n]. *)
Definition good (n : Z) (a : adapter) : Prop :=
  a_varcount a = n /\ support (in_range n) (_latest_build a).

(** [m] returns without throwing from every good adapter state, leaves the
    adapter good and returns a value that satisfies [Q]. *)
Definition returns {A : Type} (n : Z) (m : M adapter A) (Q : A -> Prop)
  : Prop :=
  forall a, good n a -> exists r a', m a = Ok (r, a') /\ good n a' /\ Q r.

(** Shape of the chain array between two iterations of [construct_count]. *)
Definition parts_ok (vm : var_map) (alive : Z) (parts : list dd) : Prop :=
  Z.of_nat (List.length parts) = alive + 2
  /\ Forall (support (in_range (varcount vm))) parts.

Definition count_state_ok (vm : var_map) (alive : Z) (st : count_state)
  : Prop :=
  parts_ok vm alive (init_parts st)
  /\ 0 <= alive_min st /\ alive_max st <= alive.

(** The variables tested in [f] are at least [lb] and grow strictly along
    every path: the diagram respects the variable order. *)
Fixpoint ordered_from (lb : Z) (f : dd) : Prop :=
  match f with
  | Leaf _ => True
  | Node x lo hi =>
      lb <= x /\ ordered_from (x + 1) lo /\ ordered_from (x + 1) hi
  end.

(** The assignments that satisfy a diagram; a property of assignments that
    holds for some values of the variables in [V]; a property of assignments
    that does not depend on the variables in [V]. *)
Definition sat (f : dd) (A : Z -> bool) : Prop := eval A f = true.

Definition for_some (V : Z -> Prop) (F : (Z -> bool) -> Prop)
           (A : Z -> bool) : Prop :=
  exists B, (forall x, ~ V x -> B x = A x) /\ F B.

Definition indep (V : Z -> Prop) (F : (Z -> bool) -> Prop) : Prop :=
  forall A B, (forall x, ~ V x -> A x = B x) -> F A -> F B.

(** [m] returns from every adapter state that satisfies [P], with a result
    and a final state related by [Q]. *)
Definition hoare {A : Type} (P : adapter -> Prop) (m : M adapter A)
           (Q : A -> adapter -> Prop) : Prop :=
  forall a, P a -> exists r a', m a = Ok (r, a') /\ Q r a'.

(** The result of [m] does not depend on the builder reference it starts
    from. *)
Definition same_value {A : Type} (m : M adapter A) : Prop :=
  forall a1 a2,
    a_varcount a1 = a_varcount a2 ->
    match m a1, m a2 with
    | Ok (r1, a1'), Ok (r2, a2') => r1 = r2 /\ a_varcount a1' = a_varcount a2'
    | Throw e1, Throw e2 => e1 = e2
    | _, _ => False
    end.

(** [x] is the variable of a pre cell in the 3x3 neighbourhood of [c]: the
    test of the loop of [construct_count]. *)
Definition target (vm : var_map) (c : cell) (x : Z) : Prop :=
  exists k, cell_from_var vm x = Ok k /\ prime k = pre
            /\ in_neighbourhood c k = true.

(** A chain of [construct_count] for [c] above level [lb]. *)
Definition slot_ok (vm : var_map) (c : cell) (lb : Z) (p : dd) : Prop :=
  ordered_from lb p
  /\ support (fun y => in_range (varcount vm) y /\ target vm c y) p.

(** Between two iterations of the loop of [construct_count], the levels from
    [i] on being done: the window is not empty and the builder reference is
    the chain at its upper end. *)
Definition count_inv (vm : var_map) (c : cell) (alive i : Z)
           (st : count_state) (a : adapter) : Prop :=
  a_varcount a = varcount vm
  /\ Z.of_nat (List.length (init_parts st)) = alive + 2
  /\ Forall (slot_ok vm c i) (init_parts st)
  /\ 0 <= alive_min st <= alive_max st /\ alive_max st <= alive
  /\ (i < varcount vm ->
      vec_at (init_parts st) (alive_max st) = Ok (_latest_build a)).

(** [y] is a variable of the map and, if it is the variable of a pre cell,
    the cell lies in the rows [lo .. hi]. *)
Definition row_span (vm : var_map) (lo hi : Z) (y : Z) : Prop :=
  in_range (varcount vm) y
  /\ forall k, cell_from_var vm y = Ok k -> prime k = pre ->
               lo <= row k <= hi.

(** The chain array of [construct_count] at the start of its loop. *)
Definition count_start (alive : Z) : count_state :=
  Count_state (set_nth (repeat bot (Z.to_nat (alive + 2))) (Z.to_nat alive) top)
              9 alive alive.

(** Between two iterations of the loop of [construct_count] for the count
    0: one chain, true when no target variable from level [i] on is true. *)
Definition count_zero_inv (vm : var_map) (c : cell) (i : Z)
           (st : count_state) (a : adapter) : Prop :=
  a_varcount a = varcount vm
  /\ alive_min st = 0 /\ alive_max st = 0
  /\ exists p0,
      init_parts st = [p0; bot]
      /\ forall A : Z -> bool,
          eval A p0 = true
          <-> forall x, i <= x < varcount vm -> target vm c x -> A x = false.

(** Lines of one sweep iteration. *)
Definition sweep_lines (bottom : bool) (begin_ r : Z) : list stat_line :=
  let quant_row := r + (if bottom then 1 else -1) in
  Acc begin_ r
  :: (if (if bottom then begin_ <=? quant_row else quant_row <? begin_)
      then [Exi quant_row] else []).

(** A freshly constructed adapter: [_latest_build = bot()]. *)
Definition adapter_new (varcount : Z) : adapter := Adapter varcount bot.

(** The relation that [construct_rel] builds for [c] (from a fresh
    adapter). *)
Definition rel_of (vm : var_map) (c : cell) : dd :=
  match construct_rel vm c (adapter_new (varcount vm)) with
  | Ok (r, _) => r
  | Throw _ => bot
  end.

(** Every cell of post row [r] satisfies its relation. *)
Definition row_holds (vm : var_map) (r : Z) (B : Z -> bool) : Prop :=
  forall c, 1 <= c <= N_cols -> sat (rel_of vm (Cell r c pre)) B.

(** The variables of the pre cells whose row satisfies [Q]. *)
Definition pre_rows (vm : var_map) (Q : Z -> Prop) (y : Z) : Prop :=
  exists k, cell_from_var vm y = Ok k /\ prime k = pre /\ Q (row k).

(** State of a sweep: the rows [D] are conjoined and pre rows in [Q] are
    quantified. Under the final quantification of all pre variables, and
    next to any conjunct that does not depend on the quantified rows, the
    accumulated diagram stands for the conjunction of the rows. *)
Definition sweep_inv (vm : var_map) (lo hi : Z) (D Q : Z -> Prop) (acc : dd)
  : Prop :=
  ordered_from 0 acc
  /\ support (row_span vm lo hi) acc
  /\ forall G : (Z -> bool) -> Prop,
      indep (pre_rows vm Q) G ->
      forall A,
        for_some (pre_rows vm (fun _ => True)) (fun B => sat acc B /\ G B) A
        <-> for_some (pre_rows vm (fun _ => True))
                     (fun B => (forall r, D r -> row_holds vm r B) /\ G B) A.

(** State of a sweep by itself: the accumulated diagram holds exactly when
    the pre rows in [Q] can be given values that satisfy the relation of
    every row in [D]. *)
Definition sweep_sem (vm : var_map) (lo hi : Z) (D Q : Z -> Prop) (acc : dd)
  : Prop :=
  ordered_from 0 acc
  /\ support (row_span vm lo hi) acc
  /\ forall A,
      sat acc A
      <-> for_some (pre_rows vm Q)
                   (fun B => forall r, D r -> row_holds vm r B) A.

(** The sweeps' quantifications, written out: the top sweep removes pre row
    0 right after post row 1; the bottom sweep removes pre row [N + 1] right
    after post row [N] and pre row [N] right after post row [N - 1]; no other
    row is removed inside a sweep. *)
Definition sweep_schedule (bottom : bool) : list stat_line :=
  let half_rows := Z.quot N_rows 2 in
  if half_rows <? 1 then []
  else if bottom
       then Acc N_rows N_rows :: Exi (N_rows + 1)
            :: (if half_rows <? 2 then []
                else Acc N_rows (N_rows - 1) :: Exi N_rows
                     :: map (Acc N_rows)
                            (downto (N_rows - 2) (N_rows - half_rows + 1)))
       else Acc 1 1 :: Exi 0 :: map (Acc 1) (upto 2 half_rows).

(** The pre variables of the 3x3 neighbourhood of [c] ("target variables")
    and how many of them an assignment makes true. *)
Definition target_vars (vm : var_map) (c : cell) : res (list Z) :=
  rbind (neighbourhood c)
        (fun nb => for_each (fun k acc =>
                               rbind (var_from_cell vm (cell_reprime k pre))
                                     (fun x => Ok (acc ++ [x])))
                            nb []).

Definition alive_count (A : Z -> bool) (targets : list Z) : Z :=
  Z.of_nat (List.length (filter A targets)).

(** The schedule in the words of the specification: a post row references
    the pre rows at distance at most one; a pre row is free once every post
    row that references it has been accumulated; the specification wants
    every free pre row quantified. *)
Definition references (post_row pre_row : Z) : bool :=
  Z.abs (post_row - pre_row) <=? 1.

Definition accumulated (lines : list stat_line) (r : Z) : bool :=
  existsb (fun l => match l with
                    | Acc _ r' => r' =? r
                    | Exi _ => false
                    end) lines.

Definition quantified (lines : list stat_line) (q : Z) : bool :=
  existsb (fun l => match l with
                    | Acc _ _ => false
                    | Exi q' => q' =? q
                    end) lines.

Definition free_pre_row (lines : list stat_line) (q : Z) : bool :=
  forallb (fun p => negb (references p q) || accumulated lines p)
          (upto (MIN_ROW post) (MAX_ROW post)).

Definition schedule_of_spec (lines : list stat_line) : bool :=
  forallb (fun q => negb (free_pre_row lines q) || quantified lines q)
          (upto (MIN_ROW pre) (MAX_ROW pre)).

(** [std::hash<char>] as the identity and the map visited as stored. *)
Definition hash_id (z : Z) : Z := z.
Definition visit_stored (m : list (cell * Z)) : list (cell * Z) := m.

(** Two of the nine cells around (1,1) alive: pre cells (0,0) and (0,1). *)
Definition two_alive (x : Z) : bool := (x =? 0) || (x =? 1).

(** Three of them alive: pre cells (0,0), (0,1) and (0,2). *)
Definition three_alive (x : Z) : bool := (x =? 0) || (x =? 1) || (x =? 2).

(** The maps that the constructor builds for some small grids (checked
    against [var_map_new] below): the 1x1 grid without symmetry, *)
Definition vm_1x1 : var_map :=
  Var_map 9 1
    [(Cell 2 2 pre, 9); (Cell 2 1 pre, 8); (Cell 2 0 pre, 7);
     (Cell 1 2 pre, 6); (Cell 1 1 post, 5); (Cell 1 1 pre, 4);
     (Cell 1 0 pre, 3); (Cell 0 2 pre, 2); (Cell 0 1 pre, 1);
     (Cell 0 0 pre, 0)]
    [Cell 0 0 pre; Cell 0 1 pre; Cell 0 2 pre; Cell 1 0 pre; Cell 1 1 pre;
     Cell 1 1 post; Cell 1 2 pre; Cell 2 0 pre; Cell 2 1 pre; Cell 2 2 pre].

(** the 1x2 grid without symmetry, *)
Definition vm_1x2_none : var_map :=
  Var_map 12 2
    [(Cell 2 3 pre, 13); (Cell 2 2 pre, 12); (Cell 2 1 pre, 11);
     (Cell 2 0 pre, 10); (Cell 1 3 pre, 9); (Cell 1 2 post, 8);
     (Cell 1 2 pre, 7); (Cell 1 1 post, 6); (Cell 1 1 pre, 5);
     (Cell 1 0 pre, 4); (Cell 0 3 pre, 3); (Cell 0 2 pre, 2);
     (Cell 0 1 pre, 1); (Cell 0 0 pre, 0)]
    [Cell 0 0 pre; Cell 0 1 pre; Cell 0 2 pre; Cell 0 3 pre; Cell 1 0 pre;
     Cell 1 1 pre; Cell 1 1 post; Cell 1 2 pre; Cell 1 2 post; Cell 1 3 pre;
     Cell 2 0 pre; Cell 2 1 pre; Cell 2 2 pre; Cell 2 3 pre].

(** the 1x2 grid with mirror symmetry (post index 8 is shared), *)
Definition vm_1x2_mirror : var_map :=
  Var_map 12 1
    [(Cell 2 2 pre, 12); (Cell 2 1 pre, 11); (Cell 2 3 pre, 10);
     (Cell 2 0 pre, 9); (Cell 1 2 post, 8); (Cell 1 1 post, 8);
     (Cell 1 2 pre, 7); (Cell 1 1 pre, 6); (Cell 1 3 pre, 5);
     (Cell 1 0 pre, 4); (Cell 0 2 pre, 3); (Cell 0 1 pre, 2);
     (Cell 0 3 pre, 1); (Cell 0 0 pre, 0)]
    [Cell 0 0 pre; Cell 0 3 pre; Cell 0 1 pre; Cell 0 2 pre; Cell 1 0 pre;
     Cell 1 3 pre; Cell 1 1 pre; Cell 1 2 pre; Cell 1 1 post; Cell 2 0 pre;
     Cell 2 3 pre; Cell 2 1 pre; Cell 2 2 pre].

(** and the 6x1 grid without symmetry. *)
Definition vm_6x1 : var_map :=
  Var_map 24 6
    [(Cell 7 2 pre, 29); (Cell 7 1 pre, 28); (Cell 7 0 pre, 27);
     (Cell 6 2 pre, 26); (Cell 6 1 post, 25); (Cell 6 1 pre, 24);
     (Cell 6 0 pre, 23); (Cell 5 2 pre, 22); (Cell 5 1 post, 21);
     (Cell 5 1 pre, 20); (Cell 5 0 pre, 19); (Cell 4 2 pre, 18);
     (Cell 4 1 post, 17); (Cell 4 1 pre, 16); (Cell 4 0 pre, 15);
     (Cell 3 2 pre, 14); (Cell 3 1 post, 13); (Cell 3 1 pre, 12);
     (Cell 3 0 pre, 11); (Cell 2 2 pre, 10); (Cell 2 1 post, 9);
     (Cell 2 1 pre, 8); (Cell 2 0 pre, 7); (Cell 1 2 pre, 6);
     (Cell 1 1 post, 5); (Cell 1 1 pre, 4); (Cell 1 0 pre, 3);
     (Cell 0 2 pre, 2); (Cell 0 1 pre, 1); (Cell 0 0 pre, 0)]
    [Cell 0 0 pre; Cell 0 1 pre; Cell 0 2 pre; Cell 1 0 pre; Cell 1 1 pre;
     Cell 1 1 post; Cell 1 2 pre; Cell 2 0 pre; Cell 2 1 pre; Cell 2 1 post;
     Cell 2 2 pre; Cell 3 0 pre; Cell 3 1 pre; Cell 3 1 post; Cell 3 2 pre;
     Cell 4 0 pre; Cell 4 1 pre; Cell 4 1 post; Cell 4 2 pre; Cell 5 0 pre;
     Cell 5 1 pre; Cell 5 1 post; Cell 5 2 pre; Cell 6 0 pre; Cell 6 1 pre;
     Cell 6 1 post; Cell 6 2 pre; Cell 7 0 pre; Cell 7 1 pre; Cell 7 2 pre].

(* ------------------------------------------------------------------------- *)
(** ** Loops and vectors *)

Lemma upto_nil (lo hi : Z) : hi < lo -> upto lo hi = [].
Proof.
  intro H. unfold upto. replace (Z.to_nat (hi + 1 - lo)) with O by lia.
  reflexivity.
Qed.

Lemma upto_cons (lo hi : Z) : lo <= hi -> upto lo hi = lo :: upto (lo + 1) hi.
Proof.
  intro H. unfold upto.
  replace (Z.to_nat (hi + 1 - lo)) with (S (Z.to_nat (hi + 1 - (lo + 1))))
    by lia.
  simpl. f_equal; [lia |].
  rewrite <- seq_shift, map_map. apply map_ext. intro i. lia.
Qed.

Lemma downto_nil (hi lo : Z) : hi < lo -> downto hi lo = [].
Proof.
  intro H. unfold downto. replace (Z.to_nat (hi + 1 - lo)) with O by lia.
  reflexivity.
Qed.

Lemma downto_cons (hi lo : Z) :
  lo <= hi -> downto hi lo = hi :: downto (hi - 1) lo.
Proof.
  intro H. unfold downto.
  replace (Z.to_nat (hi + 1 - lo)) with (S (Z.to_nat (hi - 1 + 1 - lo)))
    by lia.
  simpl. f_equal; [lia |].
  rewrite <- seq_shift, map_map. apply map_ext. intro i. lia.
Qed.

Lemma in_upto (lo hi i : Z) : In i (upto lo hi) <-> lo <= i <= hi.
Proof.
  unfold upto. rewrite in_map_iff. split.
  - intros [n [<- Hn]]. apply in_seq in Hn. lia.
  - intros H. exists (Z.to_nat (i - lo)). split; [lia |].
    apply in_seq. lia.
Qed.

Lemma in_downto (hi lo i : Z) : In i (downto hi lo) <-> lo <= i <= hi.
Proof.
  unfold downto. rewrite in_map_iff. split.
  - intros [n [<- Hn]]. apply in_seq in Hn. lia.
  - intros H. exists (Z.to_nat (hi - i)). split; [lia |].
    apply in_seq. lia.
Qed.

(** Invariant rule for an ascending counted loop in [res]. *)
Lemma for_each_upto {S : Type} (body : Z -> S -> res S)
      (P : Z -> S -> Prop) (hi : Z) :
  (forall i s, i <= hi -> P i s -> exists s', body i s = Ok s' /\ P (i + 1) s') ->
  forall lo s, lo <= hi + 1 -> P lo s ->
  exists s', for_each body (upto lo hi) s = Ok s' /\ P (hi + 1) s'.
Proof.
  intros Hbody lo.
  remember (Z.to_nat (hi + 1 - lo)) as n eqn:Hn.
  revert lo Hn. induction n as [| n IH]; intros lo Hn s Hlo HP.
  - rewrite upto_nil by lia. simpl. exists s.
    replace (hi + 1) with lo by lia. auto.
  - rewrite upto_cons by lia. simpl.
    destruct (Hbody lo s) as [s1 [E1 P1]]; [lia | assumption |].
    rewrite E1. simpl. apply IH; [lia | lia | assumption].
Qed.

(** A loop throws as soon as one of its iterations throws in every state. *)
Lemma for_each_throws {A S : Type} (body : A -> S -> res S) (x : A)
      (xs : list A) :
  In x xs -> (forall s, exists e, body x s = Throw e) ->
  forall s, exists e, for_each body xs s = Throw e.
Proof.
  intros Hin Hx. induction xs as [| y ys IH]; [contradiction |].
  intro s. simpl.
  destruct Hin as [-> | Hin].
  - destruct (Hx s) as [e ->]. now exists e.
  - destruct (body y s) as [s' | e]; simpl; [now apply IH | now exists e].
Qed.

Lemma set_nth_length {A : Type} (v : list A) (n : nat) (a : A) :
  List.length (set_nth v n a) = List.length v.
Proof.
  revert n. induction v as [| b v IH]; intros [| n]; simpl; auto.
Qed.

Lemma nth_error_set_nth_eq {A : Type} (v : list A) (n : nat) (a : A) :
  (n < List.length v)%nat -> nth_error (set_nth v n a) n = Some a.
Proof.
  revert n. induction v as [| b v IH]; intros [| n] H; simpl in *;
    try lia; auto.
  apply IH. lia.
Qed.

Lemma nth_error_set_nth_neq {A : Type} (v : list A) (n m : nat) (a : A) :
  n <> m -> nth_error (set_nth v n a) m = nth_error v m.
Proof.
  revert n m. induction v as [| b v IH]; intros [| n] [| m] H; simpl;
    try reflexivity; try congruence.
  apply IH. congruence.
Qed.

Lemma to_char_small (z : Z) : -128 <= z <= 127 -> to_char z = z.
Proof.
  intro H. unfold to_char. rewrite Z.mod_small; lia.
Qed.

(* ------------------------------------------------------------------------- *)
(** ** Cells, hashing and lookup *)

Lemma lxor_one_neq (h : Z) : Z.lxor h 1 <> Z.lxor h 0.
Proof.
  intro H.
  assert (T : Z.testbit (Z.lxor h 1) 0 = Z.testbit (Z.lxor h 0) 0)
    by (rewrite H; reflexivity).
  rewrite !Z.lxor_spec in T. simpl in T.
  destruct (Z.odd h); discriminate.
Qed.

(** C10. [cell::operator==] compares row and column only: a pre cell and the
    post cell of the same coordinate are equal for it, while [std::hash<cell>]
    gives them different hash codes. *)
Theorem cell_eq_ignores_prime :
  (forall a b : cell, cell_eq a b = true <-> row a = row b /\ col a = col b)
  /\ (forall r c : Z, cell_eq (Cell r c pre) (Cell r c post) = true)
  /\ (forall r c : Z, hash_cell (Cell r c pre) <> hash_cell (Cell r c post)).
Proof.
  split; [| split].
  - intros a b. unfold cell_eq.
    rewrite andb_true_iff, !Z.eqb_eq. tauto.
  - intros r c. unfold cell_eq. simpl. now rewrite !Z.eqb_refl.
  - intros r c. unfold hash_cell. simpl. intro H.
    now apply (lxor_one_neq (Z.lxor (hash_char r) (hash_char c))).
Qed.

Lemma same_key_iff (a b : cell) : same_key a b = true <-> a = b.
Proof.
  unfold same_key, cell_eq. split.
  - rewrite !andb_true_iff, !Z.eqb_eq. intros [Hh [Hr Hc]].
    destruct a as [ra ca pa], b as [rb cb pb]. simpl in *. subst.
    unfold hash_cell in Hh. simpl in Hh.
    f_equal. destruct pa, pb; try reflexivity; exfalso.
    + now apply (lxor_one_neq (Z.lxor (hash_char rb) (hash_char cb))).
    + symmetry in Hh.
      now apply (lxor_one_neq (Z.lxor (hash_char rb) (hash_char cb))).
  - intros ->. now rewrite !Z.eqb_refl.
Qed.

Lemma same_key_refl (a : cell) : same_key a a = true.
Proof. now apply same_key_iff. Qed.

Lemma same_key_false (a b : cell) : a <> b -> same_key a b = false.
Proof.
  intro H. destruct (same_key a b) eqn:E; [| reflexivity].
  now apply same_key_iff in E.
Qed.

Lemma map_find_In (m : list (cell * Z)) (c : cell) (v : Z) :
  map_find m c = Some v -> In (c, v) m.
Proof.
  induction m as [| [k w] m IH]; simpl; [discriminate |].
  destruct (same_key k c) eqn:E.
  - apply same_key_iff in E. subst. intros [= ->]. now left.
  - intro H. right. now apply IH.
Qed.

Lemma map_find_None (m : list (cell * Z)) (c : cell) :
  map_find m c = None <-> ~ In c (map fst m).
Proof.
  induction m as [| [k w] m IH]; simpl.
  - tauto.
  - destruct (same_key k c) eqn:E.
    + apply same_key_iff in E. subst. split; [discriminate | tauto].
    + rewrite IH. split.
      * intros H [-> | H']; [now rewrite same_key_refl in E | tauto].
      * tauto.
Qed.

Lemma map_find_Some (m : list (cell * Z)) (c : cell) (v : Z) :
  NoDup (map fst m) -> In (c, v) m -> map_find m c = Some v.
Proof.
  induction m as [| [k w] m IH]; simpl; [tauto |].
  intros Hnd [[= -> ->] | Hin].
  - now rewrite same_key_refl.
  - inversion Hnd as [| ? ? Hk Hnd']; subst.
    rewrite same_key_false; [now apply IH |].
    intros ->. apply Hk. now apply (in_map fst) in Hin.
Qed.

(** C8. [var_from_cell] throws [std::out_of_range] exactly for a cell outside
    the bounds of its own phase or without an entry in [_map]; in every other
    case it returns the index stored for the cell. *)
Theorem var_from_cell_out_of_range (vm : var_map) (c : cell) :
  ((exists what, var_from_cell vm c = Throw (out_of_range_exn what))
   <-> out_of_range c = true \/ map_find (_map vm) c = None)
  /\ ((exists x, var_from_cell vm c = Ok x /\ map_find (_map vm) c = Some x)
      <-> ~ (out_of_range c = true \/ map_find (_map vm) c = None)).
Proof.
  unfold var_from_cell.
  destruct (out_of_range c) eqn:Hr.
  - split; split.
    + now left.
    + intros _. eexists. reflexivity.
    + intros [x [H _]]. discriminate.
    + intro H. exfalso. apply H. now left.
  - destruct (map_find (_map vm) c) as [x |] eqn:Hf.
    + split; split.
      * intros [w H]. discriminate.
      * intros [H | H]; discriminate.
      * intros _ [H | H]; discriminate.
      * intros _. now exists x.
    + split; split.
      * now right.
      * intros _. eexists. reflexivity.
      * intros [x [H _]]. discriminate.
      * intro H. exfalso. apply H. now right.
Qed.

(* ------------------------------------------------------------------------- *)
(** ** Invariant of the map under construction *)

Lemma core_inv_init : core_inv (Vm_builder 0 0 0 []).
Proof.
  constructor; simpl; try tauto; try lia.
  constructor.
Qed.

Lemma in_keys (m : list (cell * Z)) (k : cell) :
  In k (map fst m) <-> exists v, In (k, v) m.
Proof.
  rewrite in_map_iff. split.
  - intros [[k' v] [<- H]]. now exists v.
  - intros [v H]. now exists (k, v).
Qed.

Lemma map_insert_fresh (m : list (cell * Z)) (c : cell) (v : Z) :
  ~ In c (map fst m) -> map_insert m c v = (c, v) :: m.
Proof.
  intro H. unfold map_insert.
  now replace (map_find m c) with (@None Z) by (symmetry; now apply map_find_None).
Qed.

(** [_map.insert({ c, x++ })] for a key that is not yet in the map. *)
Lemma core_inv_insert_fresh (c : cell) (b : vm_builder) :
  core_inv b ->
  ~ In c (map fst (vb_map b)) ->
  out_of_range c = false ->
  (prime c = post -> In (cell_reprime c pre) (map fst (vb_map b))) ->
  core_inv (insert_fresh c (prime c) b)
  /\ vb_map (insert_fresh c (prime c) b) = (c, vb_x b) :: vb_map b.
Proof.
  intros [Hnd Hrg Hvl Hsj Hinj Hlt Hx Hnn] Hfresh Hval Hpre.
  assert (Hmap : vb_map (insert_fresh c (prime c) b) = (c, vb_x b) :: vb_map b)
    by (simpl; now apply map_insert_fresh).
  split; [| exact Hmap].
  constructor; rewrite ?Hmap.
  - simpl. now constructor.
  - intros k v [[= <- <-] | H]; simpl; [lia |].
    apply Hrg in H. lia.
  - intros k v [[= <- <-] | H]; [assumption | eauto].
  - simpl. intros v Hv. destruct (Z.eq_dec v (vb_x b)) as [-> | Hne].
    + exists c. now left.
    + destruct (Hsj v) as [k Hk]; [lia |]. exists k. now right.
  - intros k1 k2 v [E1 | H1] [E2 | H2] Hp.
    + congruence.
    + inversion E1; subst. apply Hrg in H2. lia.
    + inversion E2; subst. apply Hrg in H1. lia.
    + eauto.
  - intros k v [[= <- <-] | H] Hp.
    + apply Hpre in Hp. apply in_keys in Hp. destruct Hp as [v' Hv'].
      exists v'. split; [now right |]. apply Hrg in Hv'. lia.
    + destruct (Hlt k v H Hp) as [v' [H1 H2]]. exists v'. split; [now right | assumption].
  - simpl. destruct (prime c); lia.
  - simpl. destruct (prime c); lia.
Qed.

(** [_map.insert({ post_right, post_var })] : the index of [post_left] is
    given to a second post cell. *)
Lemma core_inv_insert_shared (c l : cell) (b : vm_builder) (post_var : Z) :
  core_inv b ->
  ~ In c (map fst (vb_map b)) ->
  out_of_range c = false ->
  prime c = post -> prime l = post ->
  post_var = vb_x b - 1 ->
  In (l, post_var) (vb_map b) ->
  In (cell_reprime c pre) (map fst (vb_map b)) ->
  core_inv (Vm_builder (vb_x b) (vb_pre b) (vb_post b)
                       (map_insert (vb_map b) c post_var)).
Proof.
  intros [Hnd Hrg Hvl Hsj Hinj Hlt Hx Hnn] Hfresh Hval Hpc Hpl -> Hl Hpre.
  rewrite map_insert_fresh by assumption.
  constructor; simpl.
  - now constructor.
  - intros k v [[= <- <-] | H]; [| eauto]. apply Hrg in Hl. lia.
  - intros k v [[= <- <-] | H]; [assumption | eauto].
  - intros v Hv. destruct (Hsj v Hv) as [k Hk]. exists k. now right.
  - intros k1 k2 v [E1 | H1] [E2 | H2] Hp.
    + congruence.
    + inversion E1; subst. unfold pre, post in *. congruence.
    + inversion E2; subst. assert (k1 = l) by eauto. subst.
      unfold pre, post in *. congruence.
    + eauto.
  - intros k v [[= <- <-] | H] Hp.
    + apply in_keys in Hpre. destruct Hpre as [v' Hv'].
      exists v'. split; [now right |].
      destruct (Hlt l _ Hl Hpl) as [w [Hw1 Hw2]].
      destruct (Z_lt_ge_dec v' (vb_x b - 1)) as [| Hge]; [assumption |].
      assert (Hr := Hrg _ _ Hv').
      assert (v' = vb_x b - 1) by lia. subst v'.
      assert (cell_reprime c pre = l) by (apply (Hinj _ _ _ Hv' Hl); reflexivity).
      subst l. simpl in Hpl. discriminate.
    + destruct (Hlt k v H Hp) as [v' [H1 H2]]. exists v'. split; [now right | assumption].
  - assumption.
  - assumption.
Qed.

Lemma oor_pre (r c : Z) :
  out_of_range (Cell r c pre) = false
  <-> 0 <= r <= N_rows + 1 /\ 0 <= c <= N_cols + 1.
Proof.
  unfold out_of_range, MIN_ROW, MAX_ROW, MIN_COL, MAX_COL, rows, cols. simpl.
  rewrite !orb_false_iff, !Z.ltb_ge. lia.
Qed.

Lemma oor_post (r c : Z) :
  out_of_range (Cell r c post) = false
  <-> 1 <= r <= N_rows /\ 1 <= c <= N_cols.
Proof.
  unfold out_of_range, MIN_ROW, MAX_ROW, MIN_COL, MAX_COL, rows, cols. simpl.
  rewrite !orb_false_iff, !Z.ltb_ge. lia.
Qed.

Lemma keys_inv_ext (D D' : Z -> Z -> Prop) (b : vm_builder) :
  (forall r c, D r c <-> D' r c) -> keys_inv D b -> keys_inv D' b.
Proof.
  intros HD H k. rewrite (H k), (HD (row k) (col k)). tauto.
Qed.

Lemma mirror_max_col_halves :
  0 <= N_cols ->
  2 * mirror_max_col = N_cols + 1 \/ 2 * mirror_max_col + 1 = N_cols + 1.
Proof.
  intro H. unfold mirror_max_col, MIN_COL, cols. cbn [Z.b2z negb pre].
  destruct (Z.rem (N_cols + 2 * 1) 2 =? 0) eqn:E; cbn [Z.b2z negb];
    [apply Z.eqb_eq in E | apply Z.eqb_neq in E];
    Z.to_euclidean_division_equations; lia.
Qed.

(** The range-for over [_map] visits every entry once. *)
Hypothesis map_iteration_perm : forall m, Permutation (map_iteration m) m.

Section ValidGrid.

Hypothesis rows_fit : 0 <= N_rows <= 126.
Hypothesis cols_fit : 0 <= N_cols <= 126.

Lemma cell_new_ok (r c : Z) (p : bool) :
  out_of_range (Cell r c p) = false -> cell_new r c p = Ok (Cell r c p).
Proof.
  intro H. unfold cell_new.
  assert (R : 0 <= r <= 127 /\ 0 <= c <= 127).
  { destruct p; [apply oor_post in H | apply oor_pre in H]; lia. }
  rewrite !to_char_small by lia. now rewrite H.
Qed.

Lemma none_step_spec (r c : Z) (b : vm_builder) (D : Z -> Z -> Prop) :
  0 <= r <= N_rows + 1 -> 0 <= c <= N_cols + 1 ->
  core_inv b -> keys_inv D b -> ~ D r c ->
  exists b',
    none_step r c b = Ok b' /\ core_inv b'
    /\ keys_inv (fun r' c' => D r' c' \/ (r' = r /\ c' = c)) b'
    /\ vb_pre b' = vb_pre b + 1
    /\ vb_post b' = vb_post b + Z.b2z (negb (out_of_range (Cell r c post))).
Proof.
  intros Hr Hc Hcore Hkeys Hfresh.
  assert (Vp : out_of_range (Cell r c pre) = false) by (apply oor_pre; lia).
  unfold none_step. rewrite (cell_new_ok _ _ _ Vp). simpl rbind.
  assert (F1 : ~ In (Cell r c pre) (map fst (vb_map b))).
  { intro H. apply Hkeys in H. simpl in H. tauto. }
  destruct (core_inv_insert_fresh (Cell r c pre) b Hcore F1 Vp) as [C1 M1];
    [discriminate |].
  simpl prime in C1, M1. unfold cell_reprime. simpl row. simpl col.
  destruct (out_of_range (Cell r c post)) eqn:Vq; simpl negb; cbv iota.
  - eexists. split; [reflexivity |]. split; [exact C1 |].
    split; [| simpl; split; lia].
    intro k. rewrite M1. simpl. rewrite (Hkeys k).
    destruct k as [kr kc kp]. simpl. split.
    + intros [E | [H1 H2]]; [inversion E; subst |]; tauto.
    + intros [[H | [-> ->]] H2]; [tauto |].
      destruct kp; [| now left]. unfold post in Vq. congruence.
  - assert (F2 : ~ In (Cell r c post)
                      (map fst (vb_map (insert_fresh (Cell r c pre) pre b)))).
    { rewrite M1. simpl. intros [H | H]; [discriminate |].
      apply Hkeys in H. simpl in H. tauto. }
    destruct (core_inv_insert_fresh (Cell r c post) _ C1 F2 Vq) as [C2 M2].
    { intros _. rewrite M1. now left. }
    simpl prime in C2, M2.
    eexists. split; [reflexivity |]. split; [exact C2 |].
    split; [| simpl; split; lia].
    intro k. rewrite M2, M1. simpl. rewrite (Hkeys k).
    destruct k as [kr kc kp]. simpl. split.
    + intros [E | [E | [H1 H2]]]; try (inversion E; subst); tauto.
    + intros [[H | [-> ->]] H2]; [tauto |].
      destruct kp; [now left | right; now left].
Qed.

Lemma mirror_max_col_spec :
  2 * mirror_max_col = N_cols + 1 \/ 2 * mirror_max_col + 1 = N_cols + 1.
Proof. apply mirror_max_col_halves. lia. Qed.

Lemma max_col_pre : MAX_COL pre = N_cols + 1.
Proof. unfold MAX_COL, cols. simpl. lia. Qed.

Ltac cases_on H :=
  lazymatch type of H with
  | _ \/ _ => let H1 := fresh H in destruct H as [H1 | H1]; cases_on H1
  | _ /\ _ => let H1 := fresh H in
              let H2 := fresh H in
              destruct H as [H1 H2]; cases_on H1; cases_on H2
  | Cell _ _ _ = Cell _ _ _ => inversion H; subst; clear H
  | @eq Z _ _ => try subst
  | _ => idtac
  end.

Ltac post_cell_absurd :=
  lazymatch goal with
  | Vq : out_of_range (Cell _ _ post) = true,
    H : out_of_range (Cell _ _ true) = false |- _ =>
      exfalso; apply Bool.not_false_iff_true in Vq; apply Vq;
      apply oor_post in H; apply oor_post; lia
  end.

Lemma mirror_step_spec (r l : Z) (b : vm_builder) (D : Z -> Z -> Prop) :
  0 <= r <= N_rows + 1 -> 0 <= l <= mirror_max_col ->
  core_inv b -> keys_inv D b ->
  ~ D r l -> ~ D r (N_cols + 1 - l) ->
  exists b',
    mirror_step mirror_max_col r l b = Ok b' /\ core_inv b'
    /\ keys_inv (fun r' c' =>
                   D r' c'
                   \/ (r' = r /\ (c' = l \/ (mirror_max_col < N_cols + 1 - l
                                           /\ c' = N_cols + 1 - l)))) b'
    /\ vb_pre b' = vb_pre b + 1 + Z.b2z (mirror_max_col <? N_cols + 1 - l)
    /\ vb_post b' = vb_post b + Z.b2z (negb (out_of_range (Cell r l post)))
    /\ (mirror_pairs (vb_map b) -> mirror_pairs (vb_map b')).
Proof.
  intros Hr Hl Hcore Hkeys Hfl Hfr.
  pose proof mirror_max_col_spec as Hmc.
  unfold mirror_pairs. rewrite max_col_pre.
  assert (Vl : out_of_range (Cell r l pre) = false) by (apply oor_pre; lia).
  unfold mirror_step. rewrite max_col_pre.
  rewrite (cell_new_ok _ _ _ Vl). simpl rbind.
  assert (F1 : ~ In (Cell r l pre) (map fst (vb_map b))).
  { intro H. apply Hkeys in H. simpl in H. tauto. }
  destruct (core_inv_insert_fresh (Cell r l pre) b Hcore F1 Vl) as [C1 M1];
    [discriminate |].
  simpl prime in C1, M1. unfold cell_reprime. simpl row. simpl col.
  set (b1 := insert_fresh (Cell r l pre) pre b) in *.
  assert (P1 : vb_pre b1 = vb_pre b + 1 /\ vb_post b1 = vb_post b
               /\ vb_x b1 = vb_x b + 1) by (simpl; lia).
  destruct (mirror_max_col <? N_cols + 1 - l) eqn:Hadd;
    [apply Z.ltb_lt in Hadd | apply Z.ltb_ge in Hadd].
  - (* the mirrored column is a second column *)
    assert (Vr : out_of_range (Cell r (N_cols + 1 - l) pre) = false)
      by (apply oor_pre; lia).
    rewrite (cell_new_ok _ _ _ Vr). simpl rbind.
    assert (F2 : ~ In (Cell r (N_cols + 1 - l) pre) (map fst (vb_map b1))).
    { rewrite M1. simpl. intros [H | H]; [inversion H; lia |].
      apply Hkeys in H. simpl in H. tauto. }
    destruct (core_inv_insert_fresh _ b1 C1 F2 Vr) as [C2 M2];
      [discriminate |].
    simpl prime in C2, M2.
    set (b2 := insert_fresh (Cell r (N_cols + 1 - l) pre) pre b1) in *.
    assert (P2 : vb_pre b2 = vb_pre b + 2 /\ vb_post b2 = vb_post b
                 /\ vb_x b2 = vb_x b1 + 1) by (simpl; lia).
    destruct (out_of_range (Cell r l post)) eqn:Vq; simpl negb; cbv iota.
    + eexists. split; [reflexivity |]. split; [exact C2 |].
      split; [| split; [simpl Z.b2z; lia | split; [simpl Z.b2z; lia |]]];
        cycle 1.
      { intros Hp k v Hin Hk. rewrite M2, M1 in Hin |- *. simpl in Hin.
        destruct Hin as [E | [E | Hin]];
          try (inversion E; subst; simpl in Hk; discriminate Hk).
        right. right. now apply Hp. }
      intro k. rewrite M2, M1. simpl. rewrite (Hkeys k).
      destruct k as [kr kc kp]. simpl. split.
      * intro H. cases_on H; auto 8.
      * intro H. cases_on H; auto 8; (destruct kp; [post_cell_absurd | auto 8]).
    + assert (F3 : ~ In (Cell r l post) (map fst (vb_map b2))).
      { rewrite M2, M1. simpl. intros [H | [H | H]]; try discriminate.
        apply Hkeys in H. simpl in H. tauto. }
      destruct (core_inv_insert_fresh (Cell r l post) b2 C2 F3 Vq) as [C3 M3].
      { intros _. rewrite M2, M1. right. now left. }
      simpl prime in C3, M3.
      set (b3 := insert_fresh (Cell r l post) post b2) in *.
      assert (Vs : out_of_range (Cell r (N_cols + 1 - l) post) = false).
      { apply oor_post in Vq. apply oor_post. lia. }
      rewrite (cell_new_ok _ _ _ Vs). simpl rbind.
      assert (X3 : vb_x b2 = vb_x b3 - 1) by (simpl; lia).
      assert (F4 : ~ In (Cell r (N_cols + 1 - l) post) (map fst (vb_map b3))).
      { rewrite M3, M2, M1. simpl.
        intros [H | [H | [H | H]]]; try discriminate; [inversion H; lia |].
        apply Hkeys in H. simpl in H. tauto. }
      assert (C4 := core_inv_insert_shared
                      (Cell r (N_cols + 1 - l) post) (Cell r l post) b3
                      (vb_x b2) C3 F4 Vs eq_refl eq_refl X3).
      set (b4 := Vm_builder (vb_x b3) (vb_pre b3) (vb_post b3)
                   (map_insert (vb_map b3) (Cell r (N_cols + 1 - l) post)
                               (vb_x b2))).
      assert (M4 : vb_map b4
                   = (Cell r (N_cols + 1 - l) post, vb_x b2) :: vb_map b3)
        by (apply map_insert_fresh; exact F4).
      exists b4. split; [reflexivity |]. split.
      { apply C4.
        - rewrite M3. now left.
        - rewrite M3, M2, M1. right. now left. }
      split; [| split; [simpl Z.b2z; simpl; lia
                       | split; [simpl Z.b2z; simpl; lia |]]]; cycle 1.
      { intros Hp k v Hin Hk.
        rewrite M4, M3, M2, M1 in Hin |- *. simpl in Hin.
        destruct Hin as [E | [E | [E | [E | Hin]]]];
          try (inversion E; subst; simpl in Hk; discriminate Hk).
        - inversion E; subst. simpl row. simpl col.
          replace (N_cols + 1 - (N_cols + 1 - l)) with l by lia.
          right. now left.
        - inversion E; subst. now left.
        - do 4 right. now apply Hp. }
      intro k. rewrite M4, M3, M2, M1. simpl. rewrite (Hkeys k).
      destruct k as [kr kc kp]. simpl. split.
      * intro H. cases_on H; auto 8.
      * intro H. cases_on H; auto 8; destruct kp; auto 8.
  - (* the column is its own mirror image *)
    destruct (out_of_range (Cell r l post)) eqn:Vq; simpl negb; cbv iota.
    + eexists. split; [reflexivity |]. split; [exact C1 |].
      split; [| split; [simpl Z.b2z; lia | split; [simpl Z.b2z; lia |]]];
        cycle 1.
      { intros Hp k v Hin Hk. rewrite M1 in Hin |- *. simpl in Hin.
        destruct Hin as [E | Hin];
          try (inversion E; subst; simpl in Hk; discriminate Hk).
        right. now apply Hp. }
      intro k. rewrite M1. simpl. rewrite (Hkeys k).
      destruct k as [kr kc kp]. simpl. split.
      * intro H. cases_on H; auto 8.
      * intro H. cases_on H; auto 8; try lia.
        destruct kp; [post_cell_absurd | auto 8].
    + assert (F3 : ~ In (Cell r l post) (map fst (vb_map b1))).
      { rewrite M1. simpl. intros [H | H]; try discriminate.
        apply Hkeys in H. simpl in H. tauto. }
      destruct (core_inv_insert_fresh (Cell r l post) b1 C1 F3 Vq) as [C3 M3].
      { intros _. rewrite M1. now left. }
      simpl prime in C3, M3.
      eexists. split; [reflexivity |]. split; [exact C3 |].
      split; [| split; [simpl Z.b2z; simpl; lia
                       | split; [simpl Z.b2z; simpl; lia |]]]; cycle 1.
      { intros Hp k v Hin Hk. rewrite M3, M1 in Hin |- *. simpl in Hin.
        destruct Hin as [E | [E | Hin]];
          try (inversion E; subst; simpl in Hk; discriminate Hk).
        - inversion E; subst. simpl row. simpl col.
          replace (N_cols + 1 - l) with l by lia. now left.
        - right. right. now apply Hp. }
      intro k. rewrite M3, M1. simpl. rewrite (Hkeys k).
      destruct k as [kr kc kp]. simpl. split.
      * intro H. cases_on H; auto 8.
      * intro H. cases_on H; auto 8; try lia.
        destruct kp; auto 8.
Qed.

Lemma post_in_row_step (r i : Z) :
  0 <= i ->
  post_in_row r (i + 1)
  = post_in_row r i + Z.b2z (negb (out_of_range (Cell r i post))).
Proof.
  intro Hi. unfold post_in_row.
  destruct (out_of_range (Cell r i post)) eqn:E.
  - assert (N : ~ (1 <= r <= N_rows /\ 1 <= i <= N_cols)).
    { rewrite <- oor_post. rewrite E. discriminate. }
    destruct ((1 <=? r) && (r <=? N_rows)) eqn:Er; simpl; [| lia].
    apply andb_true_iff in Er. rewrite !Z.leb_le in Er. lia.
  - apply oor_post in E.
    replace ((1 <=? r) && (r <=? N_rows)) with true
      by (symmetry; apply andb_true_iff; rewrite !Z.leb_le; lia).
    simpl. lia.
Qed.

Lemma none_row_spec (r : Z) (b : vm_builder) :
  0 <= r <= N_rows + 1 -> core_inv b -> keys_inv (rows_done r) b ->
  exists b',
    for_each (none_step r) (upto (MIN_COL pre) (MAX_COL pre)) b = Ok b'
    /\ core_inv b' /\ keys_inv (rows_done (r + 1)) b'
    /\ vb_pre b' = vb_pre b + cols pre
    /\ vb_post b' = vb_post b + post_in_row r (N_cols + 2).
Proof.
  intros Hr Hcore Hkeys.
  rewrite max_col_pre. change (MIN_COL pre) with 0.
  destruct (for_each_upto (none_step r)
              (fun i b' => 0 <= i /\ core_inv b' /\ keys_inv (none_done r i) b'
                           /\ vb_pre b' = vb_pre b + i
                           /\ vb_post b' = vb_post b + post_in_row r i)
              (N_cols + 1)) with (lo := 0) (s := b)
    as [b' [E [_ [C [K [P Q]]]]]].
  - intros i s Hi [Hi0 [C [K [P Q]]]].
    destruct (none_step_spec r i s (none_done r i)) as [s' [E' [C' [K' [P' Q']]]]];
      try assumption; try lia.
    { unfold none_done, rows_done. lia. }
    exists s'. split; [exact E' |]. split; [lia |]. split; [exact C' |].
    split.
    + eapply keys_inv_ext; [| exact K']. intros r' c'. simpl.
      unfold none_done, rows_done. lia.
    + rewrite post_in_row_step by lia. lia.
  - lia.
  - split; [lia |]. split; [assumption |]. split.
    + eapply keys_inv_ext; [| exact Hkeys]. intros r' c'.
      unfold none_done, rows_done. lia.
    + unfold post_in_row. destruct ((1 <=? r) && (r <=? N_rows)); simpl; lia.
  - exists b'. split; [exact E |]. split; [exact C |]. split.
    + eapply keys_inv_ext; [| exact K]. intros r' c'.
      unfold none_done, rows_done. lia.
    + unfold cols. simpl Z.b2z. replace (N_cols + 1 + 1) with (N_cols + 2) in Q by lia.
      lia.
Qed.

Lemma mirror_row_spec (r : Z) (b : vm_builder) :
  0 <= r <= N_rows + 1 -> core_inv b -> keys_inv (rows_done r) b ->
  exists b',
    for_each (mirror_step mirror_max_col r) (upto (MIN_COL pre) mirror_max_col) b
    = Ok b'
    /\ core_inv b' /\ keys_inv (rows_done (r + 1)) b'
    /\ vb_pre b' = vb_pre b + cols pre
    /\ vb_post b' = vb_post b + post_in_row r (mirror_max_col + 1)
    /\ (mirror_pairs (vb_map b) -> mirror_pairs (vb_map b')).
Proof.
  intros Hr Hcore Hkeys.
  pose proof mirror_max_col_spec as Hmc.
  change (MIN_COL pre) with 0.
  destruct (for_each_upto (mirror_step mirror_max_col r)
              (fun i b' => 0 <= i /\ core_inv b' /\ keys_inv (mirror_done r i) b'
                           /\ vb_pre b' = vb_pre b + i
                                          + Z.min i (N_cols + 1 - mirror_max_col)
                           /\ vb_post b' = vb_post b + post_in_row r i
                           /\ (mirror_pairs (vb_map b)
                               -> mirror_pairs (vb_map b')))
              mirror_max_col) with (lo := 0) (s := b)
    as [b' [E [_ [C [K [P [Q R]]]]]]].
  - intros i s Hi [Hi0 [C [K [P [Q R]]]]].
    destruct (mirror_step_spec r i s (mirror_done r i))
      as [s' [E' [C' [K' [P' [Q' R']]]]]]; try assumption; try lia.
    { unfold mirror_done, rows_done. lia. }
    { unfold mirror_done, rows_done. lia. }
    exists s'. split; [exact E' |]. split; [lia |]. split; [exact C' |].
    split; [| split; [| split]].
    + eapply keys_inv_ext; [| exact K']. intros r' c'. simpl.
      unfold mirror_done, rows_done. lia.
    + rewrite P', P.
      destruct (mirror_max_col <? N_cols + 1 - i) eqn:Hadd;
        [apply Z.ltb_lt in Hadd | apply Z.ltb_ge in Hadd]; simpl Z.b2z; lia.
    + rewrite post_in_row_step by lia. lia.
    + auto.
  - lia.
  - split; [lia |]. split; [assumption |]. split; [| split; [| split]].
    + eapply keys_inv_ext; [| exact Hkeys]. intros r' c'.
      unfold mirror_done, rows_done. lia.
    + lia.
    + unfold post_in_row. destruct ((1 <=? r) && (r <=? N_rows)); simpl; lia.
    + auto.
  - exists b'. split; [exact E |]. split; [exact C |].
    split; [| split; [| split]].
    + eapply keys_inv_ext; [| exact K]. intros r' c'.
      unfold mirror_done, rows_done. lia.
    + unfold cols. simpl Z.b2z. lia.
    + exact Q.
    + exact R.
Qed.

Lemma fill_map_spec (s : symmetry) :
  exists b,
    fill_map s = Ok b /\ core_inv b
    /\ keys_inv (rows_done (N_rows + 2)) b
    /\ vb_pre b = rows pre * cols pre
    /\ vb_post b = N_rows * post_per_row s
    /\ (s = mirror -> mirror_pairs (vb_map b)).
Proof.
  pose proof mirror_max_col_spec as Hmc.
  set (body := match s with
               | none => fun r => for_each (none_step r)
                                           (upto (MIN_COL pre) (MAX_COL pre))
               | mirror => fun r => for_each (mirror_step mirror_max_col r)
                                             (upto (MIN_COL pre) mirror_max_col)
               end).
  assert (Hfill : fill_map s
                  = for_each body (upto (MIN_ROW pre) (MAX_ROW pre))
                             (Vm_builder 0 0 0 []))
    by (destruct s; reflexivity).
  rewrite Hfill.
  replace (MAX_ROW pre) with (N_rows + 1)
    by (unfold MAX_ROW, rows; simpl; lia).
  change (MIN_ROW pre) with 0.
  destruct (for_each_upto body
              (fun r b => 0 <= r /\ core_inv b /\ keys_inv (rows_done r) b
                          /\ vb_pre b = r * cols pre
                          /\ vb_post b
                             = post_per_row s * Z.min (Z.max (r - 1) 0) N_rows
                          /\ (s = mirror -> mirror_pairs (vb_map b)))
              (N_rows + 1)) with (lo := 0) (s := Vm_builder 0 0 0 [])
    as [b [E [_ [C [K [P [Q R]]]]]]].
  - intros r b Hr [Hr0 [C [K [P [Q R]]]]].
    assert (Hrow : exists b',
               body r b = Ok b' /\ core_inv b' /\ keys_inv (rows_done (r + 1)) b'
               /\ vb_pre b' = vb_pre b + cols pre
               /\ vb_post b' = vb_post b
                               + (if (1 <=? r) && (r <=? N_rows)
                                  then post_per_row s else 0)
               /\ (s = mirror -> mirror_pairs (vb_map b'))).
    { destruct s; simpl body.
      - destruct (none_row_spec r b) as [b' [E' [C' [K' [P' Q']]]]];
          try assumption; try lia.
        exists b'. repeat (split; [assumption |]).
        split; [| discriminate].
        rewrite Q'. unfold post_in_row.
        destruct ((1 <=? r) && (r <=? N_rows)); simpl; lia.
      - destruct (mirror_row_spec r b) as [b' [E' [C' [K' [P' [Q' R']]]]]];
          try assumption; try lia.
        exists b'. repeat (split; [assumption |]).
        split; [| auto].
        rewrite Q'. unfold post_in_row.
        destruct ((1 <=? r) && (r <=? N_rows)); simpl; lia. }
    destruct Hrow as [b' [E' [C' [K' [P' [Q' R']]]]]].
    exists b'. split; [exact E' |]. split; [lia |]. split; [exact C' |].
    split; [exact K' |]. split; [lia |]. split; [| exact R'].
    rewrite Q', Q.
    destruct ((1 <=? r) && (r <=? N_rows)) eqn:Er.
    + apply andb_true_iff in Er. rewrite !Z.leb_le in Er.
      replace (Z.min (Z.max (r - 1) 0) N_rows) with (r - 1) by lia.
      replace (Z.min (Z.max (r + 1 - 1) 0) N_rows) with r by lia. lia.
    + apply andb_false_iff in Er. rewrite !Z.leb_gt in Er.
      replace (Z.min (Z.max (r + 1 - 1) 0) N_rows)
        with (Z.min (Z.max (r - 1) 0) N_rows) by lia.
      lia.
  - lia.
  - split; [lia |]. split; [apply core_inv_init |].
    split; [| split; [| split]].
    + intro k. simpl. unfold rows_done. split; [tauto | lia].
    + simpl. lia.
    + replace (Z.min (Z.max (0 - 1) 0) N_rows) with 0 by lia. simpl. lia.
    + intros _ k v H. contradiction.
  - exists b. split; [exact E |]. split; [exact C |]. split.
    + eapply keys_inv_ext; [| exact K]. intros r c. unfold rows_done. lia.
    + unfold rows. simpl Z.b2z. split; [lia |]. split; [| exact R].
      rewrite Q. replace (Z.min (Z.max (N_rows + 1 + 1 - 1) 0) N_rows)
        with N_rows by lia.
      lia.
Qed.

Lemma fill_loop_spec (L : list (cell * Z)) :
  forall inv0 : list cell,
    (forall k v, In (k, v) L -> 0 <= v < Z.of_nat (List.length inv0)) ->
    exists inv,
      for_each (fun kv inv => vec_set inv (snd kv) (fst kv)) L inv0 = Ok inv
      /\ List.length inv = List.length inv0
      /\ forall i, (i < List.length inv0)%nat ->
                   exists k, nth_error inv i = Some k
                             /\ (In (k, Z.of_nat i) L
                                 \/ (nth_error inv0 i = Some k
                                     /\ forall k', ~ In (k', Z.of_nat i) L)).
Proof.
  induction L as [| [k0 v0] L IH]; intros inv0 Hrg.
  - exists inv0. split; [reflexivity |]. split; [reflexivity |].
    intros i Hi. destruct (nth_error inv0 i) as [k |] eqn:E.
    + exists k. split; [reflexivity |]. right. split; [reflexivity |]. tauto.
    + apply nth_error_None in E. lia.
  - assert (H0 : 0 <= v0 < Z.of_nat (List.length inv0))
      by (apply (Hrg k0); now left).
    simpl for_each. unfold vec_set at 1. simpl snd. simpl fst.
    replace ((v0 <? 0) || (Z.of_nat (List.length inv0) <=? v0)) with false
      by (symmetry; apply orb_false_iff; rewrite Z.ltb_ge, Z.leb_gt; lia).
    simpl rbind.
    destruct (IH (set_nth inv0 (Z.to_nat v0) k0)) as [inv [E [Hlen Hnth]]].
    { intros k v H. rewrite set_nth_length. apply (Hrg k). now right. }
    rewrite set_nth_length in Hlen, Hnth.
    exists inv. split; [exact E |]. split; [exact Hlen |].
    intros i Hi. destruct (Hnth i Hi) as [k [Hk [Hin | [Hold Hno]]]].
    + exists k. split; [exact Hk |]. left. now right.
    + exists k. split; [exact Hk |].
      destruct (Nat.eq_dec (Z.to_nat v0) i) as [Heq | Hne].
      * subst i. rewrite nth_error_set_nth_eq in Hold by lia.
        injection Hold as <-. left. left. f_equal. lia.
      * rewrite nth_error_set_nth_neq in Hold by assumption.
        right. split; [exact Hold |].
        intros k' [H | H]; [| now apply (Hno k')].
        injection H as _ H. lia.
Qed.

Lemma valid_in_pre_grid (k : cell) :
  out_of_range k = false ->
  0 <= row k <= N_rows + 1 /\ 0 <= col k <= N_cols + 1.
Proof.
  destruct k as [r c [|]]; simpl; intro H;
    [apply oor_post in H | apply oor_pre in H]; lia.
Qed.

Lemma var_map_new_spec (s : symmetry) :
  exists vm, var_map_new s = Ok vm /\ vm_ok s vm.
Proof.
  destruct (fill_map_spec s) as [b [Eb [C [K [P [Q R]]]]]].
  destruct C as [Hnd Hrg Hvl Hsj Hinj Hlt Hx Hnn].
  unfold var_map_new. rewrite Eb. simpl rbind. unfold fill_inv.
  destruct (fill_loop_spec (map_iteration (vb_map b))
              (repeat cell_default (Z.to_nat (vb_pre b + vb_post b))))
    as [inv [Ei [Hlen Hnth]]].
  { intros k v H. rewrite repeat_length.
    apply (Permutation_in _ (map_iteration_perm _)) in H.
    apply Hrg in H. lia. }
  rewrite Ei. simpl rbind. rewrite repeat_length in Hlen, Hnth.
  eexists. split; [reflexivity |].
  constructor; unfold varcount; simpl; try assumption.
  - intros k v H. apply Hrg in H. lia.
  - intro k. rewrite (K k). split; [tauto |]. intro H. split; [| exact H].
    apply valid_in_pre_grid in H. unfold rows_done. lia.
  - lia.
  - intros x Hx'. destruct (Hnth (Z.to_nat x)) as [k [Hk Hin]]; [lia |].
    exists k. split.
    + unfold cell_from_var, vec_at. simpl.
      replace (x <? 0) with false by (symmetry; apply Z.ltb_ge; lia).
      now rewrite Hk.
    + rewrite Z2Nat.id in Hin by lia.
      destruct Hin as [Hin | [_ Hno]].
      * apply (Permutation_in _ (map_iteration_perm _)) in Hin. exact Hin.
      * exfalso. destruct (Hsj x) as [k' Hk']; [lia |].
        apply (Hno k').
        apply (Permutation_in _ (Permutation_sym (map_iteration_perm _))).
        exact Hk'.
Qed.

Lemma neighbourhood_ok (c : cell) :
  out_of_range (cell_reprime c post) = false ->
  exists nb, neighbourhood c = Ok nb /\ List.length nb = 9%nat.
Proof.
  intro H. apply oor_post in H. unfold neighbourhood.
  repeat (rewrite cell_new_ok by (apply oor_pre; lia); simpl rbind).
  eexists. split; reflexivity.
Qed.

End ValidGrid.

(* ------------------------------------------------------------------------- *)
(** ** Grids whose coordinates do not fit a [char] *)

Lemma cell_new_row_128 (c : Z) (p : bool) :
  exists e, cell_new 128 c p = Throw e.
Proof.
  unfold cell_new, out_of_range. simpl row. simpl prime.
  replace (to_char 128 <? MIN_ROW p) with true; [simpl; eauto |].
  symmetry. apply Z.ltb_lt. unfold MIN_ROW. destruct p; simpl; reflexivity.
Qed.

Lemma cell_new_col_128 (r : Z) (p : bool) :
  exists e, cell_new r 128 p = Throw e.
Proof.
  unfold cell_new, out_of_range. simpl col. simpl prime.
  replace (to_char 128 <? MIN_COL p) with true;
    [rewrite orb_true_r; simpl; eauto |].
  symmetry. apply Z.ltb_lt. unfold MIN_COL. destruct p; simpl; reflexivity.
Qed.

Lemma fill_map_throws (s : symmetry) :
  0 <= N_rows -> 0 <= N_cols -> 126 < N_rows \/ 126 < N_cols ->
  exists e, fill_map s = Throw e.
Proof.
  intros Hr Hc Hbig.
  pose proof (mirror_max_col_halves Hc) as Hmc.
  assert (Hrow128 : forall b,
             exists e, match s with
                       | none => for_each (none_step 128)
                                          (upto (MIN_COL pre) (MAX_COL pre)) b
                       | mirror => for_each (mirror_step mirror_max_col 128)
                                            (upto (MIN_COL pre) mirror_max_col) b
                       end = Throw e).
  { intro b. destruct s.
    - apply (for_each_throws _ 0).
      + apply in_upto. rewrite max_col_pre. change (MIN_COL pre) with 0. lia.
      + intro b'. unfold none_step.
        destruct (cell_new_row_128 0 pre) as [e ->]. now exists e.
    - apply (for_each_throws _ 0).
      + apply in_upto. change (MIN_COL pre) with 0. lia.
      + intro b'. unfold mirror_step.
        destruct (cell_new_row_128 0 pre) as [e ->]. now exists e. }
  assert (Hcol128 : 126 < N_cols -> forall b,
             exists e, match s with
                       | none => for_each (none_step 0)
                                          (upto (MIN_COL pre) (MAX_COL pre)) b
                       | mirror => for_each (mirror_step mirror_max_col 0)
                                            (upto (MIN_COL pre) mirror_max_col) b
                       end = Throw e).
  { intros Hbigc b. destruct s.
    - apply (for_each_throws _ 128).
      + apply in_upto. rewrite max_col_pre. change (MIN_COL pre) with 0. lia.
      + intro b'. unfold none_step.
        destruct (cell_new_col_128 0 pre) as [e ->]. now exists e.
    - destruct (Z_le_gt_dec 128 mirror_max_col) as [Hle | Hgt].
      + apply (for_each_throws _ 128).
        * apply in_upto. change (MIN_COL pre) with 0. lia.
        * intro b'. unfold mirror_step.
          destruct (cell_new_col_128 0 pre) as [e ->]. now exists e.
      + apply (for_each_throws _ (N_cols + 1 - 128)).
        * apply in_upto. change (MIN_COL pre) with 0. lia.
        * intro b'. unfold mirror_step. rewrite max_col_pre.
          replace (N_cols + 1 - (N_cols + 1 - 128)) with 128 by lia.
          replace (mirror_max_col <? 128) with true
            by (symmetry; apply Z.ltb_lt; lia).
          destruct (cell_new 0 (N_cols + 1 - 128) pre) as [k | e];
            [| now exists e].
          simpl rbind. destruct (cell_new_col_128 0 pre) as [e ->].
          now exists e. }
  assert (Hfill : fill_map s
                  = for_each
                      (match s with
                       | none => fun r => for_each (none_step r)
                                            (upto (MIN_COL pre) (MAX_COL pre))
                       | mirror => fun r => for_each (mirror_step mirror_max_col r)
                                              (upto (MIN_COL pre) mirror_max_col)
                       end)
                      (upto (MIN_ROW pre) (MAX_ROW pre)) (Vm_builder 0 0 0 []))
    by (destruct s; reflexivity).
  rewrite Hfill.
  assert (Hmax : MAX_ROW pre = N_rows + 1)
    by (unfold MAX_ROW, rows; simpl; lia).
  destruct (Z_le_gt_dec N_rows 126) as [Hsmall | Hbigr].
  - apply (for_each_throws _ 0).
    + apply in_upto. rewrite Hmax. change (MIN_ROW pre) with 0. lia.
    + intro b. destruct s; apply Hcol128; lia.
  - apply (for_each_throws _ 128).
    + apply in_upto. rewrite Hmax. change (MIN_ROW pre) with 0. lia.
    + intro b. destruct s; apply Hrow128.
Qed.

(** A constructed map belongs to a grid that fits, and has every property
    of [vm_ok]. *)
Lemma var_map_new_ok (s : symmetry) (vm : var_map) :
  0 <= N_rows -> 0 <= N_cols -> var_map_new s = Ok vm ->
  vm_ok s vm /\ N_rows <= 126 /\ N_cols <= 126.
Proof.
  intros Hr Hc Hnew.
  destruct (Z_le_gt_dec N_rows 126) as [Hr' | Hr'];
    [destruct (Z_le_gt_dec N_cols 126) as [Hc' | Hc'] |].
  - destruct (var_map_new_spec (conj Hr Hr') (conj Hc Hc') s) as [vm' [E Hok]].
    rewrite Hnew in E. injection E as <-. auto.
  - destruct (fill_map_throws s Hr Hc) as [e He]; [lia |].
    unfold var_map_new in Hnew. rewrite He in Hnew. discriminate.
  - destruct (fill_map_throws s Hr Hc) as [e He]; [lia |].
    unfold var_map_new in Hnew. rewrite He in Hnew. discriminate.
Qed.

Lemma var_from_cell_ok (s : symmetry) (vm : var_map) (c : cell) :
  vm_ok s vm -> out_of_range c = false ->
  exists x, var_from_cell vm c = Ok x /\ In (c, x) (_map vm)
            /\ 0 <= x < varcount vm.
Proof.
  intros Hok Hc. unfold var_from_cell. rewrite Hc.
  assert (Hin : In c (map fst (_map vm))) by now apply (ok_keys s vm Hok).
  apply in_keys in Hin. destruct Hin as [x Hx].
  rewrite (map_find_Some _ _ _ (ok_nodup s vm Hok) Hx).
  exists x. split; [reflexivity |]. split; [exact Hx |].
  now apply (ok_range s vm Hok c).
Qed.

Lemma var_from_cell_In (vm : var_map) (c : cell) (x : Z) :
  var_from_cell vm c = Ok x -> In (c, x) (_map vm) /\ out_of_range c = false.
Proof.
  unfold var_from_cell. destruct (out_of_range c); [discriminate |].
  destruct (map_find (_map vm) c) as [v |] eqn:E; [| discriminate].
  intros [= ->]. split; [now apply map_find_In | reflexivity].
Qed.

(** C5. For a grid of any non-negative size and either symmetry, a
    constructed [var_map] counts exactly [rows(pre) * cols(pre)] pre
    variables, every pre cell of the grid has a variable, and two pre cells
    never share one; the construction succeeds whenever the coordinates of
    the pre grid fit a [char]. *)
Theorem var_map_pre_count (s : symmetry) :
  0 <= N_rows -> 0 <= N_cols ->
  (N_rows <= 126 -> N_cols <= 126 -> exists vm, var_map_new s = Ok vm)
  /\ forall vm,
      var_map_new s = Ok vm ->
      varcount_of vm pre = rows pre * cols pre
      /\ (forall c, prime c = pre -> out_of_range c = false ->
                    exists x, var_from_cell vm c = Ok x /\ 0 <= x < varcount vm)
      /\ (forall c1 c2 x,
             prime c1 = pre -> prime c2 = pre ->
             var_from_cell vm c1 = Ok x -> var_from_cell vm c2 = Ok x ->
             c1 = c2).
Proof.
  intros Hr Hc. split.
  - intros Hr' Hc'.
    destruct (var_map_new_spec (conj Hr Hr') (conj Hc Hc') s) as [vm [E _]].
    now exists vm.
  - intros vm Hnew.
    destruct (var_map_new_ok s vm Hr Hc Hnew) as [Hok _].
    split; [exact (ok_pre s vm Hok) |]. split.
    + intros c _ Hv.
      destruct (var_from_cell_ok s vm c Hok Hv) as [x [E [_ R]]]. now exists x.
    + intros c1 c2 x P1 _ E1 E2.
      apply var_from_cell_In in E1, E2.
      exact (ok_pre_inj s vm Hok c1 c2 x (proj1 E1) (proj1 E2) P1).
Qed.

(** C7. On the same grid the map built with [mirror] has at most as many
    post variables as the map built with [none], and in the map built with
    [mirror] a post cell and its mirror image in the same row have one and
    the same index. *)
Theorem var_map_mirror_post_le (vm_none vm_mirror : var_map) :
  0 <= N_rows -> 0 <= N_cols ->
  var_map_new none = Ok vm_none -> var_map_new mirror = Ok vm_mirror ->
  varcount_of vm_mirror post <= varcount_of vm_none post
  /\ forall c, prime c = post -> out_of_range c = false ->
                var_from_cell vm_mirror (Cell (row c) (MAX_COL pre - col c) post)
                = var_from_cell vm_mirror c.
Proof.
  intros Hr Hc Hn Hm.
  destruct (var_map_new_ok none vm_none Hr Hc Hn) as [Hokn _].
  destruct (var_map_new_ok mirror vm_mirror Hr Hc Hm) as [Hokm _].
  split.
  - simpl. rewrite (ok_post _ _ Hokn), (ok_post _ _ Hokm). simpl.
    pose proof (mirror_max_col_halves Hc) as Hmc.
    apply Z.mul_le_mono_nonneg_l; lia.
  - intros c Hp Hv.
    destruct (var_from_cell_ok mirror vm_mirror c Hokm Hv) as [x [E [Hin _]]].
    rewrite E.
    pose proof (ok_pairs _ _ Hokm eq_refl c x Hin Hp) as Hin'.
    assert (Hv' : out_of_range (Cell (row c) (MAX_COL pre - col c) post)
                  = false).
    { apply (ok_keys _ _ Hokm). apply in_keys. now exists x. }
    unfold var_from_cell. rewrite Hv'.
    now rewrite (map_find_Some _ _ _ (ok_nodup _ _ Hokm) Hin').
Qed.

(** C9. For either symmetry and every index [x] below [varcount()], the cell
    stored for [x] in the inverse map is looked up to [x] again, also for a
    post index that two mirrored cells share. *)
Theorem var_map_inverse_round_trip (s : symmetry) (vm : var_map) (x : Z) :
  0 <= N_rows -> 0 <= N_cols ->
  var_map_new s = Ok vm ->
  0 <= x < varcount vm ->
  exists c, cell_from_var vm x = Ok c /\ var_from_cell vm c = Ok x.
Proof.
  intros Hr Hc Hnew Hx.
  destruct (var_map_new_ok s vm Hr Hc Hnew) as [Hok _].
  destruct (ok_inv s vm Hok x Hx) as [c [Ec Hin]].
  exists c. split; [exact Ec |].
  assert (Hv : out_of_range c = false).
  { apply (ok_keys s vm Hok). apply in_keys. now exists x. }
  destruct (var_from_cell_ok s vm c Hok Hv) as [y [Ey [Hy _]]].
  rewrite Ey. f_equal.
  assert (Hf := map_find_Some _ _ _ (ok_nodup s vm Hok) Hin).
  assert (Hg := map_find_Some _ _ _ (ok_nodup s vm Hok) Hy).
  congruence.
Qed.

(* ------------------------------------------------------------------------- *)
(** ** Variables tested by a diagram *)

Lemma support_weaken (S S' : Z -> Prop) (f : dd) :
  (forall x, S x -> S' x) -> support S f -> support S' f.
Proof using Type.
  clear map_iteration_perm map_iteration hash_char N_rows N_cols.
  intro H. induction f as [b | x lo IHlo hi IHhi]; simpl; [tauto |].
  intros [Hx [Hlo Hhi]]. auto.
Qed.

Lemma support_mk_node (S : Z -> Prop) (x : Z) (lo hi : dd) :
  S x -> support S lo -> support S hi -> support S (mk_node x lo hi).
Proof.
  intros. unfold mk_node. destruct (dd_eqb lo hi); simpl; auto.
Qed.

Lemma support_apply (S : Z -> Prop) (op : bool -> bool -> bool) (f : dd) :
  forall g, support S f -> support S g -> support S (apply op f g).
Proof.
  induction f as [a | x flo IHlo fhi IHhi];
    induction g as [b | y glo IHglo ghi IHghi]; intros Hf Hg.
  - exact I.
  - simpl in Hg. destruct Hg as [Hy [Hglo Hghi]].
    simpl. apply support_mk_node; auto.
  - simpl in Hf. destruct Hf as [Hx [Hflo Hfhi]].
    simpl. apply support_mk_node; auto.
  - pose proof Hf as Hf'. pose proof Hg as Hg'.
    simpl in Hf'. destruct Hf' as [Hx [Hflo Hfhi]].
    simpl in Hg'. destruct Hg' as [Hy [Hglo Hghi]].
    simpl. destruct (x <? y); [| destruct (y <? x)];
      apply support_mk_node; auto.
Qed.

Lemma support_negate (S : Z -> Prop) (f : dd) :
  support S f -> support S (negate f).
Proof.
  induction f as [b | x lo IHlo hi IHhi]; simpl; tauto.
Qed.

Lemma support_bdd_exist (S : Z -> Prop) (cube : Z -> bool) (f : dd) :
  support S f -> support (fun x => S x /\ cube x = false) (bdd_exist f cube).
Proof.
  induction f as [b | x lo IHlo hi IHhi]; simpl; [tauto |].
  intros [Hx [Hlo Hhi]]. destruct (cube x) eqn:E.
  - apply support_apply; auto.
  - apply support_mk_node; auto.
Qed.

(** A diagram has the same value under two assignments that agree on the
    variables it tests. *)
Lemma eval_support (S : Z -> Prop) (A B : Z -> bool) (f : dd) :
  support S f -> (forall x, S x -> A x = B x) -> eval A f = eval B f.
Proof.
  intros Hf HAB. induction f as [b | x lo IHlo hi IHhi]; simpl; [reflexivity |].
  simpl in Hf. destruct Hf as [Hx [Hlo Hhi]].
  rewrite (HAB x Hx), IHlo, IHhi by assumption. reflexivity.
Qed.

Lemma dd_eqb_refl (f : dd) : dd_eqb f f = true.
Proof.
  induction f as [b | x lo IHlo hi IHhi]; simpl.
  - now destruct b.
  - now rewrite Z.eqb_refl, IHlo, IHhi.
Qed.

Lemma eval_mk_node (A : Z -> bool) (x : Z) (lo hi : dd) :
  eval A (mk_node x lo hi) = if A x then eval A hi else eval A lo.
Proof.
  unfold mk_node. destruct (dd_eqb lo hi) eqn:E; [| reflexivity].
  assert (H : forall f g, dd_eqb f g = true -> eval A f = eval A g).
  { clear. induction f as [a | x flo IHlo fhi IHhi]; intros [b | y glo ghi];
      simpl; try discriminate.
    - intro H. now apply Bool.eqb_prop in H.
    - rewrite !andb_true_iff, Z.eqb_eq. intros [[-> Hlo] Hhi].
      now rewrite (IHlo _ Hlo), (IHhi _ Hhi). }
  rewrite (H _ _ E). now destruct (A x).
Qed.

(** The modelled engine computes the connectives pointwise. *)
Lemma eval_apply (A : Z -> bool) (op : bool -> bool -> bool) (f : dd) :
  forall g, eval A (apply op f g) = op (eval A f) (eval A g).
Proof.
  induction f as [a | x flo IHlo fhi IHhi];
    induction g as [b | y glo IHglo ghi IHghi].
  - reflexivity.
  - simpl. rewrite eval_mk_node. simpl in IHglo, IHghi.
    rewrite IHglo, IHghi. now destruct (A y).
  - simpl. rewrite eval_mk_node, IHlo, IHhi. now destruct (A x).
  - simpl. destruct (x <? y) eqn:Hxy; [| destruct (y <? x) eqn:Hyx].
    + rewrite eval_mk_node, IHlo, IHhi. simpl. now destruct (A x).
    + rewrite eval_mk_node. simpl in IHglo, IHghi.
      rewrite IHglo, IHghi. now destruct (A y).
    + apply Z.ltb_ge in Hxy, Hyx. assert (x = y) by lia. subst y.
      rewrite eval_mk_node, IHlo, IHhi. now destruct (A x).
Qed.

Lemma eval_negate (A : Z -> bool) (f : dd) :
  eval A (negate f) = negb (eval A f).
Proof.
  induction f as [b | x lo IHlo hi IHhi]; simpl; [reflexivity |].
  now destruct (A x).
Qed.

(* ------------------------------------------------------------------------- *)
(** ** Reasoning about adapter code *)

Lemma returns_ret {A : Type} (n : Z) (r : A) (Q : A -> Prop) :
  Q r -> returns n (ret r) Q.
Proof. intros H a Ha. exists r, a. auto. Qed.

Lemma returns_bind {A B : Type} (n : Z) (m : M adapter A) (k : A -> M adapter B)
      (P : A -> Prop) (Q : B -> Prop) :
  returns n m P -> (forall r, P r -> returns n (k r) Q) ->
  returns n (bind m k) Q.
Proof.
  intros Hm Hk a Ha. destruct (Hm a Ha) as [r [a' [E [Ha' Hr]]]].
  unfold bind. rewrite E. now apply Hk.
Qed.

Lemma returns_lift {A : Type} (n : Z) (r : res A) (v : A) (Q : A -> Prop) :
  r = Ok v -> Q v -> returns n (lift r) Q.
Proof. intros -> H a Ha. exists v, a. auto. Qed.

Lemma returns_weaken {A : Type} (n : Z) (m : M adapter A) (P Q : A -> Prop) :
  returns n m P -> (forall r, P r -> Q r) -> returns n m Q.
Proof.
  intros Hm HPQ a Ha. destruct (Hm a Ha) as [r [a' [E [Ha' Hr]]]].
  exists r, a'. auto.
Qed.

(** Invariant rule for a loop over a list; the invariant sees the elements
    already processed. *)
Lemma returns_for_eachM {A T : Type} (n : Z) (body : A -> T -> M adapter T)
      (I : list A -> T -> Prop) (xs : list A) :
  (forall done x t, In x xs -> I done t ->
                    returns n (body x t) (I (done ++ [x]))) ->
  forall done t, I done t ->
                 returns n (for_eachM body xs t) (I (done ++ xs)).
Proof.
  induction xs as [| x xs IH]; intros Hbody done t Ht.
  - rewrite app_nil_r. now apply returns_ret.
  - simpl. eapply returns_bind.
    + apply Hbody; [now left | exact Ht].
    + intros t' Ht'. replace (done ++ x :: xs) with ((done ++ [x]) ++ xs)
        by (rewrite <- app_assoc; reflexivity).
      apply IH; [| exact Ht'].
      intros d y u Hy. apply Hbody. now right.
Qed.

Lemma returns_build_node_leaf (n : Z) (value : bool) :
  returns n (build_node_leaf value) (support (in_range n)).
Proof.
  intros a [Hn Hs]. unfold build_node_leaf.
  eexists. eexists. split; [reflexivity |]. split.
  - destruct (dd_eqb (_latest_build a) bot); [| now split].
    split; [exact Hn |]. now destruct value.
  - now destruct value.
Qed.

Lemma returns_build_node (n x : Z) (lo hi : dd) :
  in_range n x -> support (in_range n) lo -> support (in_range n) hi ->
  returns n (build_node x lo hi) (support (in_range n)).
Proof.
  intros Hx Hlo Hhi a [Hn Hs]. unfold build_node.
  eexists. eexists. split; [reflexivity |].
  assert (support (in_range n) (mk_node x lo hi))
    by now apply support_mk_node.
  repeat split; assumption.
Qed.

Lemma returns_build (n : Z) : returns n build (support (in_range n)).
Proof.
  intros a [Hn Hs]. unfold build.
  eexists. eexists. split; [reflexivity |]. repeat split; assumption.
Qed.

Lemma vec_at_ok {A : Type} (v : list A) (i : Z) :
  0 <= i < Z.of_nat (List.length v) -> exists a, vec_at v i = Ok a /\ In a v.
Proof.
  intro H. unfold vec_at.
  replace (i <? 0) with false by (symmetry; apply Z.ltb_ge; lia).
  destruct (nth_error v (Z.to_nat i)) as [a |] eqn:E.
  - exists a. split; [reflexivity |]. now apply nth_error_In in E.
  - apply nth_error_None in E. lia.
Qed.

Lemma vec_set_ok {A : Type} (v : list A) (i : Z) (a : A) :
  0 <= i < Z.of_nat (List.length v) ->
  vec_set v i a = Ok (set_nth v (Z.to_nat i) a).
Proof.
  intro H. unfold vec_set.
  now replace ((i <? 0) || (Z.of_nat (List.length v) <=? i)) with false
    by (symmetry; apply orb_false_iff; rewrite Z.ltb_ge, Z.leb_gt; lia).
Qed.

Lemma Forall_set_nth {A : Type} (P : A -> Prop) (v : list A) (n : nat) (a : A) :
  P a -> Forall P v -> Forall P (set_nth v n a).
Proof.
  intros Ha Hv. revert n. induction Hv as [| b v Hb Hv IH]; intros [| n]; simpl;
    constructor; auto.
Qed.

(* ------------------------------------------------------------------------- *)
(** ** The builders on a constructed map *)

Section Assembly.

Hypothesis rows_fit : 0 <= N_rows <= 126.
Hypothesis cols_fit : 0 <= N_cols <= 126.

Variable s : symmetry.
Variable vm : var_map.
Hypothesis vm_good : vm_ok s vm.

Let n : Z := varcount vm.

Lemma returns_count_incr (alive x lo hi : Z) (parts : list dd) :
  in_range n x -> 0 <= lo -> hi <= alive -> parts_ok vm alive parts ->
  returns n (count_incr x parts lo hi) (parts_ok vm alive).
Proof.
  intros Hx Hlo Hhi Hparts. unfold count_incr.
  apply (returns_for_eachM n _ (fun _ => parts_ok vm alive) (upto lo hi))
    with (done := []); [| exact Hparts].
  intros _ i t Hi [Hlen Hall]. apply in_upto in Hi.
  destruct (vec_at_ok t i) as [low [El Hl]]; [lia |].
  destruct (vec_at_ok t (i + 1)) as [high [Eh Hh]]; [lia |].
  rewrite Forall_forall in Hall.
  eapply returns_bind; [now apply (returns_lift n _ low (eq low)) |].
  intros ? <-.
  eapply returns_bind; [now apply (returns_lift n _ high (eq high)) |].
  intros ? <-.
  eapply returns_bind; [apply returns_build_node; auto |].
  intros node Hnode.
  eapply returns_lift; [apply vec_set_ok; lia |].
  split; [now rewrite set_nth_length |].
  apply Forall_set_nth; [assumption | now apply Forall_forall].
Qed.

Lemma returns_count_skip (alive x lo hi : Z) (parts : list dd) :
  in_range n x -> 0 <= lo -> hi <= alive -> parts_ok vm alive parts ->
  returns n (count_skip x parts lo hi) (parts_ok vm alive).
Proof.
  intros Hx Hlo Hhi Hparts. unfold count_skip.
  apply (returns_for_eachM n _ (fun _ => parts_ok vm alive) (upto lo hi))
    with (done := []); [| exact Hparts].
  intros _ i t Hi [Hlen Hall]. apply in_upto in Hi.
  destruct (vec_at_ok t i) as [child [Ec Hc]]; [lia |].
  rewrite Forall_forall in Hall.
  eapply returns_bind; [now apply (returns_lift n _ child (eq child)) |].
  intros ? <-.
  eapply returns_bind; [apply returns_build_node; auto |].
  intros node Hnode.
  eapply returns_lift; [apply vec_set_ok; lia |].
  split; [now rewrite set_nth_length |].
  apply Forall_set_nth; [assumption | now apply Forall_forall].
Qed.

Lemma returns_count_step (c : cell) (alive x : Z) (st : count_state) :
  in_range n x -> count_state_ok vm alive st ->
  returns n (count_step vm c x st) (count_state_ok vm alive).
Proof.
  intros Hx [Hparts [Hmin Hmax]]. unfold count_step.
  destruct (ok_inv s vm vm_good x Hx) as [k [Ek _]].
  eapply returns_bind; [now apply (returns_lift n _ k (eq k)) |].
  intros ? <-.
  destruct (Bool.eqb (prime k) pre && in_neighbourhood c k).
  - eapply returns_bind.
    + apply (returns_count_incr alive); try assumption; [lia |].
      destruct ((0 <? remaining_cells st - 1)
                && (remaining_cells st - 1 =? alive_max st)); lia.
    + intros parts Hp. apply returns_ret.
      split; [exact Hp |]. simpl. split; [lia |].
      destruct ((0 <? remaining_cells st - 1)
                && (remaining_cells st - 1 =? alive_max st)); lia.
  - eapply returns_bind.
    + apply (returns_count_skip alive); assumption.
    + intros parts Hp. apply returns_ret. split; [exact Hp |]. simpl. lia.
Qed.

(** [construct_count] returns on every cell over post coordinates, and the
    diagram only tests variables of the map. *)
Lemma returns_construct_count (c : cell) (alive : Z) :
  out_of_range (cell_reprime c post) = false -> 0 <= alive <= INT_MAX - 2 ->
  returns n (construct_count vm c alive) (support (in_range n)).
Proof.
  intros Hc Halive. unfold construct_count.
  eapply returns_bind; [apply returns_build_node_leaf |]. intros f Hf.
  eapply returns_bind.
  { apply (returns_lift n _ (repeat f (Z.to_nat (alive + 2)))
                         (eq (repeat f (Z.to_nat (alive + 2)))));
      [| reflexivity].
    replace (INT_MAX <? alive + 2) with false
      by (symmetry; apply Z.ltb_ge; lia).
    now replace (alive + 2 <? 0) with false by (symmetry; apply Z.ltb_ge; lia). }
  intros ? <-.
  eapply returns_bind; [apply returns_build_node_leaf |]. intros t Ht.
  eapply returns_bind.
  { eapply (returns_lift n _ _ (parts_ok vm alive)).
    - apply vec_set_ok. rewrite repeat_length. lia.
    - split; [rewrite set_nth_length, repeat_length; lia |].
      apply Forall_set_nth; [assumption |].
      apply Forall_forall. intros g Hg. apply repeat_spec in Hg. now subst. }
  intros parts Hparts.
  destruct (neighbourhood_ok rows_fit cols_fit c Hc) as [nb [Enb Hlen]].
  eapply returns_bind; [now apply (returns_lift n _ nb (eq nb)) |].
  intros ? <-. rewrite Hlen.
  destruct (Z.of_nat 9 <? alive); [now apply returns_ret |].
  eapply returns_bind; [| intros st _; apply returns_build].
  apply (returns_for_eachM n _ (fun _ => count_state_ok vm alive)
                           (downto (varcount vm - 1) 0)) with (done := []).
  - intros _ x st Hx Hst. apply in_downto in Hx.
    apply returns_count_step; [unfold in_range, n; lia | exact Hst].
  - split; [exact Hparts |]. simpl. lia.
Qed.

Lemma dont_care_chain (xs : list Z) (r : dd) (a : adapter) :
  for_eachM (fun x r0 => build_node x r0 r0) xs r a
  = Ok (r, match xs with
           | [] => a
           | _ :: _ => Adapter (a_varcount a) r
           end).
Proof.
  revert a. induction xs as [| x xs IH]; intro a; [reflexivity |].
  simpl. unfold bind, build_node at 1, mk_node. rewrite dd_eqb_refl.
  rewrite IH. simpl. now destruct xs.
Qed.

Lemma dont_care_chains (xs : list Z) (r0 r1 : dd) (a : adapter) :
  for_eachM (fun x (r : dd * dd) =>
               do r1' <- build_node x (snd r) (snd r);
               do r0' <- build_node x (fst r) (fst r);
               ret (r0', r1'))%monad xs (r0, r1) a
  = Ok ((r0, r1), match xs with
                  | [] => a
                  | _ :: _ => Adapter (a_varcount a) r0
                  end).
Proof.
  revert a. induction xs as [| x xs IH]; intro a; [reflexivity |].
  simpl. unfold bind at 1 2 3, build_node, mk_node, ret. simpl.
  rewrite !dd_eqb_refl. rewrite IH. simpl. now destruct xs.
Qed.

Lemma construct_eq_value (c : cell) :
  out_of_range (cell_reprime c post) = false ->
  exists x_pre x_post,
    var_from_cell vm (cell_reprime c pre) = Ok x_pre
    /\ var_from_cell vm (cell_reprime c post) = Ok x_post
    /\ 0 <= x_pre < x_post /\ x_post < n
    /\ forall a,
        construct_eq vm c a
        = Ok (Node x_pre (Node x_post top bot) (Node x_post bot top),
              Adapter (a_varcount a) bot).
Proof.
  intro Hc.
  destruct (var_from_cell_ok s vm _ vm_good Hc) as [x_post [Epost [Hin Hrg]]].
  destruct (ok_lt s vm vm_good _ _ Hin eq_refl) as [x_pre [Hin' Hlt]].
  change (cell_reprime (cell_reprime c post) pre) with (cell_reprime c pre)
    in Hin'.
  assert (Hv : out_of_range (cell_reprime c pre) = false).
  { apply (ok_keys s vm vm_good). apply in_keys. now exists x_pre. }
  assert (Epre : var_from_cell vm (cell_reprime c pre) = Ok x_pre).
  { unfold var_from_cell. rewrite Hv.
    now rewrite (map_find_Some _ _ _ (ok_nodup s vm vm_good) Hin'). }
  pose proof (ok_range s vm vm_good _ _ Hin') as Hrg'.
  exists x_pre, x_post. repeat (split; [assumption || lia |]).
  intro a. unfold construct_eq.
  unfold bind at 1. unfold lift at 1. rewrite Epre.
  unfold bind at 1. unfold lift at 1. rewrite Epost.
  unfold bind at 1. unfold build_node_leaf at 1.
  unfold bind at 1. rewrite dont_care_chain.
  fold n. replace (Z.min (n - 1) x_post) with x_post by lia.
  unfold bind at 1. unfold build_node_leaf at 1.
  unfold bind at 1. unfold build_node at 1.
  unfold bind at 1. unfold build_node_leaf at 1.
  unfold bind at 1. unfold build_node at 1.
  unfold bind at 1. rewrite dont_care_chains.
  replace (Z.min (x_post - 1) x_pre) with x_pre by lia.
  unfold bind at 1. unfold build_node at 1.
  unfold bind at 1. rewrite dont_care_chain.
  unfold build. simpl.
  repeat match goal with
         | |- context [match ?l with [] => _ | _ :: _ => _ end] => destruct l
         | |- context [if ?b then _ else _] => destruct b
         end;
    unfold mk_node; simpl; rewrite ?Z.eqb_refl; reflexivity.
Qed.

Lemma returns_construct_eq (c : cell) :
  out_of_range (cell_reprime c post) = false ->
  returns n (construct_eq vm c) (support (in_range n)).
Proof.
  intros Hc a [Hn Hs].
  destruct (construct_eq_value c Hc)
    as [x_pre [x_post [_ [_ [Hlt [Hrg Hval]]]]]].
  eexists. eexists. split; [apply Hval |]. split.
  - split; [exact Hn | exact I].
  - unfold in_range. simpl. repeat split; lia.
Qed.

Lemma returns_construct_rel (c : cell) :
  out_of_range (cell_reprime c post) = false ->
  returns n (construct_rel vm c) (support (in_range n)).
Proof.
  intro Hc. unfold construct_rel.
  destruct (var_from_cell_ok s vm _ vm_good Hc) as [x_post [Epost [_ Hrg]]].
  eapply returns_bind;
    [apply returns_construct_count; [exact Hc | unfold INT_MAX; lia] |].
  intros alive_3 H3.
  eapply returns_bind;
    [apply returns_construct_count; [exact Hc | unfold INT_MAX; lia] |].
  intros alive_4 H4.
  eapply returns_bind; [now apply (returns_lift n _ x_post (eq x_post)) |].
  intros ? <-.
  eapply returns_bind; [now apply returns_construct_eq |].
  intros eq_rel Heq.
  eapply returns_bind; [now apply (returns_lift n _ x_post (eq x_post)) |].
  intros ? <-.
  apply returns_ret.
  assert (Hith : support (in_range n) (ithvar x_post))
    by (simpl; repeat split; apply Hrg).
  assert (Hnith : support (in_range n) (nithvar x_post))
    by (simpl; repeat split; apply Hrg).
  unfold apply_and, apply_imp, apply_or.
  repeat (apply support_apply || apply support_negate); assumption.
Qed.

Lemma returns_acc_rel_row (r : Z) :
  1 <= r <= N_rows ->
  returns n (acc_rel_row vm r) (support (in_range n)).
Proof.
  intro Hr. unfold acc_rel_row.
  apply (returns_for_eachM n _ (fun _ => support (in_range n))
                           (downto (MAX_COL post) (MIN_COL post)))
    with (done := []); [| exact I].
  intros _ c res Hc Hres. apply in_downto in Hc.
  assert (Hc' : 1 <= c <= N_cols).
  { unfold MAX_COL, MIN_COL, cols in Hc. simpl in Hc. lia. }
  assert (Hk : cell_new r c pre = Ok (Cell r c pre))
    by (apply (cell_new_ok rows_fit cols_fit); apply oor_pre; lia).
  eapply returns_bind;
    [now apply (returns_lift n _ (Cell r c pre) (eq (Cell r c pre))) |].
  intros ? <-.
  eapply returns_bind.
  { apply returns_construct_rel. apply oor_post. simpl. lia. }
  intros rel Hrel. apply returns_ret. now apply support_apply.
Qed.

Lemma cube_loop (pred : Z -> res bool) (xs : list Z) :
  (forall i, In i xs -> exists b, pred i = Ok b) ->
  forall cube0,
  exists cube,
    for_each (fun i cube => rbind (pred i)
                (fun b => Ok (if b then i :: cube else cube)))
             xs cube0 = Ok cube
    /\ forall x, In x xs -> pred x = Ok true -> In x cube.
Proof.
  induction xs as [| i xs IH]; intros Hpred cube0.
  - exists cube0. split; [reflexivity |]. contradiction.
  - destruct (Hpred i (or_introl eq_refl)) as [b Eb].
    simpl. rewrite Eb. simpl.
    destruct (IH (fun j Hj => Hpred j (or_intror Hj))
                 (if b then i :: cube0 else cube0)) as [cube [E Hin]].
    assert (Hmono : forall ys c0 c1,
               for_each (fun i cube => rbind (pred i)
                           (fun b => Ok (if b then i :: cube else cube)))
                        ys c0 = Ok c1 ->
               forall x, In x c0 -> In x c1).
    { clear. induction ys as [| y ys IHy]; simpl; intros c0 c1 H x Hx.
      - injection H as <-. exact Hx.
      - destruct (pred y) as [b |]; simpl in H; [| discriminate].
        apply (IHy _ _ H). destruct b; [now right | exact Hx]. }
    exists cube. split; [exact E |].
    intros x [<- | Hx] Hp; [| now apply Hin].
    apply (Hmono _ _ _ E). rewrite Hp in Eb. injection Eb as <-. now left.
Qed.

(** Quantification keeps the variables of the map and removes every variable
    selected by the predicate. *)
Lemma returns_adapter_exists (f : dd) (pred : Z -> res bool) :
  (forall i, in_range n i -> exists b, pred i = Ok b) ->
  support (in_range n) f ->
  returns n (adapter_exists f pred)
          (support (fun x => in_range n x /\ pred x = Ok false)).
Proof.
  intros Hpred Hf a [Hn Hs]. unfold adapter_exists. rewrite Hn.
  destruct (cube_loop pred (downto (n - 1) 0)) with (cube0 := @nil Z)
    as [cube [E Hin]].
  { intros i Hi. apply in_downto in Hi. apply Hpred. unfold in_range. lia. }
  rewrite E. simpl rbind.
  eexists. eexists. split; [reflexivity |]. split; [now split |].
  eapply support_weaken; [| apply support_bdd_exist; exact Hf].
  intros x [Hx Hc]. split; [exact Hx |].
  destruct (Hpred x Hx) as [[|] Eb]; [| exact Eb].
  exfalso. assert (Hx' : In x cube).
  { apply Hin; [apply in_downto; unfold in_range in Hx; lia | exact Eb]. }
  assert (Ht : existsb (Z.eqb x) cube = true).
  { apply existsb_exists. exists x. split; [exact Hx' | apply Z.eqb_refl]. }
  simpl in Hc. congruence.
Qed.

Lemma pre_row_pred_ok (quant_row i : Z) :
  in_range n i -> exists b, pre_row_pred vm quant_row i = Ok b.
Proof.
  intro Hi. destruct (ok_inv s vm vm_good i Hi) as [k [Ek _]].
  unfold pre_row_pred. rewrite Ek. simpl.
  destruct (Bool.eqb (prime k) pre); simpl; eauto.
Qed.

Lemma pre_pred_ok (i : Z) : in_range n i -> exists b, pre_pred vm i = Ok b.
Proof.
  intro Hi. destruct (ok_inv s vm vm_good i Hi) as [k [Ek _]].
  unfold pre_pred. rewrite Ek. simpl. eauto.
Qed.

Lemma returns_sweep_step (bottom : bool) (begin_ r : Z)
      (st : dd * list stat_line) :
  1 <= r <= N_rows -> support (in_range n) (fst st) ->
  returns n (sweep_step vm bottom begin_ r st)
          (fun st' => support (in_range n) (fst st')
                      /\ snd st' = snd st ++ sweep_lines bottom begin_ r).
Proof.
  intros Hr Hst. unfold sweep_step, sweep_lines.
  eapply returns_bind; [now apply returns_acc_rel_row |].
  intros row_rel Hrow.
  assert (Hand : support (in_range n) (apply_and (fst st) row_rel))
    by now apply support_apply.
  destruct (if bottom then begin_ <=? r + (if bottom then 1 else -1)
            else r + (if bottom then 1 else -1) <? begin_).
  - eapply returns_bind.
    + apply returns_adapter_exists; [apply pre_row_pred_ok | exact Hand].
    + intros res' Hres'. apply returns_ret. simpl. split.
      * eapply support_weaken; [| exact Hres']. now intros x [Hx _].
      * now rewrite <- app_assoc.
  - apply returns_ret. simpl. now split.
Qed.

Lemma half_rows_bounds : 0 <= Z.quot (rows post) 2 <= N_rows.
Proof.
  unfold rows. simpl Z.b2z. Z.to_euclidean_division_equations. lia.
Qed.

Lemma returns_acc_rel_half (bottom : bool) :
  returns n (acc_rel_half vm bottom)
          (fun st =>
             support (in_range n) (fst st)
             /\ snd st
                = let half_rows := Z.quot (rows post) 2 in
                  let begin_ := if bottom then MAX_ROW post else MIN_ROW post in
                  let end_ := if bottom then MAX_ROW post - half_rows + 1
                              else MIN_ROW post + half_rows - 1 in
                  flat_map (sweep_lines bottom begin_)
                           (sweep_rows bottom begin_ end_)).
Proof.
  pose proof half_rows_bounds as Hhalf.
  assert (Hmax : MAX_ROW post = N_rows)
    by (unfold MAX_ROW, rows; simpl; lia).
  unfold acc_rel_half. cbv zeta.
  set (begin_ := if bottom then MAX_ROW post else MIN_ROW post).
  set (end_ := if bottom then MAX_ROW post - Z.quot (rows post) 2 + 1
               else MIN_ROW post + Z.quot (rows post) 2 - 1).
  apply (returns_for_eachM n _
           (fun done st => support (in_range n) (fst st)
                           /\ snd st = flat_map (sweep_lines bottom begin_) done)
           (sweep_rows bottom begin_ end_)) with (done := []);
    [| split; [exact I | reflexivity]].
  intros done r st Hin [Hs Hl].
  assert (Hr : 1 <= r <= N_rows).
  { unfold sweep_rows, begin_, end_ in Hin. rewrite Hmax in Hin.
    change (MIN_ROW post) with 1 in Hin.
    destruct bottom; [apply in_downto in Hin | apply in_upto in Hin]; lia. }
  eapply returns_weaken; [now apply returns_sweep_step |].
  intros st' [Hs' Hl']. split; [exact Hs' |].
  rewrite Hl', Hl, flat_map_app. simpl. now rewrite app_nil_r.
Qed.

(** [garden_of_eden] returns, and its result only tests post variables. *)
Lemma returns_garden_of_eden :
  returns n (garden_of_eden vm)
          (support (fun x => in_range n x /\ pre_pred vm x = Ok false)).
Proof.
  unfold garden_of_eden.
  eapply returns_bind; [apply returns_acc_rel_half |]. intros top_half [Ht _].
  eapply returns_bind; [apply returns_acc_rel_half |]. intros bot_half [Hb _].
  assert (Hres : support (in_range n) (apply_and (fst top_half) (fst bot_half)))
    by now apply support_apply.
  eapply returns_bind with (P := support (in_range n)).
  - destruct (Z.rem (rows post) 2 =? 1) eqn:Hodd; [| now apply returns_ret].
    apply Z.eqb_eq in Hodd.
    eapply returns_bind.
    + apply returns_acc_rel_row. revert Hodd. unfold rows. simpl Z.b2z.
      Z.to_euclidean_division_equations. lia.
    + intros mid Hmid. apply returns_ret. now apply support_apply.
  - intros res Hr. apply returns_adapter_exists; [apply pre_pred_ok | exact Hr].
Qed.

End Assembly.

(* ------------------------------------------------------------------------- *)
(** ** Results on the builders and the accumulation *)

Lemma good_adapter_new (k : Z) : good k (adapter_new k).
Proof. split; [reflexivity | exact I]. Qed.

(** C2. On a constructed map and for a valid post cell [c], [construct_eq]
    returns a diagram that an assignment satisfies exactly when it gives the
    pre variable and the post variable of [c] the same value; the pre index
    is below the post index and no other variable matters. *)
Theorem construct_eq_correct (s : symmetry) (vm : var_map) (c : cell)
        (a : adapter) :
  0 <= N_rows -> 0 <= N_cols ->
  var_map_new s = Ok vm ->
  prime c = post -> out_of_range c = false ->
  exists x_pre x_post r a',
    var_from_cell vm (cell_reprime c pre) = Ok x_pre
    /\ var_from_cell vm c = Ok x_post
    /\ x_pre < x_post
    /\ construct_eq vm c a = Ok (r, a')
    /\ forall A : Z -> bool, eval A r = Bool.eqb (A x_pre) (A x_post).
Proof.
  intros Hr Hc Hnew Hp Hv.
  destruct (var_map_new_ok s vm Hr Hc Hnew) as [Hok [Hr' Hc']].
  assert (Hcp : cell_reprime c post = c)
    by (destruct c; simpl in Hp; subst; reflexivity).
  assert (Hv' : out_of_range (cell_reprime c post) = false)
    by now rewrite Hcp.
  destruct (construct_eq_value s vm Hok c Hv')
    as [x_pre [x_post [Epre [Epost [Hlt [_ Hval]]]]]].
  rewrite Hcp in Epost.
  exists x_pre, x_post. eexists. eexists.
  split; [exact Epre |]. split; [exact Epost |]. split; [lia |].
  split; [apply Hval |].
  intro A. simpl. destruct (A x_pre), (A x_post); reflexivity.
Qed.

Lemma flat_map_singletons {A B : Type} (f : A -> list B) (g : A -> B)
      (xs : list A) :
  (forall x, In x xs -> f x = [g x]) -> flat_map f xs = map g xs.
Proof.
  induction xs as [| x xs IH]; intro H; [reflexivity |].
  simpl. rewrite (H x) by now left. simpl. f_equal.
  apply IH. intros y Hy. apply H. now right.
Qed.

Lemma sweep_lines_schedule (bottom : bool) :
  (let half_rows := Z.quot (rows post) 2 in
   let begin_ := if bottom then MAX_ROW post else MIN_ROW post in
   let end_ := if bottom then MAX_ROW post - half_rows + 1
               else MIN_ROW post + half_rows - 1 in
   flat_map (sweep_lines bottom begin_) (sweep_rows bottom begin_ end_))
  = sweep_schedule bottom.
Proof.
  assert (Hmax : MAX_ROW post = N_rows)
    by (unfold MAX_ROW, rows; simpl; lia).
  assert (Hrows : rows post = N_rows) by (unfold rows; simpl; lia).
  cbv zeta. rewrite Hmax, Hrows. change (MIN_ROW post) with 1.
  unfold sweep_schedule, sweep_rows.
  set (half := Z.quot N_rows 2).
  destruct (half <? 1) eqn:H1; [apply Z.ltb_lt in H1 | apply Z.ltb_ge in H1].
  - destruct bottom; [rewrite downto_nil by lia | rewrite upto_nil by lia];
      reflexivity.
  - destruct bottom.
    + rewrite downto_cons by lia. simpl flat_map.
      replace (N_rows <=? N_rows + 1) with true
        by (symmetry; apply Z.leb_le; lia).
      simpl app. f_equal. f_equal.
      destruct (half <? 2) eqn:H2;
        [apply Z.ltb_lt in H2 | apply Z.ltb_ge in H2].
      * rewrite downto_nil by lia. reflexivity.
      * rewrite downto_cons by lia. simpl flat_map.
        replace (N_rows <=? N_rows - 1 + 1) with true
          by (symmetry; apply Z.leb_le; lia).
        replace (N_rows - 1 + 1) with N_rows by lia.
        simpl app. f_equal. f_equal.
        replace (N_rows - 1 - 1) with (N_rows - 2) by lia.
        apply flat_map_singletons. intros r Hr. apply in_downto in Hr.
        unfold sweep_lines.
        now replace (N_rows <=? r + 1) with false
          by (symmetry; apply Z.leb_gt; lia).
    + replace (1 + half - 1) with half by lia.
      rewrite upto_cons by lia. simpl flat_map.
      simpl app. f_equal. f_equal.
      apply flat_map_singletons. intros r Hr. apply in_upto in Hr.
      unfold sweep_lines.
      now replace (r + -1 <? 1) with false by (symmetry; apply Z.ltb_ge; lia).
Qed.

(** C4. [garden_of_eden] returns, and the value of its result is the same
    under two assignments that agree on every post variable. *)
Theorem garden_of_eden_post_only (s : symmetry) (vm : var_map) :
  0 <= N_rows -> 0 <= N_cols ->
  var_map_new s = Ok vm ->
  exists r a',
    garden_of_eden vm (adapter_new (varcount vm)) = Ok (r, a')
    /\ forall A B : Z -> bool,
        (forall x k, cell_from_var vm x = Ok k -> prime k = post -> A x = B x) ->
        eval A r = eval B r.
Proof.
  intros Hr Hc Hnew.
  destruct (var_map_new_ok s vm Hr Hc Hnew) as [Hok [Hr' Hc']].
  destruct (returns_garden_of_eden (conj Hr Hr') (conj Hc Hc') s vm Hok
              (adapter_new (varcount vm)) (good_adapter_new _))
    as [r [a' [E [_ Hs]]]].
  exists r, a'. split; [exact E |].
  intros A B HAB. eapply eval_support; [exact Hs |].
  intros x [Hx Hp]. simpl in Hp. unfold pre_pred in Hp.
  destruct (cell_from_var vm x) as [k |] eqn:Ek; [| discriminate].
  simpl in Hp. injection Hp as Hp.
  apply (HAB x k); [exact Ek |].
  destruct (prime k); [reflexivity | discriminate].
Qed.

(** C6 (as the code has it). For a cell over the coordinates of a valid post
    cell, on a grid whose pre coordinates fit a [char], and an [int] count
    above nine for which [alive + 2] does not overflow,
    [construct_count] returns the constant-false diagram and throws
    nothing. *)
Theorem construct_count_above_nine (vm : var_map) (c : cell) (alive : Z)
        (a : adapter) :
  0 <= N_rows <= 126 -> 0 <= N_cols <= 126 ->
  out_of_range (cell_reprime c post) = false ->
  9 < alive <= INT_MAX - 2 ->
  exists a', construct_count vm c alive a = Ok (bot, a').
Proof.
  intros Hr Hc Hv Hk.
  destruct (neighbourhood_ok Hr Hc c Hv) as [nb [Enb Hlen]].
  unfold construct_count, bind, lift, build_node_leaf, ret.
  replace (INT_MAX <? alive + 2) with false by (symmetry; apply Z.ltb_ge; lia).
  replace (alive + 2 <? 0) with false by (symmetry; apply Z.ltb_ge; lia).
  rewrite vec_set_ok by (rewrite repeat_length; lia).
  rewrite Enb, Hlen.
  replace (Z.of_nat 9 <? alive) with true by (symmetry; apply Z.ltb_lt; lia).
  eexists. reflexivity.
Qed.

(* ------------------------------------------------------------------------- *)
(** ** Neighbourhoods and the members of [cell] *)

(** X1. [in_neighbourhood] and [is_neighbour] are symmetric, no cell is its
    own neighbour, and [is_neighbour] is [in_neighbourhood] without the cells
    that [operator==] identifies with the cell itself. *)
Theorem is_neighbour_symmetric (a o : cell) :
  in_neighbourhood a o = in_neighbourhood o a
  /\ is_neighbour a o = is_neighbour o a
  /\ is_neighbour a a = false
  /\ (is_neighbour a o = true
      <-> in_neighbourhood a o = true /\ cell_neq a o = true).
Proof using Type.
  clear map_iteration_perm map_iteration hash_char N_rows N_cols.
  assert (Hs : in_neighbourhood a o = in_neighbourhood o a).
  { unfold in_neighbourhood, vertical_dist_to, horizontal_dist_to.
    replace (Z.abs (row o - row a)) with (Z.abs (row a - row o)) by lia.
    now replace (Z.abs (col o - col a)) with (Z.abs (col a - col o)) by lia. }
  split; [exact Hs |]. split; [| split].
  - unfold is_neighbour. rewrite Hs.
    now rewrite (Z.eqb_sym (row a)), (Z.eqb_sym (col a)).
  - unfold is_neighbour. now rewrite !Z.eqb_refl.
  - unfold is_neighbour, cell_neq, cell_eq.
    destruct ((row a =? row o) && (col a =? col o)); simpl; split;
      try tauto; try discriminate.
Qed.

Lemma cell_new_cases (r c : Z) (p : bool) :
  (cell_new r c p = Ok (Cell (to_char r) (to_char c) p)
   /\ out_of_range (Cell (to_char r) (to_char c) p) = false)
  \/ cell_new r c p
     = Throw (out_of_range_exn "Cell not within valid boundaries").
Proof.
  unfold cell_new.
  destruct (out_of_range (Cell (to_char r) (to_char c) p)); auto.
Qed.

(** X2. For a cell over the coordinates of a valid post cell,
    [neighbourhood] returns nine cells in ascending row-major order: the
    cell itself in the middle and around it the eight pre cells at distance
    one, no coordinate wrapped by the conversion to [char]; re-primed to pre,
    they are exactly the pre cells that [in_neighbourhood] accepts. *)
Theorem neighbourhood_cells (c : cell) :
  0 <= N_rows <= 126 -> 0 <= N_cols <= 126 ->
  out_of_range (cell_reprime c post) = false ->
  exists nb,
    neighbourhood c = Ok nb
    /\ nb = [Cell (row c - 1) (col c - 1) pre; Cell (row c - 1) (col c) pre;
             Cell (row c - 1) (col c + 1) pre; Cell (row c) (col c - 1) pre;
             c; Cell (row c) (col c + 1) pre;
             Cell (row c + 1) (col c - 1) pre; Cell (row c + 1) (col c) pre;
             Cell (row c + 1) (col c + 1) pre]
    /\ forall k, prime k = pre ->
                 (In k (map (fun x => cell_reprime x pre) nb)
                  <-> in_neighbourhood c k = true).
Proof.
  intros Hr Hc H. apply oor_post in H. simpl in H. unfold neighbourhood.
  repeat (rewrite (cell_new_ok Hr Hc) by (apply oor_pre; lia); simpl rbind).
  eexists. split; [reflexivity |]. split; [reflexivity |].
  intros [kr kc kp] Hk. simpl in Hk. subst kp.
  unfold in_neighbourhood, vertical_dist_to, horizontal_dist_to.
  rewrite andb_true_iff, !Z.leb_le. simpl. unfold cell_reprime. simpl. split.
  - intro Hin.
    repeat (destruct Hin as [E | Hin]; [inversion E; subst; lia |]).
    contradiction.
  - intros [Hv Hh].
    assert (Er : kr = row c - 1 \/ kr = row c \/ kr = row c + 1) by lia.
    assert (Ec : kc = col c - 1 \/ kc = col c \/ kc = col c + 1) by lia.
    destruct Er as [-> | [-> | ->]]; destruct Ec as [-> | [-> | ->]];
      auto 10.
Qed.

(** X3. For a cell whose coordinates are [char] values but not those of a
    valid post cell, as for every cell on the dead border,
    [neighbourhood] throws [std::out_of_range]. *)
Theorem neighbourhood_off_grid (c : cell) :
  0 <= N_rows <= 126 -> 0 <= N_cols <= 126 ->
  -128 <= row c <= 127 -> -128 <= col c <= 127 ->
  out_of_range (cell_reprime c post) = true ->
  neighbourhood c
  = Throw (out_of_range_exn "Cell not within valid boundaries").
Proof using Type.
  clear map_iteration_perm map_iteration hash_char.
  intros Hr Hc Rr Rc H.
  assert (N : ~ (1 <= row c <= N_rows /\ 1 <= col c <= N_cols)).
  { rewrite <- oor_post. unfold cell_reprime in H. rewrite H. discriminate. }
  unfold neighbourhood.
  destruct (cell_new_cases (row c - 1) (col c - 1) pre) as [[-> V1] | ->];
    [simpl rbind | reflexivity].
  destruct (cell_new_cases (row c - 1) (col c) pre) as [[-> V2] | ->];
    [simpl rbind | reflexivity].
  destruct (cell_new_cases (row c - 1) (col c + 1) pre) as [[-> V3] | ->];
    [simpl rbind | reflexivity].
  destruct (cell_new_cases (row c) (col c - 1) pre) as [[-> V4] | ->];
    [simpl rbind | reflexivity].
  destruct (cell_new_cases (row c) (col c + 1) pre) as [[-> V6] | ->];
    [simpl rbind | reflexivity].
  destruct (cell_new_cases (row c + 1) (col c - 1) pre) as [[-> V7] | ->];
    [simpl rbind | reflexivity].
  destruct (cell_new_cases (row c + 1) (col c) pre) as [[-> V8] | ->];
    [simpl rbind | reflexivity].
  exfalso. apply N.
  apply oor_pre in V2, V4, V6, V8.
  rewrite (to_char_small (row c)) in V4, V6 by lia.
  rewrite (to_char_small (col c)) in V2, V8 by lia.
  clear V1 V3 V7 N H.
  unfold to_char in *. Z.div_mod_to_equations. lia.
Qed.

(** X4. Whenever a phase has a valid cell at all, [cell::min] and
    [cell::max] of that phase are valid cells and bound every valid cell of
    the phase in both coordinates; on a grid without rows or without columns
    both throw for the post phase. *)
Theorem cell_min_max_bound :
  (forall k, 0 <= N_rows <= 126 -> 0 <= N_cols <= 126 ->
             out_of_range k = false ->
             exists lo hi,
               cell_min (prime k) = Ok lo /\ cell_max (prime k) = Ok hi
               /\ prime lo = prime k /\ prime hi = prime k
               /\ row lo <= row k <= row hi /\ col lo <= col k <= col hi)
  /\ (N_rows = 0 \/ N_cols = 0 ->
      cell_min post
      = Throw (out_of_range_exn "Cell not within valid boundaries")
      /\ cell_max post
         = Throw (out_of_range_exn "Cell not within valid boundaries")).
Proof.
  split.
  - intros [kr kc kp] Hr Hc Hk. unfold cell_min, cell_max. simpl prime.
    destruct kp.
    + apply oor_post in Hk.
      rewrite !(cell_new_ok Hr Hc)
        by (apply oor_post; unfold MIN_ROW, MIN_COL, MAX_ROW, MAX_COL, rows,
            cols; simpl; lia).
      do 2 eexists. repeat (split; [reflexivity |]).
      unfold MIN_ROW, MIN_COL, MAX_ROW, MAX_COL, rows, cols. simpl. lia.
    + apply oor_pre in Hk.
      rewrite !(cell_new_ok Hr Hc)
        by (apply oor_pre; unfold MIN_ROW, MIN_COL, MAX_ROW, MAX_COL, rows,
            cols; simpl; lia).
      do 2 eexists. repeat (split; [reflexivity |]).
      unfold MIN_ROW, MIN_COL, MAX_ROW, MAX_COL, rows, cols. simpl. lia.
  - intro H. unfold cell_min, cell_max, cell_new, out_of_range, MIN_ROW,
      MIN_COL, MAX_ROW, MAX_COL, rows, cols. simpl.
    destruct H as [-> | ->]; simpl.
    + split; [reflexivity |]. reflexivity.
    + rewrite !orb_true_r.
      replace (N_rows + 0 - 0) with N_rows by lia.
      split.
      * destruct (N_rows <? 1); reflexivity.
      * destruct ((to_char N_rows <? 1) || (N_rows <? to_char N_rows));
          reflexivity.
Qed.

(** X5. [cell::to_string] tells any two cells apart, the pre and the post
    cell of one coordinate included (which [operator==] identifies). *)
Theorem cell_to_string_injective (a b : cell) :
  -128 <= row a <= 127 -> -128 <= col a <= 127 ->
  -128 <= row b <= 127 -> -128 <= col b <= 127 ->
  cell_to_string a = cell_to_string b -> a = b.
Proof using Type.
  clear map_iteration_perm map_iteration hash_char N_rows N_cols.
  destruct a as [ra ca pa], b as [rb cb pb]. simpl.
  intros Hra Hca Hrb Hcb E. unfold cell_to_string in E.
  cbn [row col prime] in E.
  assert (Er : to_char (48 + ra) = to_char (48 + rb)) by congruence.
  assert (Ec : to_char (65 + ca - 1) = to_char (65 + cb - 1)) by congruence.
  assert (Ep : (if Bool.eqb pa pre then 32 else 39)
               = (if Bool.eqb pb pre then 32 else 39)) by congruence.
  clear E.
  assert (ra = rb) by (unfold to_char in Er; Z.div_mod_to_equations; lia).
  assert (ca = cb) by (unfold to_char in Ec; Z.div_mod_to_equations; lia).
  subst. f_equal. destruct pa, pb; simpl in Ep; congruence.
Qed.

(* ------------------------------------------------------------------------- *)
(** ** More on the constructed map *)

Lemma inverse_cell (s : symmetry) (vm : var_map) (x : Z) :
  vm_ok s vm -> 0 <= x < varcount vm ->
  exists c, cell_from_var vm x = Ok c /\ var_from_cell vm c = Ok x
            /\ In (c, x) (_map vm).
Proof.
  intros Hok Hx.
  destruct (ok_inv s vm Hok x Hx) as [c [Ec Hin]].
  exists c. split; [exact Ec |]. split; [| exact Hin].
  assert (Hv : out_of_range c = false).
  { apply (ok_keys s vm Hok). apply in_keys. now exists x. }
  unfold var_from_cell. rewrite Hv.
  now rewrite (map_find_Some _ _ _ (ok_nodup s vm Hok) Hin).
Qed.

(** X6. [cell_from_var(x, c)] on a constructed map: it throws
    [std::out_of_range] when the candidate [c] is outside its bounds,
    whatever [x] is; for a valid candidate and an index below [varcount()] it
    returns a cell that is looked up to [x] again, namely the candidate when
    the candidate maps to [x] and the cell of the inverse map otherwise. *)
Theorem cell_from_var_candidate (s : symmetry) (vm : var_map) (x : Z)
        (c : cell) :
  0 <= N_rows -> 0 <= N_cols ->
  var_map_new s = Ok vm ->
  0 <= x < varcount vm ->
  (out_of_range c = true ->
   cell_from_var_cand vm x c
   = Throw (out_of_range_exn "Cell not within valid boundaries"))
  /\ (out_of_range c = false ->
      exists k,
        cell_from_var_cand vm x c = Ok k
        /\ var_from_cell vm k = Ok x
        /\ (var_from_cell vm c = Ok x -> k = c)
        /\ (var_from_cell vm c <> Ok x -> cell_from_var vm x = Ok k)).
Proof.
  intros Hr Hc Hnew Hx.
  destruct (var_map_new_ok s vm Hr Hc Hnew) as [Hok _].
  split.
  - intro Hv. unfold cell_from_var_cand, var_from_cell. now rewrite Hv.
  - intro Hv.
    destruct (var_from_cell_ok s vm c Hok Hv) as [y [Ey _]].
    destruct (inverse_cell s vm x Hok Hx) as [k [Ek [Ekx _]]].
    unfold cell_from_var_cand. rewrite Ey. simpl rbind.
    destruct (y =? x) eqn:E; [apply Z.eqb_eq in E | apply Z.eqb_neq in E].
    + subst y. exists c. repeat split; auto. congruence.
    + exists k. rewrite Ek. repeat split; auto. congruence.
Qed.

(** X7. The number of post variables of a constructed map: one per post
    cell without symmetry, one per post cell of the left half (the middle
    column included) with mirror symmetry; with the pre variables this gives
    [varcount()]. *)
Theorem var_map_post_count (s : symmetry) (vm : var_map) :
  0 <= N_rows -> 0 <= N_cols ->
  var_map_new s = Ok vm ->
  varcount_of vm post
  = N_rows * match s with
             | none => N_cols
             | mirror => (N_cols + 1) / 2
             end
  /\ varcount vm = (N_rows + 2) * (N_cols + 2) + varcount_of vm post.
Proof.
  intros Hr Hc Hnew.
  destruct (var_map_new_ok s vm Hr Hc Hnew) as [Hok _].
  pose proof (mirror_max_col_halves Hc) as Hmc.
  split.
  - simpl. rewrite (ok_post s vm Hok). f_equal.
    destruct s; simpl; [reflexivity |].
    Z.div_mod_to_equations. lia.
  - unfold varcount. simpl. rewrite (ok_pre s vm Hok).
    unfold rows, cols. simpl. lia.
Qed.

Lemma length_upto (lo hi : Z) :
  List.length (upto lo hi) = Z.to_nat (hi + 1 - lo).
Proof. unfold upto. now rewrite length_map, length_seq. Qed.

Lemma NoDup_upto (lo hi : Z) : NoDup (upto lo hi).
Proof.
  unfold upto. generalize (Z.to_nat (hi + 1 - lo)) as n.
  intro n. generalize (seq_NoDup n 0). generalize (seq 0 n) as l.
  induction l as [| i l IH]; intro H; simpl; [constructor |].
  inversion H as [| ? ? Hi Hl]; subst. constructor; [| now apply IH].
  rewrite in_map_iff. intros [j [E Hj]].
  assert (j = i) by lia. now subst.
Qed.

Lemma NoDup_flat_map {A B : Type} (f : A -> list B) (l : list A) :
  NoDup l -> (forall x, In x l -> NoDup (f x)) ->
  (forall x y b, In x l -> In y l -> In b (f x) -> In b (f y) -> x = y) ->
  NoDup (flat_map f l).
Proof.
  induction l as [| a l IH]; intros Hl Hf Hd; simpl; [constructor |].
  inversion Hl as [| ? ? Ha Hl']; subst.
  apply NoDup_app.
  - apply Hf. now left.
  - apply IH; [assumption | |].
    + intros x Hx. apply Hf. now right.
    + intros x y b Hx Hy. apply Hd; now right.
  - intros b Hb Hb'. apply in_flat_map in Hb'. destruct Hb' as [y [Hy Hby]].
    assert (a = y) by (apply (Hd a y b); auto; [now left | now right]).
    now subst.
Qed.

Lemma in_grid_cells (p : bool) (k : cell) :
  In k (grid_cells p) <-> prime k = p /\ out_of_range k = false.
Proof.
  unfold grid_cells. rewrite in_flat_map. split.
  - intros [r [Hr Hk]]. apply in_map_iff in Hk. destruct Hk as [c [<- Hc]].
    apply in_upto in Hr, Hc. split; [reflexivity |].
    unfold out_of_range. simpl.
    rewrite !orb_false_iff, !Z.ltb_ge. lia.
  - intros [<- Hv]. destruct k as [r c p]. simpl.
    unfold out_of_range in Hv. simpl in Hv.
    rewrite !orb_false_iff, !Z.ltb_ge in Hv.
    exists r. split; [apply in_upto; lia |].
    apply in_map_iff. exists c. split; [reflexivity | apply in_upto; lia].
Qed.

Lemma NoDup_grid_cells (p : bool) : NoDup (grid_cells p).
Proof.
  unfold grid_cells. apply NoDup_flat_map.
  - apply NoDup_upto.
  - intros r _. generalize (NoDup_upto (MIN_COL p) (MAX_COL p)).
    generalize (upto (MIN_COL p) (MAX_COL p)) as l.
    induction l as [| c l IH]; intro H; simpl; [constructor |].
    inversion H as [| ? ? Hc Hl]; subst. constructor; [| now apply IH].
    rewrite in_map_iff. intros [c' [E Hc']]. injection E as ->. contradiction.
  - intros r r' k _ _ Hk Hk'.
    apply in_map_iff in Hk, Hk'.
    destruct Hk as [c [<- _]]. destruct Hk' as [c' [E _]]. now injection E.
Qed.

Lemma length_grid_cells (p : bool) :
  0 <= N_rows -> 0 <= N_cols ->
  Z.of_nat (List.length (grid_cells p)) = rows p * cols p.
Proof.
  intros Hr Hc. unfold grid_cells.
  rewrite flat_map_constant_length
    with (c := Z.to_nat (MAX_COL p + 1 - MIN_COL p)).
  - rewrite length_upto. unfold MAX_ROW, MIN_ROW, MAX_COL, MIN_COL, rows, cols.
    destruct p; simpl Z.b2z; nia.
  - intros r _. now rewrite length_map, length_upto.
Qed.

(** X8. [size()] of a constructed map counts every cell of the two grids
    once, for either symmetry: mirror symmetry merges indices, not mappings.
    The mappings exceed the variables by the number of post cells that share
    their index with a mirror image. *)
Theorem var_map_size (s : symmetry) (vm : var_map) :
  0 <= N_rows -> 0 <= N_cols ->
  var_map_new s = Ok vm ->
  size vm = (N_rows + 2) * (N_cols + 2) + N_rows * N_cols
  /\ size vm - varcount vm
     = match s with
       | none => 0
       | mirror => N_rows * (N_cols / 2)
       end.
Proof.
  intros Hr Hc Hnew.
  destruct (var_map_new_ok s vm Hr Hc Hnew) as [Hok [Hr' Hc']].
  pose proof (mirror_max_col_halves Hc) as Hmc.
  assert (Hlen : Z.of_nat (List.length (_map vm))
                 = (N_rows + 2) * (N_cols + 2) + N_rows * N_cols).
  { rewrite <- (length_map fst).
    assert (P : Permutation (map fst (_map vm))
                            (grid_cells pre ++ grid_cells post)).
    { apply NoDup_Permutation.
      - exact (ok_nodup s vm Hok).
      - apply NoDup_app; try apply NoDup_grid_cells.
        intros k Hk Hk'. apply in_grid_cells in Hk, Hk'.
        destruct Hk as [Hk _], Hk' as [Hk' _]. unfold pre, post in *.
        congruence.
      - intro k. rewrite (ok_keys s vm Hok), in_app_iff, !in_grid_cells.
        unfold pre, post. destruct (prime k); intuition congruence. }
    rewrite (Permutation_length P), length_app, Nat2Z.inj_add.
    rewrite !length_grid_cells by assumption.
    unfold rows, cols. simpl. lia. }
  assert (Hsize : size vm = (N_rows + 2) * (N_cols + 2) + N_rows * N_cols).
  { unfold size, to_int. rewrite Hlen.
    assert (P31 : 2 ^ 31 = 2147483648) by reflexivity.
    assert (P32 : 2 ^ 32 = 4294967296) by reflexivity.
    rewrite Z.mod_small by nia. lia. }
  split; [exact Hsize |].
  rewrite Hsize. unfold varcount. simpl.
  rewrite (ok_pre s vm Hok), (ok_post s vm Hok).
  unfold rows, cols. simpl Z.b2z.
  destruct s; simpl post_per_row; [lia |].
  assert (N_cols - mirror_max_col = N_cols / 2)
    by (Z.div_mod_to_equations; lia).
  nia.
Qed.

(* ------------------------------------------------------------------------- *)
(** ** Order of the indices *)

Lemma order_inv_nil (s : symmetry) : order_inv s [].
Proof. constructor; simpl; intros; contradiction. Qed.

(** Entries of row [r] with indices from [x] on, added to a map whose
    entries lie in rows up to [r] and have indices below [x]. *)
Lemma order_inv_extend (s : symmetry) (m news : list (cell * Z)) (x r : Z) :
  order_inv s m ->
  (forall k v, In (k, v) m -> v < x /\ row k <= r) ->
  (forall k v, In (k, v) news -> x <= v /\ row k = r) ->
  (forall k v, In (k, v) news -> prime k = post ->
               exists v', In (cell_reprime k pre, v') news
                          /\ v - post_gap s <= v' < v) ->
  (forall k1 k2 v, In (k1, v) news -> In (k2, v) news ->
                   k1 = k2
                   \/ (s = mirror /\ prime k1 = post /\ prime k2 = post
                       /\ row k1 = row k2 /\ col k1 + col k2 = N_cols + 1)) ->
  order_inv s (news ++ m).
Proof.
  intros [Hadj Hrows Hshare] Hold Hnew Hnadj Hnshare. constructor.
  - intros k v Hin Hp. apply in_app_or in Hin. destruct Hin as [Hin | Hin].
    + destruct (Hnadj k v Hin Hp) as [v' [H1 H2]].
      exists v'. split; [apply in_or_app; now left | exact H2].
    + destruct (Hadj k v Hin Hp) as [v' [H1 H2]].
      exists v'. split; [apply in_or_app; now right | exact H2].
  - intros k1 v1 k2 v2 H1 H2 Hlt.
    apply in_app_or in H1, H2.
    destruct H1 as [H1 | H1], H2 as [H2 | H2].
    + apply Hnew in H1, H2. lia.
    + apply Hnew in H1. apply Hold in H2. lia.
    + apply Hold in H1. apply Hnew in H2. lia.
    + eauto.
  - intros k1 k2 v H1 H2.
    apply in_app_or in H1, H2.
    destruct H1 as [H1 | H1], H2 as [H2 | H2].
    + eauto.
    + apply Hnew in H1. apply Hold in H2. lia.
    + apply Hold in H1. apply Hnew in H2. lia.
    + eauto.
Qed.

Section IndexOrder.

Hypothesis rows_fit : 0 <= N_rows <= 126.
Hypothesis cols_fit : 0 <= N_cols <= 126.

Lemma none_step_shape (r c : Z) (b : vm_builder) (D : Z -> Z -> Prop) :
  0 <= r <= N_rows + 1 -> 0 <= c <= N_cols + 1 ->
  keys_inv D b -> ~ D r c ->
  exists b', none_step r c b = Ok b'
             /\ vb_map b' = none_news r c (vb_x b) ++ vb_map b.
Proof.
  intros Hr Hc Hkeys Hfresh.
  assert (Vp : out_of_range (Cell r c pre) = false) by (apply oor_pre; lia).
  unfold none_step, none_news.
  rewrite (cell_new_ok rows_fit cols_fit _ _ _ Vp). simpl rbind.
  assert (F1 : ~ In (Cell r c pre) (map fst (vb_map b))).
  { intro H. apply Hkeys in H. simpl in H. tauto. }
  unfold cell_reprime. simpl row. simpl col.
  destruct (out_of_range (Cell r c post)) eqn:Vq; simpl negb; cbv iota.
  - eexists. split; [reflexivity |]. simpl. now apply map_insert_fresh.
  - eexists. split; [reflexivity |]. simpl.
    rewrite (map_insert_fresh (vb_map b)) by assumption.
    apply map_insert_fresh. simpl. intros [H | H]; [discriminate |].
    apply Hkeys in H. simpl in H. tauto.
Qed.

Lemma mirror_step_shape (r l : Z) (b : vm_builder) (D : Z -> Z -> Prop) :
  0 <= r <= N_rows + 1 -> 0 <= l <= mirror_max_col ->
  keys_inv D b -> ~ D r l -> ~ D r (N_cols + 1 - l) ->
  exists b', mirror_step mirror_max_col r l b = Ok b'
             /\ vb_map b' = mirror_news r l (vb_x b) ++ vb_map b.
Proof.
  intros Hr Hl Hkeys Hfl Hfr.
  pose proof (mirror_max_col_spec cols_fit) as Hmc.
  assert (Vl : out_of_range (Cell r l pre) = false) by (apply oor_pre; lia).
  assert (Hnew : forall k, In k (map fst (vb_map b)) ->
                           ~ (row k = r /\ (col k = l \/ col k = N_cols + 1 - l))).
  { intros k H [E1 [E2 | E2]]; apply Hkeys in H; destruct H as [H _];
      rewrite E1, E2 in H; tauto. }
  unfold mirror_step, mirror_news. rewrite max_col_pre.
  rewrite (cell_new_ok rows_fit cols_fit _ _ _ Vl). simpl rbind.
  unfold cell_reprime. simpl row. simpl col.
  destruct (mirror_max_col <? N_cols + 1 - l) eqn:Hadd;
    [apply Z.ltb_lt in Hadd | apply Z.ltb_ge in Hadd].
  - assert (Vr : out_of_range (Cell r (N_cols + 1 - l) pre) = false)
      by (apply oor_pre; lia).
    rewrite (cell_new_ok rows_fit cols_fit _ _ _ Vr). simpl rbind.
    destruct (out_of_range (Cell r l post)) eqn:Vq; simpl negb; cbv iota.
    + eexists. split; [reflexivity |]. simpl.
      rewrite (map_insert_fresh (vb_map b))
        by (intro H; apply (Hnew _ H); simpl; auto).
      apply map_insert_fresh. simpl. intros [H | H]; [inversion H; lia |].
      apply (Hnew _ H). simpl. auto.
    + assert (Vs : out_of_range (Cell r (N_cols + 1 - l) post) = false).
      { apply oor_post in Vq. apply oor_post. lia. }
      rewrite (cell_new_ok rows_fit cols_fit _ _ _ Vs). simpl rbind.
      eexists. split; [reflexivity |]. simpl.
      rewrite (map_insert_fresh (vb_map b))
        by (intro H; apply (Hnew _ H); simpl; auto).
      rewrite (map_insert_fresh ((Cell r l pre, vb_x b) :: vb_map b)).
      2:{ simpl. intros [H | H]; [inversion H; lia |].
          apply (Hnew _ H). simpl. auto. }
      rewrite (map_insert_fresh
                 ((Cell r (N_cols + 1 - l) pre, vb_x b + 1)
                  :: (Cell r l pre, vb_x b) :: vb_map b)).
      2:{ simpl. intros [H | [H | H]]; try discriminate.
          apply (Hnew _ H). simpl. auto. }
      rewrite map_insert_fresh.
      2:{ simpl. intros [H | [H | [H | H]]]; try discriminate;
            [inversion H; lia |].
          apply (Hnew _ H). simpl. auto. }
      simpl. rewrite ?Z.add_0_r. reflexivity.
  - destruct (out_of_range (Cell r l post)) eqn:Vq; simpl negb; cbv iota.
    + eexists. split; [reflexivity |]. simpl.
      apply map_insert_fresh. intro H. apply (Hnew _ H). simpl. auto.
    + eexists. split; [reflexivity |]. simpl.
      rewrite (map_insert_fresh (vb_map b))
        by (intro H; apply (Hnew _ H); simpl; auto).
      rewrite map_insert_fresh.
      2:{ simpl. intros [H | H]; [discriminate |].
          apply (Hnew _ H). simpl. auto. }
      simpl. rewrite ?Z.add_0_r. reflexivity.
Qed.

Lemma none_news_order (r c x : Z) (m : list (cell * Z)) :
  order_inv none m ->
  (forall k v, In (k, v) m -> v < x /\ row k <= r) ->
  order_inv none (none_news r c x ++ m).
Proof.
  intros Hm Hold. apply (order_inv_extend none m _ x r Hm Hold);
    unfold none_news; destruct (out_of_range (Cell r c post)); simpl.
  - intros k v [E | []]. inversion E; subst. simpl. lia.
  - intros k v [E | [E | []]]; inversion E; subst; simpl; lia.
  - intros k v [E | []] Hp. inversion E; subst. discriminate.
  - intros k v [E | [E | []]] Hp; inversion E; subst; [| discriminate].
    exists x. split; [right; now left | lia].
  - intros k1 k2 v [E1 | []] [E2 | []]. left. congruence.
  - intros k1 k2 v [E1 | [E1 | []]] [E2 | [E2 | []]]; inversion E1;
      inversion E2; subst; try lia; now left.
Qed.

Ltac entry_cases H :=
  lazymatch type of H with
  | _ \/ _ => let H1 := fresh H in destruct H as [H1 | H1]; entry_cases H1
  | (_, _) = (_, _) => inversion H; subst; clear H
  | False => contradiction
  | _ => idtac
  end.

Lemma mirror_news_order (r l x : Z) (m : list (cell * Z)) :
  order_inv mirror m ->
  (forall k v, In (k, v) m -> v < x /\ row k <= r) ->
  order_inv mirror (mirror_news r l x ++ m).
Proof.
  intros Hm Hold. apply (order_inv_extend mirror m _ x r Hm Hold);
    unfold mirror_news; cbv zeta.
  - intros k v H.
    destruct (mirror_max_col <? N_cols + 1 - l);
      destruct (out_of_range (Cell r l post)); simpl in H;
      entry_cases H; simpl; lia.
  - intros k v H Hp.
    destruct (mirror_max_col <? N_cols + 1 - l);
      destruct (out_of_range (Cell r l post)); simpl in H |- *;
      entry_cases H; try discriminate Hp; unfold cell_reprime; simpl;
      first [ exists (x + 1); split; [solve [auto 6] | lia]
            | exists x; split; [solve [auto 6] | lia] ].
  - intros k1 k2 v H1 H2.
    destruct (mirror_max_col <? N_cols + 1 - l);
      destruct (out_of_range (Cell r l post)); simpl in H1, H2;
      entry_cases H1; entry_cases H2; try lia; try (now left);
      right; simpl; repeat split; lia.
Qed.

Lemma old_entries (r i : Z) (b : vm_builder) (D : Z -> Z -> Prop) :
  core_inv b -> keys_inv D b -> (forall r' c', D r' c' -> r' <= r) ->
  forall k v, In (k, v) (vb_map b) -> v < vb_x b /\ row k <= r.
Proof.
  intros C K HD k v Hin. split.
  - apply (ci_range b C) in Hin. lia.
  - apply HD with (c' := col k). apply K. apply in_keys. now exists v.
Qed.

Lemma none_row_order (r : Z) (b b' : vm_builder) :
  0 <= r <= N_rows + 1 -> core_inv b -> keys_inv (rows_done r) b ->
  order_inv none (vb_map b) ->
  for_each (none_step r) (upto (MIN_COL pre) (MAX_COL pre)) b = Ok b' ->
  order_inv none (vb_map b').
Proof.
  intros Hr Hcore Hkeys Hord.
  rewrite max_col_pre. change (MIN_COL pre) with 0.
  destruct (for_each_upto (none_step r)
              (fun i b' => 0 <= i /\ core_inv b' /\ keys_inv (none_done r i) b'
                           /\ order_inv none (vb_map b'))
              (N_cols + 1)) with (lo := 0) (s := b)
    as [b1 [E [_ [_ [_ O]]]]].
  - intros i s Hi [Hi0 [C [K O]]].
    destruct (none_step_spec rows_fit cols_fit r i s (none_done r i))
      as [s' [E' [C' [K' _]]]]; try assumption; try lia.
    { unfold none_done, rows_done. lia. }
    destruct (none_step_shape r i s (none_done r i))
      as [s'' [E'' M'']]; try assumption; try lia.
    { unfold none_done, rows_done. lia. }
    rewrite E' in E''. injection E'' as <-.
    exists s'. split; [exact E' |]. split; [lia |]. split; [exact C' |].
    split.
    + eapply keys_inv_ext; [| exact K']. intros r' c'. simpl.
      unfold none_done, rows_done. lia.
    + rewrite M''. apply none_news_order; [exact O |].
      apply (old_entries r i s (none_done r i) C K).
      unfold none_done, rows_done. lia.
  - lia.
  - split; [lia |]. split; [assumption |]. split; [| assumption].
    eapply keys_inv_ext; [| exact Hkeys]. intros r' c'.
    unfold none_done, rows_done. lia.
  - intro H. rewrite E in H. now injection H as <-.
Qed.

Lemma mirror_row_order (r : Z) (b b' : vm_builder) :
  0 <= r <= N_rows + 1 -> core_inv b -> keys_inv (rows_done r) b ->
  order_inv mirror (vb_map b) ->
  for_each (mirror_step mirror_max_col r) (upto (MIN_COL pre) mirror_max_col) b
  = Ok b' ->
  order_inv mirror (vb_map b').
Proof.
  intros Hr Hcore Hkeys Hord.
  pose proof (mirror_max_col_spec cols_fit) as Hmc.
  change (MIN_COL pre) with 0.
  destruct (for_each_upto (mirror_step mirror_max_col r)
              (fun i b' => 0 <= i /\ core_inv b'
                           /\ keys_inv (mirror_done r i) b'
                           /\ order_inv mirror (vb_map b'))
              mirror_max_col) with (lo := 0) (s := b)
    as [b1 [E [_ [_ [_ O]]]]].
  - intros i s Hi [Hi0 [C [K O]]].
    destruct (mirror_step_spec rows_fit cols_fit r i s (mirror_done r i))
      as [s' [E' [C' [K' _]]]]; try assumption; try lia.
    { unfold mirror_done, rows_done. lia. }
    { unfold mirror_done, rows_done. lia. }
    destruct (mirror_step_shape r i s (mirror_done r i))
      as [s'' [E'' M'']]; try assumption; try lia.
    { unfold mirror_done, rows_done. lia. }
    { unfold mirror_done, rows_done. lia. }
    rewrite E' in E''. injection E'' as <-.
    exists s'. split; [exact E' |]. split; [lia |]. split; [exact C' |].
    split.
    + eapply keys_inv_ext; [| exact K']. intros r' c'. simpl.
      unfold mirror_done, rows_done. lia.
    + rewrite M''. apply mirror_news_order; [exact O |].
      apply (old_entries r i s (mirror_done r i) C K).
      unfold mirror_done, rows_done. lia.
  - lia.
  - split; [lia |]. split; [assumption |]. split; [| assumption].
    eapply keys_inv_ext; [| exact Hkeys]. intros r' c'.
    unfold mirror_done, rows_done. lia.
  - intro H. rewrite E in H. now injection H as <-.
Qed.

Lemma fill_map_order (s : symmetry) (b : vm_builder) :
  fill_map s = Ok b -> order_inv s (vb_map b).
Proof.
  set (body := match s with
               | none => fun r => for_each (none_step r)
                                           (upto (MIN_COL pre) (MAX_COL pre))
               | mirror => fun r => for_each (mirror_step mirror_max_col r)
                                             (upto (MIN_COL pre) mirror_max_col)
               end).
  assert (Hfill : fill_map s
                  = for_each body (upto (MIN_ROW pre) (MAX_ROW pre))
                             (Vm_builder 0 0 0 []))
    by (destruct s; reflexivity).
  rewrite Hfill.
  replace (MAX_ROW pre) with (N_rows + 1)
    by (unfold MAX_ROW, rows; simpl; lia).
  change (MIN_ROW pre) with 0.
  destruct (for_each_upto body
              (fun r b => 0 <= r /\ core_inv b /\ keys_inv (rows_done r) b
                          /\ order_inv s (vb_map b))
              (N_rows + 1)) with (lo := 0) (s := Vm_builder 0 0 0 [])
    as [b1 [E [_ [_ [_ O]]]]].
  - intros r b0 Hr [Hr0 [C [K O]]].
    assert (Hrow : exists b', body r b0 = Ok b' /\ core_inv b'
                              /\ keys_inv (rows_done (r + 1)) b').
    { destruct s; simpl body.
      - destruct (none_row_spec rows_fit cols_fit r b0)
          as [b' [E' [C' [K' _]]]]; try assumption; try lia.
        now exists b'.
      - destruct (mirror_row_spec rows_fit cols_fit r b0)
          as [b' [E' [C' [K' _]]]]; try assumption; try lia.
        now exists b'. }
    destruct Hrow as [b' [E' [C' K']]].
    exists b'. split; [exact E' |]. split; [lia |]. split; [exact C' |].
    split; [exact K' |].
    destruct s; simpl body in E'.
    + apply (none_row_order r b0 b'); try assumption; lia.
    + apply (mirror_row_order r b0 b'); try assumption; lia.
  - lia.
  - split; [lia |]. split; [apply core_inv_init |]. split.
    + intro k. simpl. unfold rows_done. split; [tauto | lia].
    + apply order_inv_nil.
  - intro H. rewrite E in H. now injection H as <-.
Qed.

End IndexOrder.

Lemma var_map_order (s : symmetry) (vm : var_map) :
  0 <= N_rows -> 0 <= N_cols -> var_map_new s = Ok vm ->
  order_inv s (_map vm).
Proof.
  intros Hr Hc Hnew.
  destruct (var_map_new_ok s vm Hr Hc Hnew) as [_ [Hr' Hc']].
  unfold var_map_new in Hnew.
  destruct (fill_map s) as [b |] eqn:Eb; [| discriminate].
  simpl in Hnew.
  destruct (fill_inv (vb_pre b + vb_post b) (vb_map b)) as [inv |];
    [| discriminate].
  simpl in Hnew. injection Hnew as <-. simpl.
  exact (fill_map_order (conj Hr Hr') (conj Hc Hc') s b Eb).
Qed.

(** X9. In a constructed map the post cell of a coordinate gets the next
    index after its pre cell without symmetry, and the next or the one after
    it with mirror symmetry, where the pre cell of the mirrored column comes
    in between. *)
Theorem post_index_follows_pre (s : symmetry) (vm : var_map) (c : cell) :
  0 <= N_rows -> 0 <= N_cols ->
  var_map_new s = Ok vm ->
  prime c = post -> out_of_range c = false ->
  exists x_pre x_post,
    var_from_cell vm (cell_reprime c pre) = Ok x_pre
    /\ var_from_cell vm c = Ok x_post
    /\ x_pre < x_post
    /\ x_post <= x_pre + match s with
                         | none => 1
                         | mirror => 2
                         end.
Proof.
  intros Hr Hc Hnew Hp Hv.
  destruct (var_map_new_ok s vm Hr Hc Hnew) as [Hok _].
  pose proof (var_map_order s vm Hr Hc Hnew) as Hord.
  destruct (var_from_cell_ok s vm c Hok Hv) as [x_post [Epost [Hin _]]].
  destruct (oi_adj s _ Hord c x_post Hin Hp) as [x_pre [Hin' Hgap]].
  assert (Hv' : out_of_range (cell_reprime c pre) = false).
  { apply (ok_keys s vm Hok). apply in_keys. now exists x_pre. }
  exists x_pre, x_post. split.
  - unfold var_from_cell. rewrite Hv'.
    now rewrite (map_find_Some _ _ _ (ok_nodup s vm Hok) Hin').
  - split; [exact Epost |]. unfold post_gap in Hgap. destruct s; lia.
Qed.

(** X10. The indices of a constructed map grow with the rows: a cell of an
    earlier row, of either phase, has a smaller index than a cell of a later
    row. *)
Theorem index_order_by_rows (s : symmetry) (vm : var_map) (k1 k2 : cell)
        (x1 x2 : Z) :
  0 <= N_rows -> 0 <= N_cols ->
  var_map_new s = Ok vm ->
  var_from_cell vm k1 = Ok x1 -> var_from_cell vm k2 = Ok x2 ->
  row k1 < row k2 -> x1 < x2.
Proof.
  intros Hr Hc Hnew E1 E2 Hlt.
  pose proof (var_map_order s vm Hr Hc Hnew) as Hord.
  apply var_from_cell_In in E1, E2.
  exact (oi_rows s _ Hord k1 x1 k2 x2 (proj1 E1) (proj1 E2) Hlt).
Qed.

(** X11. Two different cells of a constructed map have the same index only
    under mirror symmetry and only when they are post cells of one row in
    mirrored columns; without symmetry the map is injective. *)
Theorem shared_index_is_mirror (s : symmetry) (vm : var_map) (k1 k2 : cell)
        (x : Z) :
  0 <= N_rows -> 0 <= N_cols ->
  var_map_new s = Ok vm ->
  var_from_cell vm k1 = Ok x -> var_from_cell vm k2 = Ok x ->
  k1 = k2
  \/ (s = mirror /\ prime k1 = post /\ prime k2 = post
      /\ row k1 = row k2 /\ col k1 + col k2 = MAX_COL pre).
Proof.
  intros Hr Hc Hnew E1 E2.
  pose proof (var_map_order s vm Hr Hc Hnew) as Hord.
  apply var_from_cell_In in E1, E2. rewrite max_col_pre.
  exact (oi_share s _ Hord k1 k2 x (proj1 E1) (proj1 E2)).
Qed.

(* ------------------------------------------------------------------------- *)
(** ** Ordered diagrams and the meaning of quantification *)

Lemma ordered_from_weaken (lb lb' : Z) (f : dd) :
  lb' <= lb -> ordered_from lb f -> ordered_from lb' f.
Proof.
  intro H. destruct f as [b | x lo hi]; simpl; [tauto |].
  intros [Hx [Hlo Hhi]]. repeat split; try assumption. lia.
Qed.

Lemma ordered_support (lb : Z) (f : dd) :
  ordered_from lb f -> support (fun y => lb <= y) f.
Proof using Type.
  clear map_iteration_perm map_iteration hash_char N_rows N_cols.
  revert lb. induction f as [b | x lo IHlo hi IHhi]; intro lb; simpl;
    [tauto |].
  intros [Hx [Hlo Hhi]]. split; [exact Hx |]. split.
  - eapply support_weaken; [| exact (IHlo _ Hlo)]. simpl. intros. lia.
  - eapply support_weaken; [| exact (IHhi _ Hhi)]. simpl. intros. lia.
Qed.

Lemma ordered_mk_node (lb x : Z) (lo hi : dd) :
  lb <= x -> ordered_from (x + 1) lo -> ordered_from (x + 1) hi ->
  ordered_from lb (mk_node x lo hi).
Proof.
  intros Hx Hlo Hhi. unfold mk_node. destruct (dd_eqb lo hi).
  - apply (ordered_from_weaken (x + 1)); [lia | exact Hlo].
  - simpl. auto.
Qed.

Lemma ordered_apply (op : bool -> bool -> bool) (f : dd) :
  forall g lb, ordered_from lb f -> ordered_from lb g ->
               ordered_from lb (apply op f g).
Proof.
  induction f as [a | x flo IHlo fhi IHhi];
    induction g as [b | y glo IHglo ghi IHghi]; intros lb Hf Hg.
  - exact I.
  - simpl in Hg. destruct Hg as [Hy [Hglo Hghi]].
    simpl. apply ordered_mk_node; [exact Hy | |].
    + apply IHglo; [exact I | exact Hglo].
    + apply IHghi; [exact I | exact Hghi].
  - simpl in Hf. destruct Hf as [Hx [Hflo Hfhi]].
    simpl. apply ordered_mk_node; [exact Hx | |].
    + apply IHlo; [exact Hflo | exact I].
    + apply IHhi; [exact Hfhi | exact I].
  - pose proof Hf as Hf'. pose proof Hg as Hg'.
    simpl in Hf'. destruct Hf' as [Hx [Hflo Hfhi]].
    simpl in Hg'. destruct Hg' as [Hy [Hglo Hghi]].
    simpl. destruct (x <? y) eqn:Hxy; [| destruct (y <? x) eqn:Hyx].
    + apply Z.ltb_lt in Hxy.
      assert (Hg1 : ordered_from (x + 1) (Node y glo ghi))
        by (simpl; repeat split; try assumption; lia).
      apply ordered_mk_node; [exact Hx | |].
      * apply IHlo; assumption.
      * apply IHhi; assumption.
    + apply Z.ltb_lt in Hyx.
      assert (Hf1 : ordered_from (y + 1) (Node x flo fhi))
        by (simpl; repeat split; try assumption; lia).
      apply ordered_mk_node; [exact Hy | |].
      * apply IHglo; assumption.
      * apply IHghi; assumption.
    + apply Z.ltb_ge in Hxy, Hyx. assert (x = y) by lia. subst y.
      apply ordered_mk_node; [exact Hx | |].
      * apply IHlo; assumption.
      * apply IHhi; assumption.
Qed.

Lemma ordered_negate (lb : Z) (f : dd) :
  ordered_from lb f -> ordered_from lb (negate f).
Proof.
  revert lb. induction f as [b | x lo IHlo hi IHhi]; intro lb; simpl;
    [tauto |].
  intros [Hx [Hlo Hhi]]. auto.
Qed.

Lemma ordered_bdd_exist (cube : Z -> bool) (f : dd) :
  forall lb, ordered_from lb f -> ordered_from lb (bdd_exist f cube).
Proof.
  induction f as [b | x lo IHlo hi IHhi]; intro lb; simpl; [tauto |].
  intros [Hx [Hlo Hhi]]. destruct (cube x).
  - apply ordered_apply; apply (ordered_from_weaken (x + 1)); auto; lia.
  - apply ordered_mk_node; auto.
Qed.

(** On an ordered diagram the modelled quantification is the existential
    quantifier over the variables of the cube. *)
Lemma sat_bdd_exist (cube : Z -> bool) (f : dd) :
  forall lb, ordered_from lb f ->
  forall A, sat (bdd_exist f cube) A
            <-> for_some (fun x => cube x = true) (sat f) A.
Proof using Type.
  clear map_iteration_perm map_iteration hash_char N_rows N_cols.
  unfold sat, for_some.
  induction f as [b | x lo IHlo hi IHhi]; intros lb Hf A.
  - simpl. split.
    + intro H. exists A. auto.
    + intros [B [_ H]]. exact H.
  - simpl in Hf. destruct Hf as [Hx [Hlo Hhi]].
    assert (Hskip : forall (B : Z -> bool) (v : bool) (g : dd),
               ordered_from (x + 1) g ->
               eval (fun y => if y =? x then v else B y) g = eval B g).
    { intros B v g Hg. apply (eval_support (fun y => x + 1 <= y)).
      - now apply ordered_support.
      - intros y Hy. simpl.
        now replace (y =? x) with false by (symmetry; apply Z.eqb_neq; lia). }
    simpl. destruct (cube x) eqn:Ec.
    + rewrite eval_apply, orb_true_iff, (IHlo _ Hlo), (IHhi _ Hhi). split.
      * intros [[B [HB H]] | [B [HB H]]].
        -- exists (fun y => if y =? x then false else B y). split.
           ++ intros y Hy. destruct (y =? x) eqn:E; [| now apply HB].
              apply Z.eqb_eq in E. subst y. congruence.
           ++ simpl. rewrite Z.eqb_refl. now rewrite Hskip.
        -- exists (fun y => if y =? x then true else B y). split.
           ++ intros y Hy. destruct (y =? x) eqn:E; [| now apply HB].
              apply Z.eqb_eq in E. subst y. congruence.
           ++ simpl. rewrite Z.eqb_refl. now rewrite Hskip.
      * intros [B [HB H]]. simpl in H.
        destruct (B x); [right | left]; now exists B.
    + assert (Hnc : ~ cube x = true) by congruence.
      rewrite eval_mk_node. split.
      * intro H. destruct (A x) eqn:EA.
        -- apply (IHhi _ Hhi) in H. destruct H as [B [HB H]].
           exists B. split; [exact HB |]. simpl.
           now rewrite (HB x Hnc), EA.
        -- apply (IHlo _ Hlo) in H. destruct H as [B [HB H]].
           exists B. split; [exact HB |]. simpl.
           now rewrite (HB x Hnc), EA.
      * intros [B [HB H]]. simpl in H. rewrite (HB x Hnc) in H.
        destruct (A x).
        -- apply (IHhi _ Hhi). now exists B.
        -- apply (IHlo _ Hlo). now exists B.
Qed.

Lemma indep_sat (S V : Z -> Prop) (f : dd) :
  support S f -> (forall x, S x -> ~ V x) -> indep V (sat f).
Proof.
  intros Hf HSV A B HAB. unfold sat.
  rewrite (eval_support S A B f Hf); [tauto |].
  intros x Hx. apply HAB. now apply HSV.
Qed.

Lemma for_some_iff (V : Z -> Prop) (F G : (Z -> bool) -> Prop) :
  (forall A, F A <-> G A) -> forall A, for_some V F A <-> for_some V G A.
Proof.
  intros H A. unfold for_some. split; intros [B [HB HF]]; exists B;
    (split; [exact HB | now apply H]).
Qed.

(** Variables can be quantified in a conjunct that alone depends on them. *)
Lemma for_some_and (V : Z -> Prop) (F G : (Z -> bool) -> Prop) :
  indep V G ->
  forall A, for_some V F A /\ G A <-> for_some V (fun B => F B /\ G B) A.
Proof.
  intros HG A. unfold for_some. split.
  - intros [[B [HB HF]] HGA]. exists B. split; [exact HB |].
    split; [exact HF |]. apply (HG A B); [| exact HGA].
    intros x Hx. symmetry. now apply HB.
  - intros [B [HB [HF HGB]]]. split; [now exists B |].
    apply (HG B A); [| exact HGB]. intros x Hx. now apply HB.
Qed.

(** Quantifying a set of variables absorbs the quantification of a part of
    it. *)
Lemma for_some_absorb (V W : Z -> Prop) (F : (Z -> bool) -> Prop) :
  (forall x, V x -> W x) ->
  forall A, for_some W (for_some V F) A <-> for_some W F A.
Proof.
  intros HVW A. unfold for_some. split.
  - intros [B [HB [C [HC HF]]]]. exists C. split; [| exact HF].
    intros x Hx. rewrite HC by (intro H; apply Hx; now apply HVW).
    now apply HB.
  - intros [B [HB HF]]. exists B. split; [exact HB |].
    exists B. split; [reflexivity | exact HF].
Qed.

(* ------------------------------------------------------------------------- *)
(** ** Adapter code: pre- and postconditions, and results that do not depend
       on the builder reference *)

Lemma hoare_bind {A B : Type} (P : adapter -> Prop) (m : M adapter A)
      (k : A -> M adapter B) (R : A -> adapter -> Prop)
      (Q : B -> adapter -> Prop) :
  hoare P m R -> (forall r, hoare (R r) (k r) Q) -> hoare P (bind m k) Q.
Proof.
  intros Hm Hk a Ha. destruct (Hm a Ha) as [r [a' [E HR]]].
  unfold bind. rewrite E. now apply Hk.
Qed.

Lemma hoare_conseq {A : Type} (P P' : adapter -> Prop) (m : M adapter A)
      (Q Q' : A -> adapter -> Prop) :
  hoare P m Q -> (forall a, P' a -> P a) ->
  (forall r a, Q r a -> Q' r a) -> hoare P' m Q'.
Proof.
  intros Hm HP HQ a Ha. destruct (Hm a (HP a Ha)) as [r [a' [E H]]].
  exists r, a'. auto.
Qed.

Lemma hoare_ret {A : Type} (P : adapter -> Prop) (r : A)
      (Q : A -> adapter -> Prop) :
  (forall a, P a -> Q r a) -> hoare P (ret r) Q.
Proof. intros H a Ha. exists r, a. auto. Qed.

Lemma hoare_lift {A : Type} (P : adapter -> Prop) (r : res A) (v : A)
      (Q : A -> adapter -> Prop) :
  r = Ok v -> (forall a, P a -> Q v a) -> hoare P (lift r) Q.
Proof. intros -> H a Ha. exists v, a. auto. Qed.

Lemma hoare_assume {A : Type} (F : Prop) (P : adapter -> Prop)
      (m : M adapter A) (Q : A -> adapter -> Prop) :
  (F -> hoare P m Q) -> hoare (fun a => P a /\ F) m Q.
Proof. intros H a [Ha HF]. now apply H. Qed.

(** Invariant rules for the counted loops. *)
Lemma hoare_upto {T : Type} (body : Z -> T -> M adapter T)
      (I : Z -> T -> adapter -> Prop) (lo0 hi : Z) :
  (forall i t, lo0 <= i <= hi ->
               hoare (I i t) (body i t) (fun t' a' => I (i + 1) t' a')) ->
  forall lo t, lo0 <= lo <= hi + 1 ->
               hoare (I lo t) (for_eachM body (upto lo hi) t)
                     (fun t' a' => I (hi + 1) t' a').
Proof.
  intros Hbody lo.
  remember (Z.to_nat (hi + 1 - lo)) as k eqn:Hk.
  revert lo Hk. induction k as [| k IH]; intros lo Hk t Hlo.
  - rewrite upto_nil by lia. simpl. apply hoare_ret.
    intros a Ha. now replace (hi + 1) with lo by lia.
  - rewrite upto_cons by lia. simpl. eapply hoare_bind.
    + apply Hbody. lia.
    + intro t'. apply IH; lia.
Qed.

Lemma hoare_downto {T : Type} (body : Z -> T -> M adapter T)
      (I : Z -> T -> adapter -> Prop) (lo hi0 : Z) :
  (forall i t, lo <= i <= hi0 ->
               hoare (I (i + 1) t) (body i t) (fun t' a' => I i t' a')) ->
  forall hi t, lo - 1 <= hi <= hi0 ->
               hoare (I (hi + 1) t) (for_eachM body (downto hi lo) t)
                     (fun t' a' => I lo t' a').
Proof.
  intros Hbody hi.
  remember (Z.to_nat (hi + 1 - lo)) as k eqn:Hk.
  revert hi Hk. induction k as [| k IH]; intros hi Hk t Hhi.
  - rewrite downto_nil by lia. simpl. apply hoare_ret.
    intros a Ha. now replace lo with (hi + 1) by lia.
  - rewrite downto_cons by lia. simpl. eapply hoare_bind.
    + apply Hbody. lia.
    + intro t'. eapply hoare_conseq; [apply (IH (hi - 1)); lia | |].
      * intros a Ha. replace (hi - 1 + 1) with hi by lia. exact Ha.
      * auto.
Qed.

Lemma same_value_ret {A : Type} (r : A) : same_value (@ret adapter A r).
Proof. intros a1 a2 H. simpl. auto. Qed.

Lemma same_value_lift {A : Type} (r : res A) : same_value (@lift adapter A r).
Proof. intros a1 a2 H. unfold lift. destruct r; auto. Qed.

Lemma same_value_bind {A B : Type} (m : M adapter A) (k : A -> M adapter B) :
  same_value m -> (forall r, same_value (k r)) -> same_value (bind m k).
Proof.
  intros Hm Hk a1 a2 H. specialize (Hm a1 a2 H). unfold bind.
  destruct (m a1) as [[r1 a1'] | e1], (m a2) as [[r2 a2'] | e2];
    try contradiction; [| exact Hm].
  destruct Hm as [-> Hv]. now apply Hk.
Qed.

Lemma same_value_build_node (x : Z) (lo hi : dd) :
  same_value (build_node x lo hi).
Proof. intros a1 a2 H. simpl. auto. Qed.

Lemma same_value_build_node_leaf (value : bool) :
  same_value (build_node_leaf value).
Proof.
  intros a1 a2 H. unfold build_node_leaf. split; [reflexivity |].
  destruct (dd_eqb (_latest_build a1) bot), (dd_eqb (_latest_build a2) bot);
    simpl; auto.
Qed.

Lemma same_value_for_eachM {A T : Type} (body : A -> T -> M adapter T)
      (xs : list A) :
  (forall x t, same_value (body x t)) ->
  forall t, same_value (for_eachM body xs t).
Proof.
  intro Hbody. induction xs as [| x xs IH]; intro t; simpl.
  - apply same_value_ret.
  - apply same_value_bind; auto.
Qed.

Lemma same_value_count_step (vm : var_map) (c : cell) (x : Z)
      (st : count_state) :
  same_value (count_step vm c x st).
Proof.
  unfold count_step. apply same_value_bind; [apply same_value_lift |].
  intro k. destruct (Bool.eqb (prime k) pre && in_neighbourhood c k).
  - apply same_value_bind; [| intro; apply same_value_ret].
    unfold count_incr. apply same_value_for_eachM. intros i parts.
    repeat (apply same_value_bind;
            [first [apply same_value_lift | apply same_value_build_node] |];
            intro).
    apply same_value_lift.
  - apply same_value_bind; [| intro; apply same_value_ret].
    unfold count_skip. apply same_value_for_eachM. intros i parts.
    repeat (apply same_value_bind;
            [first [apply same_value_lift | apply same_value_build_node] |];
            intro).
    apply same_value_lift.
Qed.

Lemma vec_at_set_nth_eq {A : Type} (v : list A) (i : Z) (a : A) :
  0 <= i < Z.of_nat (List.length v) ->
  vec_at (set_nth v (Z.to_nat i) a) i = Ok a.
Proof.
  intro H. unfold vec_at.
  replace (i <? 0) with false by (symmetry; apply Z.ltb_ge; lia).
  now rewrite nth_error_set_nth_eq by lia.
Qed.

Lemma vec_at_set_nth_neq {A : Type} (v : list A) (i j : Z) (a : A) :
  0 <= i -> i <> j -> vec_at (set_nth v (Z.to_nat i) a) j = vec_at v j.
Proof.
  intros Hi Hne. unfold vec_at. destruct (j <? 0) eqn:E; [reflexivity |].
  apply Z.ltb_ge in E. now rewrite nth_error_set_nth_neq by lia.
Qed.

Lemma vec_at_In {A : Type} (v : list A) (i : Z) (a : A) :
  vec_at v i = Ok a -> In a v.
Proof.
  unfold vec_at. destruct (i <? 0); [discriminate |].
  destruct (nth_error v (Z.to_nat i)) eqn:E; [| discriminate].
  intros [= <-]. now apply nth_error_In in E.
Qed.

Lemma cube_members (pred : Z -> res bool) (xs : list Z) :
  forall cube0 cube,
    for_each (fun i cube => rbind (pred i)
                (fun b => Ok (if b then i :: cube else cube)))
             xs cube0 = Ok cube ->
    forall x, In x cube <-> In x cube0 \/ (In x xs /\ pred x = Ok true).
Proof using Type.
  clear map_iteration_perm map_iteration hash_char N_rows N_cols.
  induction xs as [| i xs IH]; intros cube0 cube E x; simpl in E.
  - injection E as <-. simpl. tauto.
  - destruct (pred i) as [b |] eqn:Eb; simpl in E; [| discriminate].
    rewrite (IH _ _ E x). simpl. destruct b; simpl; split.
    + intros [[<- | H] | [H1 H2]]; auto.
    + intros [H | [[<- | H1] H2]]; auto.
    + intros [H | [H1 H2]]; auto.
    + intros [H | [[<- | H1] H2]]; auto. congruence.
Qed.

(* ------------------------------------------------------------------------- *)
(** ** The counting chains *)

Section Builders.

Hypothesis rows_fit : 0 <= N_rows <= 126.
Hypothesis cols_fit : 0 <= N_cols <= 126.

Variable s : symmetry.
Variable vm : var_map.
Hypothesis vm_good : vm_ok s vm.

Let n : Z := varcount vm.

Lemma slot_ok_weaken (c : cell) (lb lb' : Z) (p : dd) :
  lb' <= lb -> slot_ok vm c lb p -> slot_ok vm c lb' p.
Proof.
  intros H [Ho Hs]. split; [| exact Hs].
  now apply (ordered_from_weaken lb).
Qed.

Lemma slot_ok_node (c : cell) (x : Z) (lo hi : dd) :
  in_range n x -> target vm c x ->
  slot_ok vm c (x + 1) lo -> slot_ok vm c (x + 1) hi ->
  slot_ok vm c x (mk_node x lo hi).
Proof.
  intros Hx Ht [Hlo1 Hlo2] [Hhi1 Hhi2]. split.
  - apply ordered_mk_node; [lia | assumption | assumption].
  - apply support_mk_node; [now split | assumption | assumption].
Qed.

Lemma slot_ok_dont_care (c : cell) (x : Z) (p : dd) :
  slot_ok vm c (x + 1) p -> slot_ok vm c x (mk_node x p p).
Proof.
  intro H. unfold mk_node. rewrite dd_eqb_refl.
  apply (slot_ok_weaken c (x + 1)); [lia | exact H].
Qed.

Lemma hoare_count_incr (c : cell) (x lo hi : Z) (parts : list dd) :
  in_range n x -> target vm c x ->
  0 <= lo <= hi -> hi + 1 < Z.of_nat (List.length parts) ->
  Forall (slot_ok vm c (x + 1)) parts ->
  hoare (fun a => a_varcount a = n) (count_incr x parts lo hi)
        (fun parts' a' =>
           a_varcount a' = n
           /\ List.length parts' = List.length parts
           /\ Forall (slot_ok vm c x) parts'
           /\ vec_at parts' hi = Ok (_latest_build a')).
Proof.
  intros Hx Ht Hlo Hhi Hparts. unfold count_incr.
  pose (I := fun (j : Z) (parts' : list dd) (a : adapter) =>
               a_varcount a = n
               /\ List.length parts' = List.length parts
               /\ Forall (slot_ok vm c x) parts'
               /\ (forall i p, j <= i -> vec_at parts' i = Ok p ->
                               slot_ok vm c (x + 1) p)
               /\ (lo < j -> vec_at parts' (j - 1) = Ok (_latest_build a))).
  eapply hoare_conseq; [apply (hoare_upto _ I lo hi) with (lo := lo) | |].
  - intros j t Hj a [Hn [Hlen [Hall [Hrest Hlast]]]].
    destruct (vec_at_ok t j) as [low [El _]]; [lia |].
    destruct (vec_at_ok t (j + 1)) as [high [Eh _]]; [lia |].
    unfold bind, lift, build_node. rewrite El, Eh.
    rewrite vec_set_ok by lia. simpl.
    eexists. eexists. split; [reflexivity |].
    assert (Hnode : slot_ok vm c x (mk_node x low high)).
    { apply slot_ok_node; try assumption.
      - apply (Hrest j); [lia | exact El].
      - apply (Hrest (j + 1)); [lia | exact Eh]. }
    unfold I. simpl. split; [exact Hn |].
    split; [now rewrite set_nth_length |].
    split; [now apply Forall_set_nth |]. split.
    + intros i p Hi Ep. rewrite vec_at_set_nth_neq in Ep by lia.
      apply (Hrest i); [lia | exact Ep].
    + intros _. replace (j + 1 - 1) with j by lia.
      apply vec_at_set_nth_eq. lia.
  - lia.
  - intros a Hn. unfold I. split; [exact Hn |]. split; [reflexivity |].
    split; [| split].
    + eapply Forall_impl; [| exact Hparts].
      intros p Hp. apply (slot_ok_weaken c (x + 1)); [lia | exact Hp].
    + intros i p _ Ep. apply vec_at_In in Ep.
      rewrite Forall_forall in Hparts. now apply Hparts.
    + lia.
  - intros parts' a' [Hn [Hlen [Hall [_ Hlast]]]].
    split; [exact Hn |]. split; [exact Hlen |]. split; [exact Hall |].
    replace hi with (hi + 1 - 1) at 1 by lia. apply Hlast. lia.
Qed.

Lemma hoare_count_skip (c : cell) (x lo hi : Z) (parts : list dd) :
  0 <= lo <= hi -> hi < Z.of_nat (List.length parts) ->
  Forall (slot_ok vm c (x + 1)) parts ->
  hoare (fun a => a_varcount a = n) (count_skip x parts lo hi)
        (fun parts' a' =>
           a_varcount a' = n
           /\ List.length parts' = List.length parts
           /\ Forall (slot_ok vm c x) parts'
           /\ vec_at parts' hi = Ok (_latest_build a')).
Proof.
  intros Hlo Hhi Hparts. unfold count_skip.
  pose (I := fun (j : Z) (parts' : list dd) (a : adapter) =>
               a_varcount a = n
               /\ List.length parts' = List.length parts
               /\ Forall (slot_ok vm c x) parts'
               /\ (forall i p, j <= i -> vec_at parts' i = Ok p ->
                               slot_ok vm c (x + 1) p)
               /\ (lo < j -> vec_at parts' (j - 1) = Ok (_latest_build a))).
  eapply hoare_conseq; [apply (hoare_upto _ I lo hi) with (lo := lo) | |].
  - intros j t Hj a [Hn [Hlen [Hall [Hrest Hlast]]]].
    destruct (vec_at_ok t j) as [child [Ec _]]; [lia |].
    unfold bind, lift, build_node. rewrite Ec.
    rewrite vec_set_ok by lia. simpl.
    eexists. eexists. split; [reflexivity |].
    assert (Hnode : slot_ok vm c x (mk_node x child child)).
    { apply slot_ok_dont_care. apply (Hrest j); [lia | exact Ec]. }
    unfold I. simpl. split; [exact Hn |].
    split; [now rewrite set_nth_length |].
    split; [now apply Forall_set_nth |]. split.
    + intros i p Hi Ep. rewrite vec_at_set_nth_neq in Ep by lia.
      apply (Hrest i); [lia | exact Ep].
    + intros _. replace (j + 1 - 1) with j by lia.
      apply vec_at_set_nth_eq. lia.
  - lia.
  - intros a Hn. unfold I. split; [exact Hn |]. split; [reflexivity |].
    split; [| split].
    + eapply Forall_impl; [| exact Hparts].
      intros p Hp. apply (slot_ok_weaken c (x + 1)); [lia | exact Hp].
    + intros i p _ Ep. apply vec_at_In in Ep.
      rewrite Forall_forall in Hparts. now apply Hparts.
    + lia.
  - intros parts' a' [Hn [Hlen [Hall [_ Hlast]]]].
    split; [exact Hn |]. split; [exact Hlen |]. split; [exact Hall |].
    replace hi with (hi + 1 - 1) at 1 by lia. apply Hlast. lia.
Qed.

(** The test of the loop of [construct_count], as a proposition. *)
Lemma target_test (c : cell) (x : Z) (k : cell) :
  cell_from_var vm x = Ok k ->
  (Bool.eqb (prime k) pre && in_neighbourhood c k = true <-> target vm c x).
Proof.
  intro Ek. rewrite andb_true_iff, Bool.eqb_true_iff. split.
  - intros [Hp Hn]. now exists k.
  - intros [k' [Ek' [Hp Hn]]]. rewrite Ek in Ek'. injection Ek' as <-. auto.
Qed.

Lemma hoare_count_step (c : cell) (alive x : Z) (st : count_state) :
  in_range n x ->
  hoare (count_inv vm c alive (x + 1) st) (count_step vm c x st)
        (fun st' a' => count_inv vm c alive x st' a').
Proof.
  intros Hx a [Hn [Hlen [Hall [Hwin [Hmax Hlast]]]]].
  destruct (ok_inv s vm vm_good x Hx) as [k [Ek _]].
  unfold count_step. unfold bind at 1. unfold lift at 1. rewrite Ek.
  destruct (Bool.eqb (prime k) pre && in_neighbourhood c k) eqn:Et.
  - assert (Ht : target vm c x) by (now apply (target_test c x k Ek)).
    set (amin := Z.max (alive_min st - 1) 0).
    set (amax := if (0 <? remaining_cells st - 1)
                    && (remaining_cells st - 1 =? alive_max st)
                 then alive_max st - 1 else alive_max st).
    assert (Hw : 0 <= amin <= amax /\ amax <= alive).
    { unfold amin, amax.
      destruct ((0 <? remaining_cells st - 1)
                && (remaining_cells st - 1 =? alive_max st)) eqn:E; [| lia].
      apply andb_true_iff in E. destruct E as [E1 E2].
      apply Z.ltb_lt in E1. apply Z.eqb_eq in E2. lia. }
    destruct (hoare_count_incr c x amin amax (init_parts st) Hx Ht)
      with (a := a) as [parts' [a' [E [Hn' [Hlen' [Hall' Hlast']]]]]];
      try assumption; try lia.
    unfold bind. rewrite E. unfold ret.
    eexists. eexists. split; [reflexivity |].
    unfold count_inv. simpl.
    split; [exact Hn' |]. split; [lia |]. split; [exact Hall' |].
    split; [lia |]. split; [lia |]. intros _. exact Hlast'.
  - destruct (hoare_count_skip c x (alive_min st) (alive_max st)
                               (init_parts st))
      with (a := a) as [parts' [a' [E [Hn' [Hlen' [Hall' Hlast']]]]]];
      try assumption; try lia.
    unfold bind. rewrite E. unfold ret.
    eexists. eexists. split; [reflexivity |].
    unfold count_inv. simpl.
    split; [exact Hn' |]. split; [lia |]. split; [exact Hall' |].
    split; [lia |]. split; [lia |]. intros _. exact Hlast'.
Qed.

Lemma varcount_nonneg : 0 <= n.
Proof. unfold n. rewrite <- (ok_inv_length s vm vm_good). lia. Qed.

Lemma hoare_count_loop (c : cell) (alive : Z) (st : count_state) :
  hoare (count_inv vm c alive n st)
        (for_eachM (count_step vm c) (downto (n - 1) 0) st)
        (fun st' a' => count_inv vm c alive 0 st' a').
Proof.
  pose proof varcount_nonneg as Hn0.
  eapply hoare_conseq;
    [apply (hoare_downto _ (fun i st a => count_inv vm c alive i st a)
                         0 (n - 1)) with (hi := n - 1) | |].
  - intros i t Hi. apply hoare_count_step. unfold in_range. lia.
  - lia.
  - intros a Ha. now replace (n - 1 + 1) with n by lia.
  - auto.
Qed.

Lemma count_start_inv (c : cell) (alive : Z) (a : adapter) :
  0 <= alive -> a_varcount a = n ->
  count_inv vm c alive n (count_start alive) a.
Proof.
  intros Halive Hn. unfold count_inv, count_start. simpl.
  split; [exact Hn |].
  split; [rewrite set_nth_length, repeat_length; lia |].
  split; [| split; [lia | split; [lia |]]].
  - apply Forall_set_nth; [split; exact I |].
    apply Forall_forall. intros p Hp. apply repeat_spec in Hp. subst p.
    split; exact I.
  - unfold n. lia.
Qed.

(** The statements before and after the loop of [construct_count]. *)
Lemma construct_count_unfold (c : cell) (alive : Z) (a : adapter) :
  out_of_range (cell_reprime c post) = false -> 0 <= alive <= 9 ->
  exists a_mid,
    a_varcount a_mid = a_varcount a
    /\ construct_count vm c alive a
       = bind (for_eachM (count_step vm c) (downto (varcount vm - 1) 0)
                         (count_start alive))
              (fun _ => build) a_mid.
Proof.
  intros Hc Halive.
  destruct (neighbourhood_ok rows_fit cols_fit c Hc) as [nb [Enb Hlen]].
  unfold construct_count.
  unfold bind at 1. unfold build_node_leaf at 1.
  unfold bind at 1. unfold lift at 1.
  replace (INT_MAX <? alive + 2) with false
    by (symmetry; apply Z.ltb_ge; unfold INT_MAX; lia).
  replace (alive + 2 <? 0) with false by (symmetry; apply Z.ltb_ge; lia).
  unfold bind at 1. unfold build_node_leaf at 1.
  unfold bind at 1. unfold lift at 1.
  rewrite vec_set_ok by (rewrite repeat_length; lia).
  unfold bind at 1. unfold lift at 1. rewrite Enb, Hlen.
  replace (Z.of_nat 9 <? alive) with false by (symmetry; apply Z.ltb_ge; lia).
  eexists. split; [| reflexivity].
  destruct (dd_eqb (_latest_build a) bot); simpl;
    repeat match goal with
           | |- context [if ?b then _ else _] => destruct b
           end; reflexivity.
Qed.

(** [construct_count] returns the same ordered diagram from every adapter
    state, and resets the builder. *)
Lemma construct_count_any_state (c : cell) (alive : Z) :
  out_of_range (cell_reprime c post) = false -> 0 <= alive <= 9 ->
  exists r,
    slot_ok vm c 0 r
    /\ forall a, a_varcount a = n ->
                 construct_count vm c alive a = Ok (r, Adapter n bot).
Proof.
  intros Hc Halive.
  destruct (var_from_cell_ok s vm _ vm_good Hc) as [x_post [_ [_ Hrg]]].
  fold n in Hrg.
  set (loopf := for_eachM (count_step vm c) (downto (varcount vm - 1) 0)
                          (count_start alive)).
  assert (Hrun : forall a, a_varcount a = n ->
                           exists st' a', loopf a = Ok (st', a')
                                          /\ count_inv vm c alive 0 st' a').
  { intros a Ha. apply (hoare_count_loop c alive (count_start alive)).
    apply count_start_inv; [lia | exact Ha]. }
  assert (Hsame : same_value loopf).
  { apply same_value_for_eachM. intros x st. apply same_value_count_step. }
  destruct (Hrun (adapter_new n) eq_refl) as [st0 [a0 [E0 I0]]].
  exists (_latest_build a0). split.
  - destruct I0 as [_ [_ [Hall [_ [_ Hlast]]]]].
    specialize (Hlast ltac:(unfold n in *; lia)).
    apply vec_at_In in Hlast. rewrite Forall_forall in Hall. now apply Hall.
  - intros a Ha.
    destruct (construct_count_unfold c alive a Hc Halive)
      as [a_mid [Hmid ->]].
    destruct (Hrun a_mid ltac:(congruence)) as [st1 [a1 [E1 I1]]].
    specialize (Hsame (adapter_new n) a_mid ltac:(simpl; congruence)).
    fold loopf. unfold bind. rewrite E1. rewrite E0, E1 in Hsame.
    destruct Hsame as [<- _].
    destruct I0 as [_ [_ [_ [_ [_ L0]]]]].
    destruct I1 as [Hn1 [_ [_ [_ [_ L1]]]]].
    specialize (L0 ltac:(unfold n in *; lia)).
    specialize (L1 ltac:(unfold n in *; lia)).
    unfold build. rewrite Hn1. fold n. congruence.
Qed.

Lemma cell_from_var_range (x : Z) (k : cell) :
  cell_from_var vm x = Ok k -> in_range n x.
Proof.
  unfold cell_from_var, vec_at, in_range, n.
  rewrite <- (ok_inv_length s vm vm_good).
  destruct (x <? 0) eqn:E; [discriminate |]. apply Z.ltb_ge in E.
  destruct (nth_error (_inv vm) (Z.to_nat x)) eqn:En; [| discriminate].
  intros _. assert (H : nth_error (_inv vm) (Z.to_nat x) <> None) by congruence.
  apply nth_error_Some in H. lia.
Qed.

Lemma hoare_count_zero_step (c : cell) (x : Z) (st : count_state) :
  in_range n x ->
  hoare (count_zero_inv vm c (x + 1) st) (count_step vm c x st)
        (fun st' a' => count_zero_inv vm c x st' a').
Proof.
  intros Hx a [Hn [Hmin [Hmax [p0 [Hparts Hsem]]]]].
  destruct st as [parts rem amin amax]. simpl in Hmin, Hmax, Hparts.
  subst parts amin amax.
  destruct (ok_inv s vm vm_good x Hx) as [k [Ek _]].
  unfold count_step. unfold bind at 1. unfold lift at 1. rewrite Ek.
  cbn [init_parts remaining_cells alive_min alive_max].
  destruct (Bool.eqb (prime k) pre && in_neighbourhood c k) eqn:Et.
  - assert (Ht : target vm c x) by (now apply (target_test c x k Ek)).
    replace ((0 <? rem - 1) && (rem - 1 =? 0)) with false.
    2:{ symmetry. apply andb_false_iff.
        destruct (Z.eq_dec (rem - 1) 0) as [E | E].
        - left. apply Z.ltb_ge. lia.
        - right. now apply Z.eqb_neq. }
    change (Z.max (0 - 1) 0) with 0.
    unfold count_incr. change (upto 0 0) with [0].
    eexists. eexists. split; [reflexivity |].
    split; [exact Hn |]. split; [reflexivity |]. split; [reflexivity |].
    exists (mk_node x p0 bot). split; [reflexivity |].
    intro A. rewrite eval_mk_node. split.
    + intros H y Hy Hty. destruct (A x) eqn:EA; [discriminate |].
      destruct (Z.eq_dec y x) as [-> | Hne]; [exact EA |].
      apply (proj1 (Hsem A) H); [lia | exact Hty].
    + intro H. rewrite (H x) by (unfold in_range in Hx; fold n; auto; lia).
      apply Hsem. intros y Hy. apply H. lia.
  - assert (Ht : ~ target vm c x).
    { intro Ht. apply (target_test c x k Ek) in Ht. congruence. }
    unfold count_skip. change (upto 0 0) with [0].
    eexists. eexists. split; [reflexivity |].
    split; [exact Hn |]. split; [reflexivity |]. split; [reflexivity |].
    exists (mk_node x p0 p0). split; [reflexivity |].
    intro A. unfold mk_node. rewrite dd_eqb_refl. rewrite (Hsem A). split.
    + intros H y Hy Hty. destruct (Z.eq_dec y x) as [-> | Hne];
        [contradiction |]. apply H; [lia | exact Hty].
    + intros H y Hy. apply H. lia.
Qed.

(** For the count 0 the chain is right: the diagram holds exactly when no
    target variable is true. *)
Lemma construct_count_zero (c : cell) :
  out_of_range (cell_reprime c post) = false ->
  exists r,
    (forall a, a_varcount a = n ->
               construct_count vm c 0 a = Ok (r, Adapter n bot))
    /\ forall A : Z -> bool,
        eval A r = true
        <-> forall x, 0 <= x < n -> target vm c x -> A x = false.
Proof.
  intro Hc.
  pose proof varcount_nonneg as Hn0.
  destruct (var_from_cell_ok s vm _ vm_good Hc) as [x_post [_ [_ Hrg]]].
  fold n in Hrg.
  destruct (construct_count_any_state c 0 Hc) as [r [_ Hrun]]; [lia |].
  exists r. split; [exact Hrun |].
  destruct (construct_count_unfold c 0 (adapter_new n) Hc) as [a_mid [Hmid E]];
    [lia |].
  rewrite (Hrun (adapter_new n) eq_refl) in E.
  destruct (hoare_count_loop c 0 (count_start 0) a_mid) as [st1 [a1 [E1 I1]]].
  { apply count_start_inv; [lia | exact Hmid]. }
  assert (Hz : hoare (count_zero_inv vm c n (count_start 0))
                     (for_eachM (count_step vm c) (downto (n - 1) 0)
                                (count_start 0))
                     (fun st' a' => count_zero_inv vm c 0 st' a')).
  { eapply hoare_conseq;
      [apply (hoare_downto _ (fun i st a => count_zero_inv vm c i st a)
                           0 (n - 1)) with (hi := n - 1) | |].
    - intros i t Hi. apply hoare_count_zero_step. unfold in_range. lia.
    - lia.
    - intros a Ha. now replace (n - 1 + 1) with n by lia.
    - auto. }
  destruct (Hz a_mid) as [st2 [a2 [E2 I2]]].
  { split; [exact Hmid |]. split; [reflexivity |]. split; [reflexivity |].
    exists top. split; [reflexivity |]. intro A. simpl.
    split; [intros _ x Hx; unfold n in Hx; lia | reflexivity]. }
  rewrite E1 in E2. injection E2 as <- <-.
  fold n in E. unfold bind in E. rewrite E1 in E. unfold build in E.
  injection E as Er _.
  destruct I1 as [_ [_ [_ [_ [_ L1]]]]]. specialize (L1 ltac:(fold n; lia)).
  destruct I2 as [_ [_ [Hmax [p0 [Hparts Hsem]]]]].
  rewrite Hmax, Hparts in L1. unfold vec_at in L1. simpl in L1.
  injection L1 as L1. rewrite Er, <- L1. exact Hsem.
Qed.

(** The value of [construct_rel], from every adapter state. *)
Lemma construct_rel_any_state (c : cell) :
  out_of_range (cell_reprime c post) = false ->
  exists r3 r4 x_pre x_post,
    slot_ok vm c 0 r3 /\ slot_ok vm c 0 r4
    /\ var_from_cell vm (cell_reprime c pre) = Ok x_pre
    /\ var_from_cell vm (cell_reprime c post) = Ok x_post
    /\ 0 <= x_pre < x_post /\ x_post < n
    /\ (forall a, a_varcount a = n ->
                  construct_count vm c 3 a = Ok (r3, Adapter n bot))
    /\ (forall a, a_varcount a = n ->
                  construct_count vm c 4 a = Ok (r4, Adapter n bot))
    /\ forall a,
        a_varcount a = n ->
        construct_rel vm c a
        = Ok (apply_and
                (apply_and (apply_imp r3 (ithvar x_post))
                           (apply_imp r4 (Node x_pre (Node x_post top bot)
                                               (Node x_post bot top))))
                (apply_imp (negate (apply_or r3 r4)) (nithvar x_post)),
              Adapter n bot).
Proof.
  intro Hc.
  destruct (construct_count_any_state c 3 Hc) as [r3 [S3 H3]]; [lia |].
  destruct (construct_count_any_state c 4 Hc) as [r4 [S4 H4]]; [lia |].
  destruct (construct_eq_value s vm vm_good c Hc)
    as [x_pre [x_post [Epre [Epost [Hlt [Hrg Heq]]]]]].
  exists r3, r4, x_pre, x_post.
  repeat (split; [assumption |]).
  intros a Ha. unfold construct_rel.
  unfold bind at 1. rewrite (H3 a Ha).
  unfold bind at 1. rewrite (H4 (Adapter n bot) eq_refl).
  unfold bind at 1. unfold lift at 1. rewrite Epost.
  unfold bind at 1. rewrite Heq.
  reflexivity.
Qed.

Lemma rel_of_run (c : cell) (a : adapter) :
  out_of_range (cell_reprime c post) = false -> a_varcount a = n ->
  construct_rel vm c a = Ok (rel_of vm c, Adapter n bot).
Proof.
  intros Hc Ha.
  destruct (construct_rel_any_state c Hc)
    as [r3 [r4 [x_pre [x_post [_ [_ [_ [_ [_ [_ [_ [_ H]]]]]]]]]]]].
  unfold rel_of. fold n. rewrite (H (adapter_new n) eq_refl).
  now apply H.
Qed.

Lemma target_rows (c : cell) (y : Z) :
  in_range n y -> target vm c y ->
  row_span vm (row c - 1) (row c + 1) y.
Proof.
  intros Hy [k [Ek [Hp Hn]]]. split; [exact Hy |].
  intros k' Ek' _. rewrite Ek in Ek'. injection Ek' as <-.
  unfold in_neighbourhood, vertical_dist_to in Hn.
  apply andb_true_iff in Hn. destruct Hn as [Hn _].
  apply Z.leb_le in Hn. lia.
Qed.

Lemma rel_of_shape (c : cell) :
  out_of_range (cell_reprime c post) = false ->
  ordered_from 0 (rel_of vm c)
  /\ support (row_span vm (row c - 1) (row c + 1)) (rel_of vm c).
Proof.
  intro Hc.
  destruct (construct_rel_any_state c Hc)
    as [r3 [r4 [x_pre [x_post [S3 [S4 [Epre [Epost [Hlt [Hrg [_ [_ H]]]]]]]]]]]].
  unfold rel_of. fold n. rewrite (H (adapter_new n) eq_refl).
  destruct S3 as [O3 U3], S4 as [O4 U4].
  assert (V3 : support (row_span vm (row c - 1) (row c + 1)) r3).
  { eapply support_weaken; [| exact U3].
    intros y [Hy Ht]. now apply target_rows. }
  assert (V4 : support (row_span vm (row c - 1) (row c + 1)) r4).
  { eapply support_weaken; [| exact U4].
    intros y [Hy Ht]. now apply target_rows. }
  apply var_from_cell_In in Epre, Epost.
  destruct Epre as [Ipre _], Epost as [Ipost _].
  assert (Spost : row_span vm (row c - 1) (row c + 1) x_post).
  { split; [unfold in_range; fold n; lia |].
    intros k Ek Hp. exfalso.
    destruct (ok_inv s vm vm_good x_post) as [k0 [Ek0 Hin0]];
      [fold n; lia |].
    rewrite Ek in Ek0. injection Ek0 as <-.
    assert (k = cell_reprime c post)
      by (apply (ok_pre_inj s vm vm_good k _ x_post); assumption).
    subst k. discriminate. }
  assert (Spre : row_span vm (row c - 1) (row c + 1) x_pre).
  { split; [unfold in_range; fold n; lia |].
    intros k Ek _.
    destruct (ok_inv s vm vm_good x_pre) as [k0 [Ek0 Hin0]];
      [fold n; lia |].
    rewrite Ek in Ek0. injection Ek0 as <-.
    assert (cell_reprime c pre = k)
      by (apply (ok_pre_inj s vm vm_good _ k x_pre); auto).
    subst k. simpl. lia. }
  assert (Oeq : ordered_from 0 (Node x_pre (Node x_post top bot)
                                     (Node x_post bot top)))
    by (simpl; repeat split; lia).
  assert (Ueq : support (row_span vm (row c - 1) (row c + 1))
                        (Node x_pre (Node x_post top bot)
                              (Node x_post bot top)))
    by (simpl; repeat (split; try assumption)).
  assert (Oith : ordered_from 0 (ithvar x_post))
    by (simpl; repeat split; lia).
  assert (Onith : ordered_from 0 (nithvar x_post))
    by (simpl; repeat split; lia).
  assert (Uith : support (row_span vm (row c - 1) (row c + 1)) (ithvar x_post))
    by (simpl; repeat (split; try assumption)).
  assert (Unith : support (row_span vm (row c - 1) (row c + 1))
                          (nithvar x_post))
    by (simpl; repeat (split; try assumption)).
  unfold apply_and, apply_imp, apply_or. split.
  - repeat (apply ordered_apply || apply ordered_negate); assumption.
  - repeat (apply support_apply || apply support_negate); assumption.
Qed.

Lemma max_col_post : MAX_COL post = N_cols.
Proof. unfold MAX_COL, cols. simpl. lia. Qed.

Lemma max_row_post : MAX_ROW post = N_rows.
Proof. unfold MAX_ROW, rows. simpl. lia. Qed.

Lemma sat_and (f g : dd) (A : Z -> bool) :
  sat (apply_and f g) A <-> sat f A /\ sat g A.
Proof. unfold sat, apply_and. rewrite eval_apply. apply andb_true_iff. Qed.

(** The relation of a row is the conjunction of the relations of its
    cells. *)
Lemma hoare_acc_rel_row (r : Z) :
  1 <= r <= N_rows ->
  hoare (fun a => a_varcount a = n) (acc_rel_row vm r)
        (fun f a' =>
           a_varcount a' = n /\ ordered_from 0 f
           /\ support (row_span vm (r - 1) (r + 1)) f
           /\ forall A, sat f A <-> row_holds vm r A).
Proof.
  intro Hr. unfold acc_rel_row. rewrite max_col_post.
  change (MIN_COL post) with 1.
  pose (J := fun (i : Z) (f : dd) (a : adapter) =>
               a_varcount a = n /\ ordered_from 0 f
               /\ support (row_span vm (r - 1) (r + 1)) f
               /\ forall A, sat f A
                            <-> forall c, i <= c <= N_cols ->
                                          sat (rel_of vm (Cell r c pre)) A).
  eapply hoare_conseq;
    [apply (hoare_downto _ J 1 N_cols) with (hi := N_cols) | |].
  - intros c f Hc a [Hn [Ho [Hs Hsem]]].
    assert (Hv : out_of_range (cell_reprime (Cell r c pre) post) = false)
      by (unfold cell_reprime; simpl; apply oor_post; lia).
    unfold bind at 1. unfold lift at 1.
    rewrite (cell_new_ok rows_fit cols_fit) by (apply oor_pre; lia).
    unfold bind at 1. rewrite (rel_of_run (Cell r c pre) a Hv Hn).
    unfold ret. eexists. eexists. split; [reflexivity |].
    destruct (rel_of_shape (Cell r c pre) Hv) as [Ho' Hs'].
    simpl row in Hs'.
    unfold J. split; [reflexivity |].
    split; [now apply ordered_apply |].
    split; [now apply support_apply |].
    intro A. rewrite sat_and, (Hsem A). split.
    + intros [H1 H2] c' Hc'. destruct (Z.eq_dec c' c) as [-> | Hne];
        [exact H2 | apply H1; lia].
    + intro H. split; [intros c' Hc'; apply H; lia | apply H; lia].
  - lia.
  - intros a Ha. unfold J. split; [exact Ha |]. split; [exact I |].
    split; [exact I |]. intro A. split; [intros _ c Hc; lia | reflexivity].
  - intros f a' [Hn [Ho [Hs Hsem]]]. auto.
Qed.

Lemma for_some_vars (V V' : Z -> Prop) (F : (Z -> bool) -> Prop) :
  (forall x, V x <-> V' x) ->
  forall A, for_some V F A <-> for_some V' F A.
Proof.
  intros H A. unfold for_some. split; intros [B [HB HF]]; exists B;
    (split; [| exact HF]); intros x Hx; apply HB; intro Hv; apply Hx;
    now apply H.
Qed.

Lemma indep_subset (V V' : Z -> Prop) (G : (Z -> bool) -> Prop) :
  (forall x, V x -> V' x) -> indep V' G -> indep V G.
Proof.
  intros H HG A B HAB. apply HG. intros x Hx. apply HAB. auto.
Qed.

(** [adapter.exists] on an ordered diagram: the value is the existential
    quantification over the variables below [varcount] that the predicate
    selects. *)
Lemma hoare_adapter_exists (f : dd) (pred : Z -> res bool) (V : Z -> Prop)
      (lo hi : Z) :
  (forall i, in_range n i -> exists b, pred i = Ok b) ->
  (forall y, V y <-> in_range n y /\ pred y = Ok true) ->
  ordered_from 0 f -> support (row_span vm lo hi) f ->
  hoare (fun a => a_varcount a = n) (adapter_exists f pred)
        (fun g a' =>
           a_varcount a' = n /\ ordered_from 0 g
           /\ support (row_span vm lo hi) g
           /\ forall A, sat g A <-> for_some V (sat f) A).
Proof.
  intros Hpred HV Ho Hs a Hn. unfold adapter_exists. rewrite Hn.
  destruct (cube_loop pred (downto (n - 1) 0)) with (cube0 := @nil Z)
    as [cube [E _]].
  { intros i Hi. apply in_downto in Hi. apply Hpred. unfold in_range. lia. }
  rewrite E. simpl rbind.
  eexists. eexists. split; [reflexivity |].
  split; [exact Hn |]. split; [now apply ordered_bdd_exist |]. split.
  - eapply support_weaken; [| apply support_bdd_exist; exact Hs].
    now intros x [Hx _].
  - intro A. rewrite (sat_bdd_exist _ f 0 Ho A). apply for_some_vars.
    intro x. rewrite (HV x), existsb_exists.
    pose proof (cube_members pred _ _ _ E x) as Hm. simpl in Hm.
    split.
    + intros [y [Hy Hxy]]. apply Z.eqb_eq in Hxy. subst y.
      apply Hm in Hy. destruct Hy as [[] | [H1 H2]].
      split; [| exact H2]. apply in_downto in H1. unfold in_range. lia.
    + intros [H1 H2]. exists x. split; [| apply Z.eqb_refl].
      apply Hm. right. split; [| exact H2].
      apply in_downto. unfold in_range in H1. lia.
Qed.

Lemma pre_row_pred_rows (q y : Z) :
  pre_rows vm (fun r => r = q) y
  <-> in_range n y /\ pre_row_pred vm q y = Ok true.
Proof.
  unfold pre_rows, pre_row_pred. split.
  - intros [k [Ek [Hp Hq]]]. split; [now apply (cell_from_var_range y k) |].
    rewrite Ek. simpl. rewrite Hp. simpl.
    f_equal. now apply Z.eqb_eq.
  - intros [Hy H]. destruct (cell_from_var vm y) as [k |] eqn:Ek;
      [| discriminate].
    simpl in H. destruct (Bool.eqb (prime k) pre) eqn:Ep;
      [| discriminate].
    simpl in H. injection H as H. exists k.
    split; [reflexivity |]. split.
    + now apply Bool.eqb_prop in Ep.
    + now apply Z.eqb_eq.
Qed.

Lemma pre_pred_rows (y : Z) :
  pre_rows vm (fun _ => True) y
  <-> in_range n y /\ pre_pred vm y = Ok true.
Proof.
  unfold pre_rows, pre_pred. split.
  - intros [k [Ek [Hp _]]]. split; [now apply (cell_from_var_range y k) |].
    rewrite Ek. simpl. now rewrite Hp.
  - intros [Hy H]. destruct (cell_from_var vm y) as [k |] eqn:Ek;
      [| discriminate].
    simpl in H. injection H as H. exists k.
    split; [reflexivity |]. split; [now apply Bool.eqb_prop in H | exact I].
Qed.

Lemma indep_row_holds (r : Z) (Q : Z -> Prop) :
  1 <= r <= N_rows ->
  (forall q, Q q -> q < r - 1 \/ r + 1 < q) ->
  indep (pre_rows vm Q) (row_holds vm r).
Proof.
  intros Hr HQ A B HAB H c Hc.
  assert (Hv : out_of_range (cell_reprime (Cell r c pre) post) = false)
    by (unfold cell_reprime; simpl; apply oor_post; lia).
  destruct (rel_of_shape (Cell r c pre) Hv) as [_ Hs]. simpl row in Hs.
  apply (indep_sat _ (pre_rows vm Q) _ Hs) with (A := A);
    [| exact HAB | now apply H].
  intros y [_ Hspan] [k [Ek [Hp Hq]]].
  specialize (Hspan k Ek Hp). apply HQ in Hq. lia.
Qed.

Lemma sweep_inv_ext (lo hi : Z) (D D' Q Q' : Z -> Prop) (acc : dd) :
  (forall r, D r <-> D' r) -> (forall q, Q q -> Q' q) ->
  sweep_inv vm lo hi D Q acc -> sweep_inv vm lo hi D' Q' acc.
Proof.
  intros HD HQ [Ho [Hs Hsem]]. split; [exact Ho |]. split; [exact Hs |].
  intros G HG A.
  rewrite (Hsem G).
  - apply for_some_iff. intro B. split; intros [H1 H2]; (split; [| exact H2]);
      intros r Hr; apply H1; now apply HD.
  - eapply indep_subset; [| exact HG].
    intros y [k [Ek [Hp Hq]]]. exists k. auto.
Qed.

(** One iteration of a sweep. *)
Lemma hoare_sweep_step (bottom : bool) (begin_ r lo hi : Z) (D Q : Z -> Prop)
      (st : dd * list stat_line) :
  1 <= r <= N_rows -> lo <= r - 1 -> r + 1 <= hi ->
  (forall q, Q q -> q < r - 1 \/ r + 1 < q) ->
  sweep_inv vm lo hi D Q (fst st) ->
  hoare (fun a => a_varcount a = n) (sweep_step vm bottom begin_ r st)
        (fun st' a' =>
           a_varcount a' = n
           /\ sweep_inv vm lo hi (fun r' => D r' \/ r' = r)
                (fun q => Q q
                          \/ ((if bottom
                               then begin_ <=? r + (if bottom then 1 else -1)
                               else r + (if bottom then 1 else -1) <? begin_)
                              = true
                              /\ q = r + (if bottom then 1 else -1)))
                (fst st')).
Proof.
  intros Hr Hlo Hhi HQ [Ho [Hs Hsem]]. unfold sweep_step.
  eapply hoare_bind; [now apply hoare_acc_rel_row |].
  intros row_rel.
  apply (hoare_assume
           (ordered_from 0 row_rel
            /\ support (row_span vm (r - 1) (r + 1)) row_rel
            /\ (forall A, sat row_rel A <-> row_holds vm r A))
           (fun a => a_varcount a = n)).
  intros [Ho' [Hs' Hrow]].
  set (acc1 := apply_and (fst st) row_rel).
  assert (O1 : ordered_from 0 acc1) by now apply ordered_apply.
  assert (S1 : support (row_span vm lo hi) acc1).
  { apply support_apply; [exact Hs |].
    eapply support_weaken; [| exact Hs'].
    intros y [Hy Hspan]. split; [exact Hy |].
    intros k Ek Hp. specialize (Hspan k Ek Hp). lia. }
  assert (C1 : forall G, indep (pre_rows vm Q) G ->
               forall A,
                 for_some (pre_rows vm (fun _ => True))
                          (fun B => sat acc1 B /\ G B) A
                 <-> for_some (pre_rows vm (fun _ => True))
                       (fun B => (forall r', D r' \/ r' = r ->
                                             row_holds vm r' B) /\ G B) A).
  { intros G HG A.
    rewrite (for_some_iff _ (fun B => sat acc1 B /\ G B)
               (fun B => sat (fst st) B /\ (row_holds vm r B /\ G B))).
    2:{ intro B. unfold acc1. rewrite sat_and, (Hrow B). tauto. }
    rewrite (Hsem (fun B => row_holds vm r B /\ G B)).
    - apply for_some_iff. intro B. split.
      + intros [H1 [H2 H3]]. split; [| exact H3].
        intros r' [Hr' | ->]; auto.
      + intros [H1 H2]. split; [| split; [| exact H2]].
        * intros r' Hr'. apply H1. now left.
        * apply H1. now right.
    - intros A' B' HAB [H1 H2]. split.
      + now apply (indep_row_holds r Q Hr HQ A' B' HAB).
      + now apply (HG A' B' HAB). }
  set (qr := r + (if bottom then 1 else -1)).
  destruct (if bottom then begin_ <=? qr else qr <? begin_) eqn:Eg.
  - eapply hoare_bind.
    + apply (hoare_adapter_exists acc1 (pre_row_pred vm qr)
               (pre_rows vm (fun r' => r' = qr)) lo hi).
      * apply (pre_row_pred_ok s vm vm_good).
      * apply pre_row_pred_rows.
      * exact O1.
      * exact S1.
    + intros res'. apply hoare_ret.
      intros a' [Hn' [O2 [S2 Hex]]]. split; [exact Hn' |]. simpl fst.
      split; [exact O2 |]. split; [exact S2 |].
      intros G HG A.
      assert (HGQ : indep (pre_rows vm Q) G).
      { eapply indep_subset; [| exact HG].
        intros y [k [Ek [Hp Hq]]]. exists k. auto. }
      assert (HGq : indep (pre_rows vm (fun r' => r' = qr)) G).
      { eapply indep_subset; [| exact HG].
        intros y [k [Ek [Hp Hq]]]. exists k. auto. }
      rewrite <- (C1 G HGQ A).
      rewrite (for_some_iff _ (fun B => sat res' B /\ G B)
                 (for_some (pre_rows vm (fun r' => r' = qr))
                           (fun B => sat acc1 B /\ G B))).
      2:{ intro B. rewrite (Hex B). apply for_some_and. exact HGq. }
      apply for_some_absorb.
      intros y [k [Ek [Hp _]]]. exists k. auto.
  - apply hoare_ret. intros a' Hn'. split; [exact Hn' |]. simpl fst.
    split; [exact O1 |]. split; [exact S1 |].
    intros G HG A. apply C1.
    eapply indep_subset; [| exact HG].
    intros y [k [Ek [Hp Hq]]]. exists k. auto.
Qed.

Lemma sweep_inv_init (lo hi : Z) (D Q : Z -> Prop) :
  (forall r, ~ D r) -> sweep_inv vm lo hi D Q top.
Proof.
  intro HD. split; [exact I |]. split; [exact I |].
  intros G _ A. apply for_some_iff. intro B. split.
  - intros [_ H]. split; [| exact H]. intros r Hr. now apply HD in Hr.
  - intros [_ H]. split; [reflexivity | exact H].
Qed.

Lemma half_rows_facts :
  let h := Z.quot (rows post) 2 in
  0 <= h /\ 2 * h <= N_rows <= 2 * h + 1
  /\ ((Z.rem (rows post) 2 =? 1) = true <-> N_rows = 2 * h + 1).
Proof.
  cbv zeta. unfold rows. simpl Z.b2z. rewrite Z.eqb_eq.
  Z.to_euclidean_division_equations. lia.
Qed.

(** The top sweep: post rows [1 .. h] conjoined, pre row 0 quantified. *)
Lemma hoare_acc_rel_top :
  let h := Z.quot (rows post) 2 in
  hoare (fun a => a_varcount a = n) (acc_rel_half vm false)
        (fun st a' =>
           a_varcount a' = n
           /\ sweep_inv vm 0 (h + 1) (fun r => 1 <= r <= h)
                        (fun q => q = 0 /\ 1 <= h) (fst st)).
Proof.
  cbv zeta. destruct half_rows_facts as [Hh0 [Hh _]].
  set (h := Z.quot (rows post) 2) in *.
  unfold acc_rel_half. cbv zeta. fold h. unfold sweep_rows.
  change (MIN_ROW post) with 1.
  pose (J := fun (i : Z) (st : dd * list stat_line) (a : adapter) =>
               a_varcount a = n
               /\ sweep_inv vm 0 (h + 1) (fun r => 1 <= r < i)
                            (fun q => q = 0 /\ 2 <= i) (fst st)).
  eapply hoare_conseq;
    [apply (hoare_upto _ J 1 (1 + h - 1)) with (lo := 1) | |].
  - intros i st Hi. unfold J. apply hoare_assume. intro Hinv.
    eapply hoare_conseq.
    + apply (hoare_sweep_step false 1 i 0 (h + 1) (fun r => 1 <= r < i)
                                (fun q => q = 0 /\ 2 <= i) st);
        try lia; try exact Hinv.
    + auto.
    + intros st' a' [Hn Hinv']. split; [exact Hn |].
      eapply sweep_inv_ext; [| | exact Hinv'].
      * intro r. cbv beta. lia.
      * intros q [[-> Hq] | [Hg ->]]; try lia;
          apply Z.ltb_lt in Hg; lia.
  - lia.
  - intros a Ha. split; [exact Ha |]. apply sweep_inv_init. intro r. lia.
  - intros st a' [Hn Hinv]. split; [exact Hn |].
    eapply sweep_inv_ext; [| | exact Hinv].
    + intro r. cbv beta. lia.
    + intros q [-> Hq]. lia.
Qed.

(** The bottom sweep: post rows [N - h + 1 .. N] conjoined, pre row
    [N + 1] quantified and, from two rows on, pre row [N]. *)
Lemma hoare_acc_rel_bottom :
  let h := Z.quot (rows post) 2 in
  hoare (fun a => a_varcount a = n) (acc_rel_half vm true)
        (fun st a' =>
           a_varcount a' = n
           /\ sweep_inv vm (N_rows - h) (N_rows + 1)
                        (fun r => N_rows - h + 1 <= r <= N_rows)
                        (fun q => (q = N_rows + 1 /\ 1 <= h)
                                  \/ (q = N_rows /\ 2 <= h))
                        (fst st)).
Proof.
  cbv zeta. destruct half_rows_facts as [Hh0 [Hh _]].
  set (h := Z.quot (rows post) 2) in *.
  unfold acc_rel_half. cbv zeta. fold h. unfold sweep_rows.
  rewrite max_row_post.
  pose (J := fun (j : Z) (st : dd * list stat_line) (a : adapter) =>
               a_varcount a = n
               /\ sweep_inv vm (N_rows - h) (N_rows + 1)
                            (fun r => j <= r <= N_rows)
                            (fun q => (q = N_rows + 1 /\ j <= N_rows)
                                      \/ (q = N_rows /\ j <= N_rows - 1))
                            (fst st)).
  eapply hoare_conseq;
    [apply (hoare_downto _ J (N_rows - h + 1) N_rows) with (hi := N_rows)
    | |].
  - intros i st Hi. unfold J. apply hoare_assume. intro Hinv.
    eapply hoare_conseq.
    + apply (hoare_sweep_step true N_rows i (N_rows - h) (N_rows + 1)
                 (fun r => i + 1 <= r <= N_rows)
                 (fun q => (q = N_rows + 1 /\ i + 1 <= N_rows)
                           \/ (q = N_rows /\ i + 1 <= N_rows - 1)) st);
        try lia; try exact Hinv.
    + auto.
    + intros st' a' [Hn Hinv']. split; [exact Hn |].
      eapply sweep_inv_ext; [| | exact Hinv'].
      * intro r. cbv beta. lia.
      * intros q [[[-> Hq] | [-> Hq]] | [Hg ->]]; try lia;
          apply Z.leb_le in Hg; lia.
  - lia.
  - intros a Ha. split; [exact Ha |]. apply sweep_inv_init. intro r. lia.
  - intros st a' [Hn Hinv]. split; [exact Hn |].
    eapply sweep_inv_ext; [| | exact Hinv].
    + intro r. cbv beta. lia.
    + intros q [[-> Hq] | [-> Hq]]; lia.
Qed.

(** Two quantifications after one another are one quantification over both
    sets of variables. *)
Lemma for_some_union (V W : Z -> Prop) (vb : Z -> bool)
      (F : (Z -> bool) -> Prop) :
  (forall x, V x <-> vb x = true) ->
  forall A, for_some V (for_some W F) A
            <-> for_some (fun x => V x \/ W x) F A.
Proof.
  intros HV A. unfold for_some. split.
  - intros [B [HB [C [HC HF]]]]. exists C. split; [| exact HF].
    intros x Hx. rewrite HC by tauto. apply HB. tauto.
  - intros [C [HC HF]].
    exists (fun x => if vb x then C x else A x). split.
    + intros x Hx. destruct (vb x) eqn:E; [| reflexivity].
      exfalso. now apply Hx, HV.
    + exists C. split; [| exact HF]. intros x Hx.
      destruct (vb x) eqn:E; [reflexivity |].
      apply HC. intros [H | H]; [| contradiction].
      apply HV in H. congruence.
Qed.

Lemma sweep_sem_ext (lo hi : Z) (D D' Q Q' : Z -> Prop) (acc : dd) :
  (forall r, D r <-> D' r) -> (forall q, Q q <-> Q' q) ->
  sweep_sem vm lo hi D Q acc -> sweep_sem vm lo hi D' Q' acc.
Proof.
  intros HD HQ [Ho [Hs Hsem]]. split; [exact Ho |]. split; [exact Hs |].
  intro A. rewrite (Hsem A).
  rewrite (for_some_vars (pre_rows vm Q) (pre_rows vm Q')).
  - apply for_some_iff. intro B.
    split; intros H r Hr; apply H; now apply HD.
  - intro x. unfold pre_rows.
    split; intros [k [Ek [Hp Hq]]]; exists k;
      (split; [exact Ek | split; [exact Hp | now apply HQ]]).
Qed.

(** One iteration of a sweep, for the accumulated diagram by itself: the
    row is conjoined under the quantifications made so far, which it does
    not depend on, and the quantification of the step joins them. *)
Lemma hoare_sweep_step_sem (bottom : bool) (begin_ r lo hi : Z)
      (D Q : Z -> Prop) (st : dd * list stat_line) :
  1 <= r <= N_rows -> lo <= r - 1 -> r + 1 <= hi ->
  (forall q, Q q -> q < r - 1 \/ r + 1 < q) ->
  sweep_sem vm lo hi D Q (fst st) ->
  hoare (fun a => a_varcount a = n) (sweep_step vm bottom begin_ r st)
        (fun st' a' =>
           a_varcount a' = n
           /\ sweep_sem vm lo hi (fun r' => D r' \/ r' = r)
                (fun q => ((if bottom
                            then begin_ <=? r + (if bottom then 1 else -1)
                            else r + (if bottom then 1 else -1) <? begin_)
                           = true
                           /\ q = r + (if bottom then 1 else -1))
                          \/ Q q)
                (fst st')).
Proof.
  intros Hr Hlo Hhi HQ [Ho [Hs Hsem]]. unfold sweep_step.
  eapply hoare_bind; [now apply hoare_acc_rel_row |].
  intros row_rel.
  apply (hoare_assume
           (ordered_from 0 row_rel
            /\ support (row_span vm (r - 1) (r + 1)) row_rel
            /\ (forall A, sat row_rel A <-> row_holds vm r A))
           (fun a => a_varcount a = n)).
  intros [Ho' [Hs' Hrow]].
  set (acc1 := apply_and (fst st) row_rel).
  assert (O1 : ordered_from 0 acc1) by now apply ordered_apply.
  assert (S1 : support (row_span vm lo hi) acc1).
  { apply support_apply; [exact Hs |].
    eapply support_weaken; [| exact Hs'].
    intros y [Hy Hspan]. split; [exact Hy |].
    intros k Ek Hp. specialize (Hspan k Ek Hp). lia. }
  assert (C1 : forall A,
             sat acc1 A
             <-> for_some (pre_rows vm Q)
                          (fun B => forall r', D r' \/ r' = r ->
                                               row_holds vm r' B) A).
  { intro A. unfold acc1. rewrite sat_and, (Hsem A), (Hrow A).
    rewrite (for_some_and (pre_rows vm Q) _ (row_holds vm r)
               (indep_row_holds r Q Hr HQ) A).
    apply for_some_iff. intro B. split.
    - intros [H1 H2] r' [Hr' | ->]; auto.
    - intro H. split; [intros r' Hr'; apply H; now left | apply H; now right]. }
  set (qr := r + (if bottom then 1 else -1)).
  destruct (if bottom then begin_ <=? qr else qr <? begin_) eqn:Eg.
  - eapply hoare_bind.
    + apply (hoare_adapter_exists acc1 (pre_row_pred vm qr)
               (pre_rows vm (fun r' => r' = qr)) lo hi).
      * apply (pre_row_pred_ok s vm vm_good).
      * apply pre_row_pred_rows.
      * exact O1.
      * exact S1.
    + intros res'. apply hoare_ret.
      intros a' [Hn' [O2 [S2 Hex]]]. split; [exact Hn' |]. simpl fst.
      split; [exact O2 |]. split; [exact S2 |].
      intro A. rewrite (Hex A).
      rewrite (for_some_iff _ (sat acc1) _ C1 A).
      rewrite (for_some_union
                 (pre_rows vm (fun r' => r' = qr)) (pre_rows vm Q)
                 (fun y => (0 <=? y) && (y <? n)
                           && match pre_row_pred vm qr y with
                              | Ok true => true
                              | _ => false
                              end)).
      * apply for_some_vars. intro x. unfold pre_rows. split.
        -- intros [[k [Ek [Hp Hq]]] | [k [Ek [Hp Hq]]]]; exists k; auto.
        -- intros [k [Ek [Hp [[_ Hq] | Hq]]]]; [left | right]; exists k; auto.
      * intro y. rewrite pre_row_pred_rows. unfold in_range.
        rewrite !andb_true_iff, Z.leb_le, Z.ltb_lt.
        destruct (pre_row_pred vm qr y) as [[|] |]; intuition congruence.
  - apply hoare_ret. intros a' Hn'. split; [exact Hn' |]. simpl fst.
    split; [exact O1 |]. split; [exact S1 |].
    intro A. rewrite (C1 A). apply for_some_vars. intro x. unfold pre_rows.
    split; intros [k [Ek [Hp Hq]]]; exists k;
      (split; [exact Ek | split; [exact Hp |]]).
    + now right.
    + destruct Hq as [[Hf _] | Hq]; [discriminate | exact Hq].
Qed.

Lemma sweep_sem_init (lo hi : Z) (D Q : Z -> Prop) :
  (forall r, ~ D r) -> sweep_sem vm lo hi D Q top.
Proof.
  intro HD. split; [exact I |]. split; [exact I |].
  intro A. split.
  - intros _. exists A. split; [reflexivity |].
    intros r Hr. now apply HD in Hr.
  - intros _. reflexivity.
Qed.

(** The top sweep by itself: the conjunction of post rows [1 .. h] with pre
    row 0 quantified. *)
Lemma hoare_acc_rel_top_sem :
  let h := Z.quot (rows post) 2 in
  hoare (fun a => a_varcount a = n) (acc_rel_half vm false)
        (fun st a' =>
           a_varcount a' = n
           /\ sweep_sem vm 0 (h + 1) (fun r => 1 <= r <= h)
                        (fun q => q = 0 /\ 1 <= h) (fst st)).
Proof.
  cbv zeta. destruct half_rows_facts as [Hh0 [Hh _]].
  set (h := Z.quot (rows post) 2) in *.
  unfold acc_rel_half. cbv zeta. fold h. unfold sweep_rows.
  change (MIN_ROW post) with 1.
  pose (J := fun (i : Z) (st : dd * list stat_line) (a : adapter) =>
               a_varcount a = n
               /\ sweep_sem vm 0 (h + 1) (fun r => 1 <= r < i)
                            (fun q => q = 0 /\ 2 <= i) (fst st)).
  eapply hoare_conseq;
    [apply (hoare_upto _ J 1 (1 + h - 1)) with (lo := 1) | |].
  - intros i st Hi. unfold J. apply hoare_assume. intro Hinv.
    eapply hoare_conseq.
    + apply (hoare_sweep_step_sem false 1 i 0 (h + 1) (fun r => 1 <= r < i)
                                (fun q => q = 0 /\ 2 <= i) st);
        try lia; try exact Hinv.
    + auto.
    + intros st' a' [Hn Hinv']. split; [exact Hn |].
      eapply sweep_sem_ext; [| | exact Hinv'].
      * intro r. cbv beta. lia.
      * intro q. cbv beta. rewrite Z.ltb_lt. lia.
  - lia.
  - intros a Ha. split; [exact Ha |]. apply sweep_sem_init. intro r. lia.
  - intros st a' [Hn Hinv]. split; [exact Hn |].
    eapply sweep_sem_ext; [| | exact Hinv].
    + intro r. cbv beta. lia.
    + intro q. cbv beta. lia.
Qed.

(** The bottom sweep by itself: the conjunction of post rows
    [N - h + 1 .. N] with pre row [N + 1] quantified and, from two rows on,
    pre row [N]. *)
Lemma hoare_acc_rel_bottom_sem :
  let h := Z.quot (rows post) 2 in
  hoare (fun a => a_varcount a = n) (acc_rel_half vm true)
        (fun st a' =>
           a_varcount a' = n
           /\ sweep_sem vm (N_rows - h) (N_rows + 1)
                        (fun r => N_rows - h + 1 <= r <= N_rows)
                        (fun q => (q = N_rows + 1 /\ 1 <= h)
                                  \/ (q = N_rows /\ 2 <= h))
                        (fst st)).
Proof.
  cbv zeta. destruct half_rows_facts as [Hh0 [Hh _]].
  set (h := Z.quot (rows post) 2) in *.
  unfold acc_rel_half. cbv zeta. fold h. unfold sweep_rows.
  rewrite max_row_post.
  pose (J := fun (j : Z) (st : dd * list stat_line) (a : adapter) =>
               a_varcount a = n
               /\ sweep_sem vm (N_rows - h) (N_rows + 1)
                            (fun r => j <= r <= N_rows)
                            (fun q => (q = N_rows + 1 /\ j <= N_rows)
                                      \/ (q = N_rows /\ j <= N_rows - 1))
                            (fst st)).
  eapply hoare_conseq;
    [apply (hoare_downto _ J (N_rows - h + 1) N_rows) with (hi := N_rows)
    | |].
  - intros i st Hi. unfold J. apply hoare_assume. intro Hinv.
    eapply hoare_conseq.
    + apply (hoare_sweep_step_sem true N_rows i (N_rows - h) (N_rows + 1)
                 (fun r => i + 1 <= r <= N_rows)
                 (fun q => (q = N_rows + 1 /\ i + 1 <= N_rows)
                           \/ (q = N_rows /\ i + 1 <= N_rows - 1)) st);
        try lia; try exact Hinv.
    + auto.
    + intros st' a' [Hn Hinv']. split; [exact Hn |].
      eapply sweep_sem_ext; [| | exact Hinv'].
      * intro r. cbv beta. lia.
      * intro q. cbv beta. rewrite Z.leb_le. lia.
  - lia.
  - intros a Ha. split; [exact Ha |]. apply sweep_sem_init. intro r. lia.
  - intros st a' [Hn Hinv]. split; [exact Hn |].
    eapply sweep_sem_ext; [| | exact Hinv].
    + intro r. cbv beta. lia.
    + intro q. cbv beta. lia.
Qed.

Lemma row_span_weaken (lo hi lo' hi' : Z) (f : dd) :
  lo' <= lo -> hi <= hi' ->
  support (row_span vm lo hi) f -> support (row_span vm lo' hi') f.
Proof.
  intros Hlo Hhi. apply support_weaken.
  intros y [Hy Hspan]. split; [exact Hy |].
  intros k Ek Hp. specialize (Hspan k Ek Hp). lia.
Qed.

(** [garden_of_eden]: the result stands for "some values of the pre
    variables satisfy the relation of every cell". *)
Lemma hoare_garden_of_eden :
  hoare (fun a => a_varcount a = n) (garden_of_eden vm)
        (fun r a' =>
           forall A,
             sat r A
             <-> for_some (pre_rows vm (fun _ => True))
                          (fun B => forall r', 1 <= r' <= N_rows ->
                                               row_holds vm r' B) A).
Proof.
  destruct half_rows_facts as [Hh0 [Hh Hodd]].
  pose proof hoare_acc_rel_top as Htop.
  pose proof hoare_acc_rel_bottom as Hbot.
  cbv zeta in Htop, Hbot.
  set (h := Z.quot (rows post) 2) in *.
  unfold garden_of_eden. fold h.
  eapply hoare_bind; [exact Htop |]. intro top_half.
  apply hoare_assume. intros [To [Ts Tsem]].
  eapply hoare_bind; [exact Hbot |]. intro bot_half.
  apply hoare_assume. intros [Bo [Bs Bsem]].
  set (T := fst top_half) in *. set (Bt := fst bot_half) in *.
  set (Mid := fun B : Z -> bool =>
                N_rows = 2 * h + 1 -> row_holds vm (h + 1) B).
  eapply hoare_bind
    with (R := fun res a =>
                 a_varcount a = n
                 /\ (ordered_from 0 res
                     /\ support (row_span vm 0 (N_rows + 1)) res
                     /\ forall B, sat res B
                                  <-> sat T B /\ (sat Bt B /\ Mid B))).
  - destruct (Z.rem (rows post) 2 =? 1) eqn:Eodd.
    + assert (HN : N_rows = 2 * h + 1) by now apply Hodd.
      eapply hoare_bind; [apply (hoare_acc_rel_row (h + 1)); lia |].
      intro mid. apply hoare_ret.
      intros a [Hn [Mo [Ms Msem]]]. split; [exact Hn |].
      split; [repeat apply ordered_apply; assumption |]. split.
      * repeat apply support_apply.
        -- apply (row_span_weaken 0 (h + 1)); [lia | lia | exact Ts].
        -- apply (row_span_weaken (N_rows - h) (N_rows + 1));
             [lia | lia | exact Bs].
        -- apply (row_span_weaken (h + 1 - 1) (h + 1 + 1));
             [lia | lia | exact Ms].
      * intro B. rewrite !sat_and, (Msem B). unfold Mid. tauto.
    + assert (HN : N_rows <> 2 * h + 1).
      { intro H. apply Hodd in H. congruence. }
      apply hoare_ret. intros a Hn. split; [exact Hn |].
      split; [now apply ordered_apply |]. split.
      * apply support_apply.
        -- apply (row_span_weaken 0 (h + 1)); [lia | lia | exact Ts].
        -- apply (row_span_weaken (N_rows - h) (N_rows + 1));
             [lia | lia | exact Bs].
      * intro B. rewrite sat_and. unfold Mid. tauto.
  - intro res. apply hoare_assume. intros [Ro [Rs Rsem]].
    eapply hoare_conseq.
    + apply (hoare_adapter_exists res (pre_pred vm)
               (pre_rows vm (fun _ => True)) 0 (N_rows + 1)).
      * apply (pre_pred_ok s vm vm_good).
      * apply pre_pred_rows.
      * exact Ro.
      * exact Rs.
    + auto.
    + intros g a' [_ [_ [_ Hex]]] A. rewrite (Hex A).
      assert (IMid : forall Q : Z -> Prop,
                 (forall q, Q q -> N_rows = 2 * h + 1 ->
                            1 <= h /\ (q < h \/ h + 2 < q)) ->
                 indep (pre_rows vm Q) Mid).
      { intros Q HQ A' B' HAB HM HN.
        apply (indep_row_holds (h + 1) Q) with (A := A');
          [lia | | exact HAB | now apply HM].
        intros q Hq. apply HQ in Hq; [lia | exact HN]. }
      rewrite (for_some_iff _ (sat res)
                 (fun B => sat T B /\ (sat Bt B /\ Mid B)) Rsem).
      rewrite (Tsem (fun B => sat Bt B /\ Mid B)).
      2:{ intros A' B' HAB [H1 H2]. split.
          - apply (indep_sat _ (pre_rows vm (fun q => q = 0 /\ 1 <= h)) _ Bs)
              with (A := A'); [| exact HAB | exact H1].
            intros y [_ Hspan] [k [Ek [Hp [Hq Hq']]]].
            specialize (Hspan k Ek Hp). lia.
          - apply (IMid (fun q => q = 0 /\ 1 <= h)) with (A := A');
              [| exact HAB | exact H2].
            intros q [-> Hq]. lia. }
      rewrite (for_some_iff _
                 (fun B => (forall r, 1 <= r <= h -> row_holds vm r B)
                           /\ (sat Bt B /\ Mid B))
                 (fun B => sat Bt B
                           /\ ((forall r, 1 <= r <= h -> row_holds vm r B)
                               /\ Mid B))).
      2:{ intro B. tauto. }
      rewrite (Bsem (fun B => (forall r, 1 <= r <= h -> row_holds vm r B)
                              /\ Mid B)).
      2:{ intros A' B' HAB [H1 H2]. split.
          - intros r Hr.
            apply (indep_row_holds r
                     (fun q => (q = N_rows + 1 /\ 1 <= h)
                               \/ (q = N_rows /\ 2 <= h)))
              with (A := A'); [lia | | exact HAB | now apply H1].
            intros q [[-> Hq] | [-> Hq]]; lia.
          - apply (IMid (fun q => (q = N_rows + 1 /\ 1 <= h)
                                  \/ (q = N_rows /\ 2 <= h)))
              with (A := A'); [| exact HAB | exact H2].
            intros q [[-> Hq] | [-> Hq]]; lia. }
      apply for_some_iff. intro B. unfold Mid. split.
      * intros [H1 [H2 H3]] r Hr.
        destruct (Z_le_gt_dec r h) as [Hle | Hgt]; [apply H2; lia |].
        destruct (Z_le_gt_dec (N_rows - h + 1) r) as [Hle' | Hgt'];
          [apply H1; lia |].
        assert (r = h + 1) by lia. subst r. apply H3. lia.
      * intro H. split; [| split].
        -- intros r Hr. apply H. lia.
        -- intros r Hr. apply H. lia.
        -- intros HN. apply H. lia.
Qed.

End Builders.

(* ------------------------------------------------------------------------- *)
(** ** The sweeps: schedule and meaning *)

Lemma accumulated_map_acc (b : Z) (l : list Z) (i : Z) :
  accumulated (map (Acc b) l) i = true <-> In i l.
Proof.
  unfold accumulated. induction l as [| x l IH]; simpl.
  - split; [discriminate | intros []].
  - rewrite orb_true_iff, IH, Z.eqb_eq. tauto.
Qed.

Lemma quantified_map_acc (b : Z) (l : list Z) (q : Z) :
  quantified (map (Acc b) l) q = false.
Proof. unfold quantified. induction l as [| x l IH]; simpl; auto. Qed.

(** The rows that the schedule of a sweep conjoins and the rows that it
    quantifies. *)
Lemma schedule_accumulated (bottom : bool) (i : Z) :
  0 <= N_rows ->
  accumulated (sweep_schedule bottom) i = true
  <-> if bottom then N_rows - Z.quot N_rows 2 + 1 <= i <= N_rows
      else 1 <= i <= Z.quot N_rows 2.
Proof.
  intro HN. unfold sweep_schedule. cbv zeta.
  assert (Hh : 0 <= Z.quot N_rows 2 /\ 2 * Z.quot N_rows 2 <= N_rows)
    by (Z.to_euclidean_division_equations; lia).
  set (h := Z.quot N_rows 2) in *.
  destruct (h <? 1) eqn:E1; [apply Z.ltb_lt in E1 | apply Z.ltb_ge in E1].
  - simpl. destruct bottom; split; [discriminate | lia | discriminate | lia].
  - destruct bottom.
    + destruct (h <? 2) eqn:E2; [apply Z.ltb_lt in E2 | apply Z.ltb_ge in E2].
      * unfold accumulated. simpl. rewrite orb_false_r, Z.eqb_eq. lia.
      * change (accumulated _ i)
          with ((N_rows =? i) || (false || ((N_rows - 1 =? i) || (false
                || accumulated (map (Acc N_rows)
                                    (downto (N_rows - 2) (N_rows - h + 1)))
                               i)))).
        rewrite !orb_true_iff, accumulated_map_acc, in_downto, !Z.eqb_eq.
        split; [intros [H | [H | [H | [H | H]]]]; try discriminate; lia |].
        intro H. destruct (Z.eq_dec i N_rows); [now left |].
        right. right. destruct (Z.eq_dec i (N_rows - 1)); [now left |].
        right. right. lia.
    + change (accumulated _ i)
        with ((1 =? i) || (false || accumulated (map (Acc 1) (upto 2 h)) i)).
      rewrite !orb_true_iff, accumulated_map_acc, in_upto, Z.eqb_eq.
      split; [intros [H | [H | H]]; try discriminate; lia |].
      intro H. destruct (Z.eq_dec i 1); [now left |]. right. right. lia.
Qed.

Lemma schedule_quantified (bottom : bool) (q : Z) :
  0 <= N_rows ->
  quantified (sweep_schedule bottom) q = true
  <-> if bottom
      then (q = N_rows + 1 /\ 1 <= Z.quot N_rows 2)
           \/ (q = N_rows /\ 2 <= Z.quot N_rows 2)
      else q = 0 /\ 1 <= Z.quot N_rows 2.
Proof.
  intro HN. unfold sweep_schedule. cbv zeta.
  set (h := Z.quot N_rows 2) in *.
  destruct (h <? 1) eqn:E1; [apply Z.ltb_lt in E1 | apply Z.ltb_ge in E1].
  - simpl. destruct bottom; split; [discriminate | lia | discriminate | lia].
  - destruct bottom.
    + destruct (h <? 2) eqn:E2; [apply Z.ltb_lt in E2 | apply Z.ltb_ge in E2].
      * unfold quantified. simpl. rewrite orb_false_r, Z.eqb_eq. lia.
      * change (quantified _ q)
          with (false || ((N_rows + 1 =? q) || (false || ((N_rows =? q)
                || quantified (map (Acc N_rows)
                                   (downto (N_rows - 2) (N_rows - h + 1)))
                              q)))).
        rewrite quantified_map_acc, !orb_false_r. cbn [orb].
        rewrite orb_true_iff, !Z.eqb_eq. lia.
    + change (quantified _ q)
        with (false || ((0 =? q)
                        || quantified (map (Acc 1) (upto 2 h)) q)).
      rewrite quantified_map_acc, orb_false_r. cbn [orb].
      rewrite Z.eqb_eq. lia.
Qed.

(** C3 (as the code has it). Each edge sweep returns from every adapter
    state the program reaches, and inside a sweep a quantification directly
    follows the conjunction of a row relation and removes the pre row one
    step behind: the top sweep quantifies only pre row 0 (after post row 1),
    the bottom sweep only pre rows [N + 1] and [N] (after post rows [N] and
    [N - 1]). The diagram of the sweep is the conjunction of the relations
    of the rows listed as conjoined, with the variables of exactly the pre
    rows listed as quantified removed by existential quantification; every
    other variable stays. *)
Theorem sweep_quantification_schedule (s : symmetry) (vm : var_map)
        (bottom : bool) (a : adapter) :
  0 <= N_rows -> 0 <= N_cols ->
  var_map_new s = Ok vm ->
  good (varcount vm) a ->
  exists (rel : Z -> Z -> dd) r a',
    (forall i j a0,
        1 <= i <= N_rows -> 1 <= j <= N_cols ->
        a_varcount a0 = varcount vm ->
        exists a1, construct_rel vm (Cell i j pre) a0 = Ok (rel i j, a1))
    /\ acc_rel_half vm bottom a = Ok ((r, sweep_schedule bottom), a')
    /\ good (varcount vm) a'
    /\ forall A : Z -> bool,
        eval A r = true
        <-> exists B : Z -> bool,
            (forall x,
                (forall k, cell_from_var vm x = Ok k -> prime k = pre ->
                           quantified (sweep_schedule bottom) (row k) = false) ->
                B x = A x)
            /\ forall i j,
                accumulated (sweep_schedule bottom) i = true ->
                1 <= j <= N_cols ->
                eval B (rel i j) = true.
Proof.
  intros Hr Hc Hnew Ha.
  destruct (var_map_new_ok s vm Hr Hc Hnew) as [Hok [Hr' Hc']].
  destruct (returns_acc_rel_half (conj Hr Hr') (conj Hc Hc') s vm Hok bottom
              a Ha)
    as [[r lines] [a' [E [Ha' [_ Hl]]]]].
  simpl snd in Hl. rewrite sweep_lines_schedule in Hl. subst lines.
  exists (fun i j => rel_of vm (Cell i j pre)), r, a'.
  split.
  { intros i j a0 Hi Hj Ha0. eexists.
    apply (rel_of_run (conj Hr Hr') (conj Hc Hc') s vm Hok); [| exact Ha0].
    unfold cell_reprime. simpl. apply oor_post. lia. }
  split; [exact E |]. split; [exact Ha' |].
  assert (Hrows : rows post = N_rows) by (unfold rows; simpl; lia).
  assert (Hsem : exists D Q : Z -> Prop,
             (forall i, D i <-> accumulated (sweep_schedule bottom) i = true)
             /\ (forall q, Q q
                           <-> quantified (sweep_schedule bottom) q = true)
             /\ forall A, sat r A
                          <-> for_some (pre_rows vm Q)
                                (fun B => forall i, D i -> row_holds vm i B)
                                A).
  { destruct Ha as [Hn _]. destruct bottom.
    - destruct (hoare_acc_rel_bottom_sem (conj Hr Hr') (conj Hc Hc') s vm Hok
                  a Hn) as [st [a2 [E2 [_ [_ [_ Hs]]]]]].
      rewrite E in E2. injection E2 as <- _. simpl fst in Hs.
      rewrite Hrows in Hs.
      eexists. eexists. split; [| split; [| exact Hs]].
      + intro i. now rewrite (schedule_accumulated true i Hr).
      + intro q. now rewrite (schedule_quantified true q Hr).
    - destruct (hoare_acc_rel_top_sem (conj Hr Hr') (conj Hc Hc') s vm Hok
                  a Hn) as [st [a2 [E2 [_ [_ [_ Hs]]]]]].
      rewrite E in E2. injection E2 as <- _. simpl fst in Hs.
      rewrite Hrows in Hs.
      eexists. eexists. split; [| split; [| exact Hs]].
      + intro i. now rewrite (schedule_accumulated false i Hr).
      + intro q. now rewrite (schedule_quantified false q Hr). }
  destruct Hsem as [D [Q [HD [HQ Hsem]]]].
  intro A. change (eval A r = true) with (sat r A). rewrite (Hsem A).
  unfold for_some, row_holds, sat, pre_rows. split.
  - intros [B [HB H]]. exists B. split.
    + intros x Hx. apply HB. intros [k [Ek [Hp Hq]]].
      apply HQ in Hq. rewrite (Hx k Ek Hp) in Hq. discriminate.
    + intros i j Hi Hj. apply H; [now apply HD | exact Hj].
  - intros [B [HB H]]. exists B. split.
    + intros x Hx. apply HB. intros k Ek Hp.
      destruct (quantified (sweep_schedule bottom) (row k)) eqn:Eq;
        [| reflexivity].
      exfalso. apply Hx. exists k. split; [exact Ek |].
      split; [exact Hp | now apply HQ].
    + intros i Hi j Hj. apply H; [now apply HD | exact Hj].
Qed.

(* ------------------------------------------------------------------------- *)
(** ** Results on the counting chains, the cell relation and the garden *)

(** X12. On a constructed map, for a cell over the coordinates of a valid
    post cell and a count from 0 to 9, [construct_count] returns one and the
    same diagram from every state of the adapter, whatever builder reference
    earlier code left behind, and leaves the builder reset; the value of the
    diagram depends only on the pre variables of the 3x3 neighbourhood. *)
Theorem construct_count_any_builder_state (s : symmetry) (vm : var_map)
        (c : cell) (alive : Z) :
  0 <= N_rows -> 0 <= N_cols ->
  var_map_new s = Ok vm ->
  out_of_range (cell_reprime c post) = false ->
  0 <= alive <= 9 ->
  exists r,
    (forall a, a_varcount a = varcount vm ->
               construct_count vm c alive a
               = Ok (r, adapter_new (varcount vm)))
    /\ forall A B : Z -> bool,
        (forall x k, cell_from_var vm x = Ok k -> prime k = pre ->
                     in_neighbourhood c k = true -> A x = B x) ->
        eval A r = eval B r.
Proof.
  intros Hr Hc Hnew Hv Halive.
  destruct (var_map_new_ok s vm Hr Hc Hnew) as [Hok [Hr' Hc']].
  destruct (construct_count_any_state (conj Hr Hr') (conj Hc Hc') s vm Hok
              c alive Hv Halive) as [r [[_ Hs] Hrun]].
  exists r. split; [exact Hrun |].
  intros A B HAB. apply (eval_support _ A B r Hs).
  intros x [_ [k [Ek [Hp Hn]]]]. now apply (HAB x k).
Qed.

(** X13. For the count 0 the chain of [construct_count] is right: the
    diagram holds exactly for the assignments that make none of the pre
    variables of the 3x3 neighbourhood true. *)
Theorem construct_count_none_alive (s : symmetry) (vm : var_map) (c : cell)
        (a : adapter) :
  0 <= N_rows -> 0 <= N_cols ->
  var_map_new s = Ok vm ->
  out_of_range (cell_reprime c post) = false ->
  a_varcount a = varcount vm ->
  exists r a',
    construct_count vm c 0 a = Ok (r, a')
    /\ forall A : Z -> bool,
        eval A r = true
        <-> forall x k, cell_from_var vm x = Ok k -> prime k = pre ->
                        in_neighbourhood c k = true -> A x = false.
Proof.
  intros Hr Hc Hnew Hv Ha.
  destruct (var_map_new_ok s vm Hr Hc Hnew) as [Hok [Hr' Hc']].
  destruct (construct_count_zero (conj Hr Hr') (conj Hc Hc') s vm Hok c Hv)
    as [r [Hrun Hsem]].
  exists r. eexists. split; [now apply Hrun |].
  intro A. rewrite (Hsem A). split.
  - intros H x k Ek Hp Hn. apply H.
    + apply (cell_from_var_range s vm Hok x k Ek).
    + now exists k.
  - intros H x _ [k [Ek [Hp Hn]]]. now apply (H x k).
Qed.

(** X14. [construct_rel] combines the two counting diagrams by the three
    cases of the rule: count three makes the post variable true, count four
    makes it equal to the pre variable, every other count makes it false.
    The result is the same from every state of the adapter. *)
Theorem construct_rel_three_cases (s : symmetry) (vm : var_map) (c : cell) :
  0 <= N_rows -> 0 <= N_cols ->
  var_map_new s = Ok vm ->
  out_of_range (cell_reprime c post) = false ->
  exists r3 r4 x_pre x_post r,
    var_from_cell vm (cell_reprime c pre) = Ok x_pre
    /\ var_from_cell vm (cell_reprime c post) = Ok x_post
    /\ (forall a,
           a_varcount a = varcount vm ->
           construct_count vm c 3 a = Ok (r3, adapter_new (varcount vm))
           /\ construct_count vm c 4 a = Ok (r4, adapter_new (varcount vm))
           /\ construct_rel vm c a = Ok (r, adapter_new (varcount vm)))
    /\ forall A : Z -> bool,
        eval A r
        = implb (eval A r3) (A x_post)
          && implb (eval A r4) (Bool.eqb (A x_pre) (A x_post))
          && implb (negb (eval A r3 || eval A r4)) (negb (A x_post)).
Proof.
  intros Hr Hc Hnew Hv.
  destruct (var_map_new_ok s vm Hr Hc Hnew) as [Hok [Hr' Hc']].
  destruct (construct_rel_any_state (conj Hr Hr') (conj Hc Hc') s vm Hok c Hv)
    as [r3 [r4 [x_pre [x_post [_ [_ [Epre [Epost [_ [_ [H3 [H4 H]]]]]]]]]]]].
  exists r3, r4, x_pre, x_post. eexists.
  split; [exact Epre |]. split; [exact Epost |]. split.
  - intros a Ha. split; [now apply H3 |]. split; [now apply H4 |].
    now apply H.
  - intro A. unfold apply_and, apply_imp, apply_or.
    rewrite !eval_apply, eval_negate, !eval_apply. simpl.
    destruct (A x_pre), (A x_post), (eval A r3), (eval A r4); reflexivity.
Qed.

(** X15. [acc_rel] for a row returns the conjunction of the relations that
    [construct_rel] builds for the cells of the row. *)
Theorem acc_rel_row_conjunction (s : symmetry) (vm : var_map) (r : Z)
        (a : adapter) :
  0 <= N_rows -> 0 <= N_cols ->
  var_map_new s = Ok vm ->
  1 <= r <= N_rows ->
  a_varcount a = varcount vm ->
  exists (rel : Z -> dd) f a',
    (forall c a0, 1 <= c <= N_cols -> a_varcount a0 = varcount vm ->
                  exists a1, construct_rel vm (Cell r c pre) a0
                             = Ok (rel c, a1))
    /\ acc_rel_row vm r a = Ok (f, a')
    /\ forall A : Z -> bool,
        eval A f = true
        <-> forall c, 1 <= c <= N_cols -> eval A (rel c) = true.
Proof.
  intros Hr Hc Hnew Hrow Ha.
  destruct (var_map_new_ok s vm Hr Hc Hnew) as [Hok [Hr' Hc']].
  destruct (hoare_acc_rel_row (conj Hr Hr') (conj Hc Hc') s vm Hok r Hrow
              a Ha) as [f [a' [E [_ [_ [_ Hsem]]]]]].
  exists (fun c => rel_of vm (Cell r c pre)), f, a'. split; [| split].
  - intros c a0 Hcol Ha0. eexists.
    apply (rel_of_run (conj Hr Hr') (conj Hc Hc') s vm Hok); [| exact Ha0].
    unfold cell_reprime. simpl. apply oor_post. lia.
  - exact E.
  - exact Hsem.
Qed.

(** X16. The result of [garden_of_eden] stands for the post states that have
    a predecessor: an assignment satisfies it exactly when the pre variables
    can be given values such that the relation of every cell, as built by
    [construct_rel], holds. Quantifying the pre rows at the edges early
    loses nothing. *)
Theorem garden_of_eden_meaning (s : symmetry) (vm : var_map) :
  0 <= N_rows -> 0 <= N_cols ->
  var_map_new s = Ok vm ->
  exists (rel : Z -> Z -> dd) r a',
    (forall i j a0,
        1 <= i <= N_rows -> 1 <= j <= N_cols ->
        a_varcount a0 = varcount vm ->
        exists a1, construct_rel vm (Cell i j pre) a0 = Ok (rel i j, a1))
    /\ garden_of_eden vm (adapter_new (varcount vm)) = Ok (r, a')
    /\ forall A : Z -> bool,
        eval A r = true
        <-> exists B : Z -> bool,
            (forall x k, cell_from_var vm x = Ok k -> prime k = post ->
                         B x = A x)
            /\ forall i j, 1 <= i <= N_rows -> 1 <= j <= N_cols ->
                           eval B (rel i j) = true.
Proof.
  intros Hr Hc Hnew.
  destruct (var_map_new_ok s vm Hr Hc Hnew) as [Hok [Hr' Hc']].
  destruct (hoare_garden_of_eden (conj Hr Hr') (conj Hc Hc') s vm Hok
              (adapter_new (varcount vm)) eq_refl) as [r [a' [E Hsem]]].
  exists (fun i j => rel_of vm (Cell i j pre)), r, a'.
  assert (Hv : forall i j, 1 <= i <= N_rows -> 1 <= j <= N_cols ->
                           out_of_range (cell_reprime (Cell i j pre) post)
                           = false).
  { intros i j Hi Hj. unfold cell_reprime. simpl. apply oor_post. lia. }
  split; [| split; [exact E |]].
  - intros i j a0 Hi Hj Ha0. eexists.
    apply (rel_of_run (conj Hr Hr') (conj Hc Hc') s vm Hok); auto.
  - intro A. change (eval A r = true) with (sat r A). rewrite (Hsem A).
    unfold for_some, row_holds, sat. split.
    + intros [B [HB H]]. exists B. split; [| intros i j Hi Hj; now apply H].
      intros x k Ek Hp. apply HB. intros [k' [Ek' [Hp' _]]].
      rewrite Ek in Ek'. injection Ek' as <-.
      unfold pre, post in *. congruence.
    + intros [B [HB H]].
      exists (fun x => match pre_pred vm x with
                       | Ok true => B x
                       | _ => A x
                       end).
      split.
      * intros x Hx. destruct (pre_pred vm x) as [[|] |] eqn:Ep;
          try reflexivity.
        exfalso. apply Hx. unfold pre_pred in Ep.
        destruct (cell_from_var vm x) as [k |] eqn:Ek; [| discriminate].
        simpl in Ep. injection Ep as Ep. apply Bool.eqb_prop in Ep.
        now exists k.
      * intros i Hi j Hj. rewrite <- (H i j Hi Hj).
        destruct (rel_of_shape (conj Hr Hr') (conj Hc Hc') s vm Hok
                               (Cell i j pre) (Hv i j Hi Hj)) as [_ Hs].
        apply (eval_support _ _ _ _ Hs).
        intros x [Hx _].
        destruct (ok_inv s vm Hok x Hx) as [k [Ek _]].
        unfold pre_pred. rewrite Ek. simpl.
        destruct (Bool.eqb (prime k) pre) eqn:Ep; [reflexivity |].
        symmetry. apply (HB x k Ek).
        destruct (prime k); [reflexivity | discriminate].
Qed.

(** X17. [adapter.exists(f, pred)] asks [pred] for the variables below the
    adapter's [varcount] only; on a diagram that respects the variable order
    the result is the existential quantification over the variables among
    them that [pred] selects, and a variable outside that range is never
    quantified. When [pred] throws for a variable below [varcount], so does
    [exists]. *)
Theorem adapter_exists_meaning (f : dd) (pred : Z -> res bool) (a : adapter) :
  (ordered_from 0 f ->
   (forall i, 0 <= i < a_varcount a -> exists b, pred i = Ok b) ->
   exists g,
     adapter_exists f pred a = Ok (g, a)
     /\ forall A : Z -> bool,
         eval A g = true
         <-> exists B : Z -> bool,
             (forall x, ~ (0 <= x < a_varcount a /\ pred x = Ok true) ->
                        B x = A x)
             /\ eval B f = true)
  /\ (forall i e, 0 <= i < a_varcount a -> pred i = Throw e ->
                  exists e', adapter_exists f pred a = Throw e').
Proof using Type.
  clear map_iteration_perm map_iteration hash_char N_rows N_cols.
  split.
  - intros Ho Hpred. unfold adapter_exists.
    destruct (cube_loop pred (downto (a_varcount a - 1) 0))
      with (cube0 := @nil Z) as [cube [E _]].
    { intros i Hi. apply in_downto in Hi. apply Hpred. lia. }
    rewrite E. simpl rbind. eexists. split; [reflexivity |].
    intro A.
    change (eval A (bdd_exist f (fun x => existsb (Z.eqb x) cube)) = true)
      with (sat (bdd_exist f (fun x => existsb (Z.eqb x) cube)) A).
    rewrite (sat_bdd_exist _ f 0 Ho A).
    apply (for_some_vars _ (fun x => 0 <= x < a_varcount a
                                     /\ pred x = Ok true)).
    intro x. rewrite existsb_exists.
    pose proof (cube_members pred _ _ _ E x) as Hm. simpl in Hm. split.
    + intros [y [Hy Hxy]]. apply Z.eqb_eq in Hxy. subst y.
      apply Hm in Hy. destruct Hy as [[] | [H1 H2]].
      split; [| exact H2]. apply in_downto in H1. lia.
    + intros [H1 H2]. exists x. split; [| apply Z.eqb_refl].
      apply Hm. right. split; [| exact H2]. apply in_downto. lia.
  - intros i e Hi He. unfold adapter_exists.
    destruct (for_each_throws
                (fun i cube => rbind (pred i)
                   (fun b => Ok (if b then i :: cube else cube)))
                i (downto (a_varcount a - 1) 0)) with (s := @nil Z)
      as [e' He'].
    + apply in_downto. lia.
    + intro cube. rewrite He. simpl. now exists e.
    + rewrite He'. simpl. now exists e'.
Qed.

(** X18. For an [int] count above nine for which [alive + 2] does not
    overflow, [construct_count] returns before the loop and without
    [build()]: started from a fresh adapter it leaves the builder reference
    at the true terminal, so that a [build()] right after it returns [top],
    not the diagram that was returned. *)
Theorem construct_count_early_exit (vm : var_map) (c : cell) (alive : Z) :
  0 <= N_rows <= 126 -> 0 <= N_cols <= 126 ->
  out_of_range (cell_reprime c post) = false ->
  9 < alive <= INT_MAX - 2 ->
  construct_count vm c alive (adapter_new (varcount vm))
  = Ok (bot, Adapter (varcount vm) top)
  /\ bind (construct_count vm c alive) (fun _ => build)
          (adapter_new (varcount vm))
     = Ok (top, adapter_new (varcount vm)).
Proof.
  intros Hr Hc Hv Hk.
  destruct (neighbourhood_ok Hr Hc c Hv) as [nb [Enb Hlen]].
  assert (E : construct_count vm c alive (adapter_new (varcount vm))
              = Ok (bot, Adapter (varcount vm) top)).
  { unfold construct_count, bind, lift, build_node_leaf, ret.
    replace (INT_MAX <? alive + 2) with false
      by (symmetry; apply Z.ltb_ge; lia).
    replace (alive + 2 <? 0) with false by (symmetry; apply Z.ltb_ge; lia).
    rewrite vec_set_ok by (rewrite repeat_length; lia).
    rewrite Enb, Hlen.
    replace (Z.of_nat 9 <? alive) with true by (symmetry; apply Z.ltb_lt; lia).
    reflexivity. }
  split; [exact E |]. unfold bind. rewrite E. reflexivity.
Qed.

End GameOfLife.

(* ------------------------------------------------------------------------- *)
(** ** BuDDy adapter: sizes *)

Lemma to_size_t_small (z : Z) : 0 <= z < 2 ^ 64 -> to_size_t z = z.
Proof. intro H. unfold to_size_t. now apply Z.mod_small. Qed.

Lemma to_int_small (z : Z) : - 2 ^ 31 <= z < 2 ^ 31 -> to_int z = z.
Proof. intro H. unfold to_int. rewrite Z.mod_small; lia. Qed.

Lemma cache_size_value (memory_bytes nodes : Z) :
  0 <= nodes <= max_int ->
  cache_size memory_bytes nodes = Z.quot nodes min_cache_ratio.
Proof.
  unfold max_int. intro H. unfold cache_size. cbv zeta.
  rewrite (to_size_t_small nodes) by lia.
  rewrite Z.min_id. unfold max_cache_ratio, min_cache_ratio.
  rewrite Z.max_r by (Z.to_euclidean_division_equations; lia).
  apply to_int_small. Z.to_euclidean_division_equations. lia.
Qed.

(** X19. [cache_size] returns [nodes / 32] whatever [memory_bytes] is: the
    cache size "according to remaining memory" that it computes has no
    influence on the result, which lies between the two ratio bounds. *)
Theorem cache_size_ignores_memory (memory_bytes memory_bytes' nodes : Z) :
  0 <= nodes <= max_int ->
  cache_size memory_bytes nodes = cache_size memory_bytes' nodes
  /\ cache_size memory_bytes nodes = Z.quot nodes min_cache_ratio
  /\ Z.quot nodes max_cache_ratio <= cache_size memory_bytes nodes.
Proof.
  intro H. rewrite !cache_size_value by assumption.
  split; [reflexivity |]. split; [reflexivity |].
  unfold max_cache_ratio, min_cache_ratio, max_int in *.
  Z.to_euclidean_division_equations. lia.
Qed.

(** X20. [table_size] returns a non-negative [int], the condition of its
    [assert] holds, and the sizes that the constructor passes to [bdd_init],
    the table size and the cache size computed from it, take no more than
    [memory_bytes] by the formula of the file's header,
    [24 * NODE_SLOTS + 16 * CACHE_SLOTS]. *)
Theorem table_size_fits (memory_bytes : Z) :
  0 <= memory_bytes < 2 ^ 64 ->
  0 <= table_size memory_bytes <= max_int
  /\ table_size_assert memory_bytes = true
  /\ sizeof_node * table_size memory_bytes
     + sizeof_cache * cache_size memory_bytes (table_size memory_bytes)
     <= memory_bytes.
Proof.
  intro H.
  assert (Hnorm : add64 (mul64 sizeof_node max_cache_ratio)
                        (mul64 sizeof_cache caches) = 1632) by reflexivity.
  assert (Ha : table_size_assert memory_bytes = true).
  { unfold table_size_assert. cbv zeta. rewrite Hnorm.
    assert (E : mul64 (memory_bytes ÷ 1632) max_cache_ratio
                = memory_bytes ÷ 1632 * 64).
    { unfold mul64, max_cache_ratio. apply to_size_t_small.
      Z.to_euclidean_division_equations. lia. }
    rewrite !E. unfold max_cache_ratio. rewrite Z.quot_mul by lia.
    unfold add64, mul64, sizeof_node, sizeof_cache.
    rewrite !(to_size_t_small (memory_bytes ÷ 1632 * 64 * 24))
      by (Z.to_euclidean_division_equations; lia).
    rewrite !(to_size_t_small (memory_bytes ÷ 1632 * 16))
      by (Z.to_euclidean_division_equations; lia).
    rewrite to_size_t_small by (Z.to_euclidean_division_equations; lia).
    apply Z.leb_le. Z.to_euclidean_division_equations. lia. }
  assert (Ht : table_size memory_bytes
               = Z.min (Z.quot memory_bytes 1632 * 64) max_int).
  { unfold table_size. cbv zeta. rewrite Hnorm.
    unfold mul64, max_cache_ratio.
    rewrite to_size_t_small by (Z.to_euclidean_division_equations; lia).
    apply to_int_small. unfold max_int.
    Z.to_euclidean_division_equations. lia. }
  assert (Hrange : 0 <= table_size memory_bytes <= max_int).
  { rewrite Ht. unfold max_int. Z.to_euclidean_division_equations. lia. }
  split; [exact Hrange |]. split; [exact Ha |]. clear Ha.
  rewrite (cache_size_value _ _ Hrange).
  revert Hrange. rewrite Ht.
  unfold max_int, sizeof_node, sizeof_cache, max_cache_ratio, min_cache_ratio.
  intro Hrange. Z.to_euclidean_division_equations. lia.
Qed.

(* ------------------------------------------------------------------------- *)
(** ** Sylvan adapter: [log2] *)

Lemma pow2_succ (k : Z) : 0 <= k -> 2 ^ (k + 1) = 2 * 2 ^ k.
Proof. intro H. rewrite Z.pow_add_r by lia. lia. Qed.

Lemma pow2_le (a b : Z) : 0 <= a <= b -> 2 ^ a <= 2 ^ b.
Proof. intro H. apply Z.pow_le_mono_r; lia. Qed.

Lemma shift_pow2 (k : Z) :
  0 <= k < 63 -> to_size_t (Z.shiftl (2 ^ k) 1) = 2 ^ (k + 1).
Proof.
  intro H. rewrite Z.shiftl_mul_pow2 by lia. change (2 ^ 1) with 2.
  rewrite pow2_succ by lia.
  replace (2 ^ k * 2) with (2 * 2 ^ k) by lia. apply to_size_t_small.
  pose proof (pow2_le k 62 ltac:(lia)) as Hle.
  change (2 ^ 62) with 4611686018427387904 in Hle.
  change (2 ^ 64) with 18446744073709551616.
  assert (0 < 2 ^ k) by (apply Z.pow_pos_nonneg; lia). lia.
Qed.

Lemma log2_loop_returns (n : Z) (m : nat) :
  n <= 2 ^ 63 ->
  forall k fuel,
    m = Z.to_nat (63 - k) -> 1 <= k <= 63 -> (m < fuel)%nat ->
    k = 1 \/ 2 ^ (k - 1) < n ->
    exists e, log2_loop fuel n (2 ^ k) k = Some e
              /\ 1 <= e <= 63 /\ n <= 2 ^ e /\ (e = 1 \/ 2 ^ (e - 1) < n).
Proof.
  intro Hn. induction m as [| m IH]; intros k fuel Hm Hk Hfuel Hprev.
  - assert (k = 63) by lia. subst k.
    destruct fuel as [| fuel]; [lia |]. cbn [log2_loop].
    replace (2 ^ 63 <? n) with false by (symmetry; apply Z.ltb_ge; lia).
    exists 63. repeat split; try lia; exact Hprev.
  - destruct fuel as [| fuel]; [lia |]. cbn [log2_loop].
    destruct (2 ^ k <? n) eqn:E; [apply Z.ltb_lt in E | apply Z.ltb_ge in E].
    + rewrite shift_pow2 by lia.
      unfold add64. rewrite to_size_t_small
        by (change (2 ^ 64) with 18446744073709551616; lia).
      apply IH; try lia. right. now replace (k + 1 - 1) with k by lia.
    + exists k. repeat split; try lia; exact Hprev.
Qed.

Lemma log2_loop_zero (n : Z) :
  0 < n -> forall fuel exp, log2_loop fuel n 0 exp = None.
Proof.
  intro Hn. induction fuel as [| fuel IH]; intro exp; [reflexivity |].
  cbn [log2_loop]. replace (0 <? n) with true by (symmetry; apply Z.ltb_lt; lia).
  apply IH.
Qed.

Lemma log2_loop_diverges (n : Z) (m : nat) :
  2 ^ 63 < n ->
  forall k fuel exp,
    m = Z.to_nat (63 - k) -> 0 <= k <= 63 ->
    log2_loop fuel n (2 ^ k) exp = None.
Proof.
  intro Hn. induction m as [| m IH]; intros k fuel exp Hm Hk.
  - assert (k = 63) by lia. subst k.
    destruct fuel as [| fuel]; [reflexivity |]. cbn [log2_loop].
    replace (2 ^ 63 <? n) with true by (symmetry; apply Z.ltb_lt; lia).
    change (to_size_t (Z.shiftl (2 ^ 63) 1)) with 0.
    apply log2_loop_zero.
    assert (0 < 2 ^ 63) by reflexivity. lia.
  - destruct fuel as [| fuel]; [reflexivity |]. cbn [log2_loop].
    pose proof (pow2_le k 63 ltac:(lia)) as Hle.
    replace (2 ^ k <? n) with true by (symmetry; apply Z.ltb_lt; lia).
    rewrite shift_pow2 by lia. apply IH; lia.
Qed.

(** X21. [log2(n)] of the Sylvan adapter, for [n] up to [2^63]: the loop
    ends within 62 iterations and returns the least exponent [e >= 1] with
    [n <= 2^e]; it returns 1 also for [n = 0] and [n = 1]. *)
Theorem log2_least_exponent (n : Z) (fuel : nat) :
  0 <= n <= 2 ^ 63 -> (63 <= fuel)%nat ->
  exists e,
    log2 fuel n = Some e
    /\ 1 <= e <= 63 /\ n <= 2 ^ e /\ (e = 1 \/ 2 ^ (e - 1) < n).
Proof.
  intros Hn Hfuel. unfold log2.
  apply (log2_loop_returns n 62 (proj2 Hn) 1 fuel); lia.
Qed.

(** X22. For a [size_t] value [n] above [2^63] the loop of [log2] never
    ends: [val] wraps to 0 and stays below [n]. *)
Theorem log2_never_returns (n : Z) (fuel : nat) :
  2 ^ 63 < n < 2 ^ 64 -> log2 fuel n = None.
Proof.
  intros Hn. unfold log2.
  apply (log2_loop_diverges n 62 (proj1 Hn) 1 fuel 1); [reflexivity | lia].
Qed.

(* ------------------------------------------------------------------------- *)
(** ** Tic-Tac-Toe *)

(** X23. [label_of_position] numbers the 64 positions of the 4x4x4 cube
    without gap or collision. *)
Theorem label_of_position_bijective :
  (forall i j k, 0 <= i < 4 -> 0 <= j < 4 -> 0 <= k < 4 ->
                 0 <= label_of_position i j k < 64)
  /\ (forall i j k i' j' k',
         0 <= i < 4 -> 0 <= j < 4 -> 0 <= k < 4 ->
         0 <= i' < 4 -> 0 <= j' < 4 -> 0 <= k' < 4 ->
         label_of_position i j k = label_of_position i' j' k' ->
         i = i' /\ j = j' /\ k = k')
  /\ (forall x, 0 <= x < 64 ->
                exists i j k, 0 <= i < 4 /\ 0 <= j < 4 /\ 0 <= k < 4
                              /\ label_of_position i j k = x).
Proof.
  assert (L : forall i j k, 0 <= i < 4 -> 0 <= j < 4 -> 0 <= k < 4 ->
                            label_of_position i j k = 16 * i + 4 * j + k).
  { intros i j k Hi Hj Hk. unfold label_of_position, add64, mul64.
    assert (P : 2 ^ 64 = 18446744073709551616) by reflexivity.
    rewrite (to_size_t_small (4 * 4 * i)) by lia.
    rewrite (to_size_t_small (4 * j)) by lia.
    rewrite (to_size_t_small (4 * 4 * i + 4 * j)) by lia.
    rewrite to_size_t_small by lia. lia. }
  split; [| split].
  - intros i j k Hi Hj Hk. rewrite L by assumption. lia.
  - intros i j k i' j' k' Hi Hj Hk Hi' Hj' Hk'. rewrite !L by assumption.
    lia.
  - intros x Hx. exists (x / 16), ((x / 4) mod 4), (x mod 4).
    assert (H1 : 0 <= x / 16 < 4) by (Z.div_mod_to_equations; lia).
    assert (H2 : 0 <= (x / 4) mod 4 < 4) by (Z.div_mod_to_equations; lia).
    assert (H3 : 0 <= x mod 4 < 4) by (Z.div_mod_to_equations; lia).
    repeat (split; [lia |]). rewrite L by assumption.
    Z.div_mod_to_equations. lia.
Qed.

Lemma eval_ite (A : Z -> bool) (f g h : dd) :
  eval A (ite f g h) = if eval A f then eval A g else eval A h.
Proof.
  unfold ite. rewrite !eval_apply, eval_negate.
  destruct (eval A f), (eval A g), (eval A h); reflexivity.
Qed.

(** X24. The diagram of [construct_is_not_winning] holds exactly when the
    four positions of the line are neither all true nor all false: no
    player owns the whole line. *)
Theorem construct_is_not_winning_correct (line : line4) (A : Z -> bool) :
  eval A (construct_is_not_winning line)
  = negb (A (line_at line 0) && A (line_at line 1)
          && A (line_at line 2) && A (line_at line 3))
    && (A (line_at line 0) || A (line_at line 1)
        || A (line_at line 2) || A (line_at line 3)).
Proof.
  unfold construct_is_not_winning.
  change (downto (4 - 1) 0) with [3; 2; 1; 0].
  unfold fold_left, not_winning_step. cbn [fst snd Z.eqb Z.ltb Z.compare].
  rewrite !eval_ite. simpl eval.
  destruct (A (line_at line 0)), (A (line_at line 1)),
    (A (line_at line 2)), (A (line_at line 3)); reflexivity.
Qed.


Lemma for_each_downto {S : Type} (body : Z -> S -> res S)
      (P : Z -> S -> Prop) (lo hi0 : Z) :
  (forall i s, lo <= i <= hi0 -> P (i + 1) s ->
               exists s', body i s = Ok s' /\ P i s') ->
  forall hi s, lo - 1 <= hi <= hi0 -> P (hi + 1) s ->
  exists s', for_each body (downto hi lo) s = Ok s' /\ P lo s'.
Proof.
  intros Hbody hi.
  remember (Z.to_nat (hi + 1 - lo)) as n eqn:Hn.
  revert hi Hn. induction n as [| n IH]; intros hi Hn s Hhi HP.
  - rewrite downto_nil by lia. simpl. exists s.
    replace lo with (hi + 1) by lia. auto.
  - rewrite downto_cons by lia. simpl.
    destruct (Hbody hi s) as [s1 [E1 P1]]; [lia | assumption |].
    rewrite E1. simpl. apply IH; [lia | lia |].
    now replace (hi - 1 + 1) with hi by lia.
Qed.

Lemma count_false_step (A : Z -> bool) (L : Z) :
  0 <= L <= 63 ->
  count_false A L = count_false A (L + 1) + (if A L then 0 else 1).
Proof.
  intro H. unfold count_false. rewrite (upto_cons L 63) by lia. simpl filter.
  destruct (A L); simpl negb; cbv iota; [lia |].
  simpl List.length. lia.
Qed.

Lemma count_false_bound (A : Z -> bool) (L : Z) :
  0 <= L <= 64 -> 0 <= count_false A L <= 64 - L.
Proof.
  intro H. unfold count_false.
  pose proof (filter_length_le (fun x => negb (A x)) (upto L 63)) as Hle.
  rewrite length_upto in Hle. lia.
Qed.

Lemma vec_at_map_upto {B : Type} (f : Z -> B) (N idx : Z) :
  0 <= idx <= N -> vec_at (map f (upto 0 N)) idx = Ok (f idx).
Proof.
  intro H. unfold vec_at, upto.
  replace (idx <? 0) with false by (symmetry; apply Z.ltb_ge; lia).
  rewrite !nth_error_map, nth_error_seq.
  replace (Z.to_nat idx <? Z.to_nat (N + 1 - 0))%nat with true
    by (symmetry; apply Nat.ltb_lt; lia).
  simpl. f_equal. f_equal. lia.
Qed.

Lemma init_level_spec (N L : Z) (parts : list dd) :
  0 <= N <= 64 -> 0 <= L <= 63 -> init_inv N (L + 1) parts ->
  exists parts', init_level N L parts = Ok parts' /\ init_inv N L parts'.
Proof.
  intros HN HL [Hlen Hsem]. unfold init_level. cbv zeta.
  set (lo := if sub64 63 N <? L
             then sub64 N (add64 (sub64 63 L) 1) else 0).
  assert (P64 : 2 ^ 64 = 18446744073709551616) by reflexivity.
  assert (Hlo : 0 <= lo <= Z.min L N /\ (lo = 0 \/ lo = N - 64 + L)).
  { unfold lo, sub64, add64. destruct (Z.eq_dec N 64) as [-> | Hne].
    - change (to_size_t (63 - 64)) with 18446744073709551615.
      replace (18446744073709551615 <? L) with false
        by (symmetry; apply Z.ltb_ge; lia).
      lia.
    - rewrite (to_size_t_small (63 - N)) by lia.
      destruct (63 - N <? L) eqn:E;
        [apply Z.ltb_lt in E | apply Z.ltb_ge in E]; [| lia].
      rewrite (to_size_t_small (63 - L)) by lia.
      rewrite (to_size_t_small (63 - L + 1)) by lia.
      rewrite to_size_t_small by lia. lia. }
  clearbody lo.
  destruct (for_each_upto (init_update N L)
              (fun j t =>
                 lo <= j /\ Z.of_nat (List.length t) = N + 1
                 /\ (forall idx, idx < lo \/ j <= idx ->
                                 vec_at t idx = vec_at parts idx)
                 /\ (forall idx p, lo <= idx < j -> vec_at t idx = Ok p ->
                                   forall A, eval A p
                                             = (idx + count_false A L =? N)))
              (Z.min L N)) with (lo := lo) (s := parts)
    as [parts' [E [_ [Hlen' [Hsame Hnew]]]]].
  - intros j t Hj [Hlj [Hlt [Hsame Hnew]]].
    destruct (vec_at_ok parts j) as [low [El _]]; [lia |].
    assert (Sl : forall A, eval A low = (j + count_false A (L + 1) =? N))
      by (apply (Hsem j low); [lia | exact El]).
    assert (Hhigh : exists high,
               (if j =? N then Ok bot else vec_at t (add64 j 1)) = Ok high
               /\ forall A, eval A high = (j + 1 + count_false A (L + 1) =? N)).
    { destruct (j =? N) eqn:EN;
        [apply Z.eqb_eq in EN | apply Z.eqb_neq in EN].
      - exists bot. split; [reflexivity |]. intro A. simpl. symmetry.
        apply Z.eqb_neq. pose proof (count_false_bound A (L + 1)). lia.
      - unfold add64. rewrite to_size_t_small by lia.
        rewrite (Hsame (j + 1)) by lia.
        destruct (vec_at_ok parts (j + 1)) as [high [Eh _]]; [lia |].
        exists high. split; [exact Eh |].
        apply (Hsem (j + 1) high); [lia | exact Eh]. }
    destruct Hhigh as [high [Eh Sh]].
    unfold init_update. rewrite (Hsame j) by lia. rewrite El. simpl rbind.
    rewrite Eh. simpl rbind. rewrite vec_set_ok by lia.
    eexists. split; [reflexivity |].
    split; [lia |]. split; [now rewrite set_nth_length |]. split.
    + intros idx Hidx. rewrite vec_at_set_nth_neq by lia.
      apply Hsame. lia.
    + intros idx p Hidx Ep A.
      destruct (Z.eq_dec idx j) as [-> | Hne].
      * rewrite vec_at_set_nth_eq in Ep by lia. injection Ep as <-.
        rewrite eval_ite, (count_false_step A L) by lia. simpl eval.
        rewrite (Sl A), (Sh A).
        destruct (A L); f_equal; lia.
      * rewrite vec_at_set_nth_neq in Ep by lia.
        apply (Hnew idx p); [lia | exact Ep].
  - lia.
  - split; [lia |]. split; [exact Hlen |].
    split; [reflexivity |]. intros idx p Hidx. lia.
  - exists parts'. split; [exact E |]. split; [exact Hlen' |].
    intros idx p Hidx Ep A.
    destruct (Z_lt_ge_dec idx lo) as [Hlt | Hge].
    + rewrite Hsame in Ep by lia.
      rewrite (Hsem idx p ltac:(lia) Ep A).
      pose proof (count_false_bound A L ltac:(lia)).
      pose proof (count_false_bound A (L + 1) ltac:(lia)).
      replace (idx + count_false A (L + 1) =? N) with false
        by (symmetry; apply Z.eqb_neq; lia).
      symmetry. apply Z.eqb_neq. lia.
    + apply (Hnew idx p); [lia | exact Ep].
Qed.

(** X25. [construct_init] for [N] from 0 to 64: no access leaves the array
    [init_parts], and the diagram holds exactly for the assignments that
    make [N] of the 64 variables false. *)
Theorem construct_init_exactly_N (N : Z) :
  0 <= N <= 64 ->
  exists r, construct_init N = Ok r
            /\ forall A : Z -> bool, eval A r = (count_false A 0 =? N).
Proof.
  intro HN. unfold construct_init. cbv zeta.
  destruct (for_each_downto (init_level N) (init_inv N) 0 63)
    with (hi := 63) (s := map (fun i => if i <? N then bot else top)
                              (upto 0 N))
    as [parts [E [Hlen Hsem]]].
  - intros L parts HL Hinv. apply init_level_spec; [exact HN | lia | exact Hinv].
  - lia.
  - split.
    + rewrite length_map, length_upto. lia.
    + intros idx p Hidx Ep A. rewrite vec_at_map_upto in Ep by lia.
      injection Ep as <-.
      assert (C : count_false A (63 + 1) = 0) by reflexivity.
      rewrite C.
      destruct (idx <? N) eqn:El;
        [apply Z.ltb_lt in El | apply Z.ltb_ge in El]; simpl; symmetry.
      * apply Z.eqb_neq. lia.
      * apply Z.eqb_eq. lia.
  - rewrite E. simpl rbind.
    destruct (vec_at_ok parts 0) as [r [Er _]]; [lia |].
    exists r. split; [exact Er |]. intro A.
    rewrite (Hsem 0 r ltac:(lia) Er A). f_equal.
Qed.

(* ------------------------------------------------------------------------- *)
(** ** Tic-Tac-Toe: the lines and the accumulated diagram *)

Lemma push_each {B : Type} (f : Z -> B) (xs : list Z) (ls : list B) :
  fold_left (fun ls i => ls ++ [f i]) xs ls = ls ++ map f xs.
Proof.
  revert ls. induction xs as [| x xs IH]; intro ls; simpl.
  - now rewrite app_nil_r.
  - rewrite IH, <- app_assoc. reflexivity.
Qed.

Lemma push_each2 {B : Type} (f : Z -> Z -> B) (xs ys : list Z)
      (ls : list B) :
  fold_left (fun ls i => fold_left (fun ls j => ls ++ [f i j]) ys ls) xs ls
  = ls ++ flat_map (fun i => map (f i) ys) xs.
Proof.
  revert ls. induction xs as [| x xs IH]; intro ls; simpl.
  - now rewrite app_nil_r.
  - rewrite IH, push_each, <- app_assoc. reflexivity.
Qed.

Lemma construct_lines_app (lines : list line4) :
  construct_lines lines = lines ++ construct_lines [].
Proof.
  unfold construct_lines. cbv zeta.
  rewrite !push_each2, !push_each. rewrite ?app_nil_l, <- ?app_assoc.
  reflexivity.
Qed.

Lemma forallb_upto (f : Z -> bool) (lo hi : Z) :
  forallb f (upto lo hi) = true -> forall x, lo <= x <= hi -> f x = true.
Proof.
  intros H x Hx. rewrite forallb_forall in H. apply H, in_upto, Hx.
Qed.

Lemma existsb_upto (f : Z -> bool) (lo hi : Z) :
  existsb f (upto lo hi) = true -> exists x, lo <= x <= hi /\ f x = true.
Proof.
  intro H. apply existsb_exists in H. destruct H as [x [Hin Hx]].
  exists x. split; [apply in_upto, Hin | exact Hx].
Qed.

Lemma line_eqb_eq (a b : line4) : line_eqb a b = true -> a = b.
Proof.
  destruct a as [[[a0 a1] a2] a3], b as [[[b0 b1] b2] b3].
  unfold line_eqb. simpl. rewrite !andb_true_iff, !Z.eqb_eq.
  intros [[[-> ->] ->] ->]. reflexivity.
Qed.

Lemma line_mem_In (l : line4) (lines : list line4) :
  line_mem l lines = true -> In l lines.
Proof.
  unfold line_mem. intro H. apply existsb_exists in H.
  destruct H as [x [Hin Hx]]. apply line_eqb_eq in Hx. now subst x.
Qed.

Lemma in_cube_spec (i j k : Z) :
  in_cube i j k = true <-> 0 <= i <= 3 /\ 0 <= j <= 3 /\ 0 <= k <= 3.
Proof.
  unfold in_cube. rewrite !andb_true_iff, !Z.leb_le, !Z.ltb_lt. lia.
Qed.

Lemma in_straight_lines (l : line4) :
  In l straight_lines ->
  exists i j k di dj dk,
    in_cube i j k = true
    /\ in_cube (i + 3 * di) (j + 3 * dj) (k + 3 * dk) = true
    /\ is_step di dj dk = true
    /\ l = line_from i j k di dj dk.
Proof.
  unfold straight_lines. intro H.
  apply in_flat_map in H. destruct H as [i [_ H]].
  apply in_flat_map in H. destruct H as [j [_ H]].
  apply in_flat_map in H. destruct H as [k [_ H]].
  apply in_flat_map in H. destruct H as [di [_ H]].
  apply in_flat_map in H. destruct H as [dj [_ H]].
  apply in_flat_map in H. destruct H as [dk [_ H]].
  exists i, j, k, di, dj, dk.
  destruct (in_cube i j k) eqn:C1; [| destruct H].
  destruct (in_cube (i + 3 * di) (j + 3 * dj) (k + 3 * dk)) eqn:C2;
    [| destruct H].
  destruct (is_step di dj dk) eqn:C3; [| destruct H].
  simpl in H. destruct H as [<- | []]. auto.
Qed.

Lemma lines_are_straight_spec (ls : list line4) (l : line4) :
  lines_are_straight ls = true -> In l ls ->
  line_at l 0 < line_at l 1 /\ line_at l 1 < line_at l 2
  /\ line_at l 2 < line_at l 3
  /\ exists i j k di dj dk,
      in_cube i j k = true
      /\ in_cube (i + 3 * di) (j + 3 * dj) (k + 3 * dk) = true
      /\ is_step di dj dk = true
      /\ l = line_from i j k di dj dk.
Proof.
  unfold lines_are_straight. cbv zeta. intros C Hl.
  rewrite forallb_forall in C. specialize (C l Hl).
  apply andb_true_iff in C. destruct C as [C C'].
  apply andb_true_iff in C. destruct C as [C H2].
  apply andb_true_iff in C. destruct C as [H0 H1].
  apply Z.ltb_lt in H0, H1, H2.
  repeat (split; [assumption |]).
  apply in_straight_lines. now apply line_mem_In.
Qed.

Lemma straight_lines_listed_spec (ls : list line4) (i j k di dj dk : Z) :
  straight_lines_listed ls = true ->
  in_cube i j k = true ->
  in_cube (i + 3 * di) (j + 3 * dj) (k + 3 * dk) = true ->
  is_step di dj dk = true ->
  In (line_from i j k di dj dk) ls
  \/ In (line_from (i + 3 * di) (j + 3 * dj) (k + 3 * dk)
                   (- di) (- dj) (- dk)) ls.
Proof.
  intros C Hp Hq Hd.
  apply in_cube_spec in Hp.
  assert (Hd' := Hd). unfold is_step in Hd'.
  rewrite !andb_true_iff, !Z.leb_le in Hd'.
  unfold straight_lines_listed in C.
  pose proof (forallb_upto _ _ _ C i ltac:(lia)) as C1. cbv beta in C1.
  pose proof (forallb_upto _ _ _ C1 j ltac:(lia)) as C2. cbv beta in C2.
  pose proof (forallb_upto _ _ _ C2 k ltac:(lia)) as C3. cbv beta in C3.
  pose proof (forallb_upto _ _ _ C3 di ltac:(lia)) as C4. cbv beta in C4.
  pose proof (forallb_upto _ _ _ C4 dj ltac:(lia)) as C5. cbv beta in C5.
  pose proof (forallb_upto _ _ _ C5 dk ltac:(lia)) as C6. cbv beta in C6.
  rewrite Hq, Hd in C6. cbn [andb implb] in C6.
  apply orb_true_iff in C6.
  destruct C6 as [C6 | C6]; [left | right]; now apply line_mem_In.
Qed.

(** X26. [construct_lines] appends to the global [lines], so that a second
    call doubles every line. On the empty vector it yields 76 different
    lines, each with its four labels in increasing order; they are the
    straight lines of four positions in the 4x4x4 cube, every such line
    listed in one of its two directions. *)
Theorem construct_lines_straight_lines :
  (forall lines, construct_lines lines = lines ++ construct_lines [])
  /\ List.length (construct_lines []) = 76%nat
  /\ NoDup (construct_lines [])
  /\ (forall l, In l (construct_lines []) ->
        line_at l 0 < line_at l 1 /\ line_at l 1 < line_at l 2
        /\ line_at l 2 < line_at l 3
        /\ exists i j k di dj dk,
            in_cube i j k = true
            /\ in_cube (i + 3 * di) (j + 3 * dj) (k + 3 * dk) = true
            /\ is_step di dj dk = true
            /\ l = line_from i j k di dj dk)
  /\ (forall i j k di dj dk,
        in_cube i j k = true ->
        in_cube (i + 3 * di) (j + 3 * dj) (k + 3 * dk) = true ->
        is_step di dj dk = true ->
        In (line_from i j k di dj dk) (construct_lines [])
        \/ In (line_from (i + 3 * di) (j + 3 * dj) (k + 3 * dk)
                         (- di) (- dj) (- dk))
              (construct_lines [])).
Proof.
  split; [exact construct_lines_app |].
  assert (L : List.length (construct_lines []) = 76%nat)
    by (vm_compute; reflexivity).
  assert (E : nodup line4_eq_dec (construct_lines []) = construct_lines [])
    by (vm_compute; reflexivity).
  assert (C : lines_are_straight (construct_lines []) = true)
    by (vm_compute; reflexivity).
  assert (D : straight_lines_listed (construct_lines []) = true)
    by (vm_compute; reflexivity).
  revert L E C D. generalize (construct_lines []). intros ls L E C D.
  split; [exact L |].
  split; [rewrite <- E; apply NoDup_nodup |].
  split.
  - intros l Hl. now apply (lines_are_straight_spec ls).
  - intros i j k di dj dk. now apply straight_lines_listed_spec.
Qed.

Lemma init_levels_spec (N : Z) :
  0 <= N <= 64 ->
  exists parts,
    for_each (init_level N) (downto 63 0)
             (map (fun i => if i <? N then bot else top) (upto 0 N))
    = Ok parts
    /\ init_inv N 0 parts.
Proof.
  intro HN.
  apply (for_each_downto (init_level N) (init_inv N) 0 63).
  - intros L parts HL Hinv. apply init_level_spec; [exact HN | lia | exact Hinv].
  - lia.
  - split.
    + rewrite length_map, length_upto. lia.
    + intros idx p Hidx Ep A. rewrite vec_at_map_upto in Ep by lia.
      injection Ep as <-.
      assert (C : count_false A (63 + 1) = 0) by reflexivity.
      rewrite C.
      destruct (idx <? N) eqn:El;
        [apply Z.ltb_lt in El | apply Z.ltb_ge in El]; simpl; symmetry.
      * apply Z.eqb_neq. lia.
      * apply Z.eqb_eq. lia.
Qed.

Lemma eval_not_winning_fold (A : Z -> bool) (lines : list line4) (r : dd) :
  eval A (fold_left (fun r line => apply_and r (construct_is_not_winning line))
                    lines r) = true
  <-> eval A r = true
      /\ forall l, In l lines ->
                   eval A (construct_is_not_winning l) = true.
Proof.
  revert r. induction lines as [| l lines IH]; intro r; simpl.
  - split; [intro H; split; [exact H | intros l []] | intros [H _]; exact H].
  - rewrite IH. unfold apply_and. rewrite eval_apply, andb_true_iff.
    split.
    + intros [[Hr Hl] Hls]. split; [exact Hr |].
      intros l' [<- | Hin]; [exact Hl | now apply Hls].
    + intros [Hr Hls]. split; [split; [exact Hr |] |].
      * apply Hls. now left.
      * intros l' Hin. apply Hls. now right.
Qed.

Ltac eval_not_winning :=
  unfold construct_is_not_winning;
  change (downto (4 - 1) 0) with [3; 2; 1; 0];
  unfold fold_left, not_winning_step; cbn [fst snd Z.eqb Z.ltb Z.compare];
  rewrite !eval_ite; simpl eval.

(** X27. For [N] from 0 to 64 the diagram that [run_tic_tac_toe] builds and
    counts, [construct_init] conjoined with [construct_is_not_winning] for
    every line, holds exactly for the assignments that make [N] of the 64
    variables false and leave no line of [lines] with its four variables
    all true or all false. *)
Theorem tic_tac_toe_res_correct (N : Z) (lines : list line4) :
  0 <= N <= 64 ->
  exists r,
    tic_tac_toe_res N lines = Ok r
    /\ forall A : Z -> bool,
        eval A r = true
        <-> count_false A 0 = N
            /\ forall l, In l (construct_lines lines) ->
                 A (line_at l 0) && A (line_at l 1)
                 && A (line_at l 2) && A (line_at l 3) = false
                 /\ A (line_at l 0) || A (line_at l 1)
                    || A (line_at l 2) || A (line_at l 3) = true.
Proof.
  intro HN.
  assert (Hinit : exists r, construct_init N = Ok r
                            /\ forall A, eval A r = (count_false A 0 =? N)).
  { unfold construct_init.
    destruct (init_levels_spec N HN) as [parts [E [Hlen Hsem]]].
    rewrite E. cbn [rbind].
    destruct (vec_at_ok parts 0) as [r [Er _]]; [lia |].
    exists r. split; [exact Er |]. intro A.
    now rewrite (Hsem 0 r ltac:(lia) Er A). }
  destruct Hinit as [r [Er Hr]].
  unfold tic_tac_toe_res. rewrite Er. cbn [rbind].
  generalize (construct_lines lines). intro ls.
  eexists. split; [reflexivity |].
  intro A. rewrite eval_not_winning_fold, Hr, Z.eqb_eq.
  assert (W : forall l,
             eval A (construct_is_not_winning l) = true
             <-> A (line_at l 0) && A (line_at l 1)
                 && A (line_at l 2) && A (line_at l 3) = false
                 /\ A (line_at l 0) || A (line_at l 1)
                    || A (line_at l 2) || A (line_at l 3) = true).
  { intro l. eval_not_winning.
    destruct (A (line_at l 0)), (A (line_at l 1)),
      (A (line_at l 2)), (A (line_at l 3)); simpl;
      split; try (intros [? ?]); try split; congruence. }
  split; intros [Hc Hl]; (split; [exact Hc |]); intros l Hin;
    apply W, Hl, Hin.
Qed.

(* ------------------------------------------------------------------------- *)
(** ** Common header: [ilog2] *)

Lemma to_unsigned_small (z : Z) : 0 <= z < 2 ^ 32 -> to_unsigned z = z.
Proof. intro H. unfold to_unsigned. now apply Z.mod_small. Qed.

Lemma testbit_top (b : nat) (n : Z) :
  0 <= n < 2 ^ Z.of_nat (S b) ->
  Z.testbit n (Z.of_nat b) = (2 ^ Z.of_nat b <=? n).
Proof.
  intro H. destruct (2 ^ Z.of_nat b <=? n) eqn:E;
    [apply Z.leb_le in E | apply Z.leb_gt in E].
  - assert (L : Z.log2 n = Z.of_nat b).
    { apply Z.log2_unique; [lia |].
      replace (Z.of_nat b + 1) with (Z.of_nat (S b)) by lia. lia. }
    rewrite <- L. apply Z.bit_log2.
    assert (0 < 2 ^ Z.of_nat b) by (apply Z.pow_pos_nonneg; lia). lia.
  - destruct (Z.eq_dec n 0) as [-> | Hn]; [apply Z.bits_0 |].
    apply Z.bits_above_log2; [lia |]. apply Z.log2_lt_pow2; lia.
Qed.

Lemma clz_from_log2 (b : nat) (n : Z) :
  0 < n < 2 ^ Z.of_nat b -> clz_from b n = Z.of_nat b - 1 - Z.log2 n.
Proof.
  induction b as [| b IH]; intro H.
  - simpl in H. lia.
  - cbn [clz_from]. rewrite testbit_top by lia.
    destruct (2 ^ Z.of_nat b <=? n) eqn:E;
      [apply Z.leb_le in E | apply Z.leb_gt in E].
    + assert (L : Z.log2 n = Z.of_nat b).
      { apply Z.log2_unique; [lia |].
        replace (Z.of_nat b + 1) with (Z.of_nat (S b)) by lia. lia. }
      lia.
    + rewrite IH by lia. lia.
Qed.

Lemma ilog2_gnuc_log2 (n : Z) :
  0 < n < 2 ^ 64 -> ilog2_gnuc n = Z.log2 n /\ 0 <= Z.log2 n <= 63.
Proof.
  intro H.
  assert (L : 0 <= Z.log2 n < 64).
  { split; [apply Z.log2_nonneg |]. apply Z.log2_lt_pow2; lia. }
  split; [| lia].
  unfold ilog2_gnuc, builtin_clzll.
  rewrite (clz_from_log2 64 n) by (change (Z.of_nat 64) with 64; lia).
  change (Z.of_nat 64) with 64. change (mul64 8 8) with 64.
  assert (P : 2 ^ 64 = 18446744073709551616) by reflexivity.
  assert (Q : 2 ^ 32 = 4294967296) by reflexivity.
  unfold sub64.
  rewrite (to_size_t_small (64 - 1 - Z.log2 n)) by lia.
  rewrite (to_size_t_small (64 - (64 - 1 - Z.log2 n))) by lia.
  rewrite to_size_t_small by lia.
  rewrite to_unsigned_small by lia. lia.
Qed.

(** X28. Under [__GNUC__], [ilog2(n)] for a non-zero 64-bit [n] is the
    documented [floor(log2(n))]: the exponent [e] from 0 to 63 with
    [2^e <= n < 2^(e+1)]. *)
Theorem ilog2_gnuc_floor (n : Z) :
  0 < n < 2 ^ 64 ->
  0 <= ilog2_gnuc n <= 63
  /\ 2 ^ ilog2_gnuc n <= n < 2 ^ (ilog2_gnuc n + 1).
Proof.
  intro H. destruct (ilog2_gnuc_log2 n H) as [-> L].
  split; [exact L |]. apply Z.log2_spec. lia.
Qed.

Lemma ilog2_loop_returns (n : Z) (m : nat) :
  n <= 2 ^ 63 ->
  forall k fuel,
    m = Z.to_nat (63 - k) -> 1 <= k <= 63 -> (m < fuel)%nat ->
    k = 1 \/ 2 ^ (k - 1) < n ->
    exists e, ilog2_loop fuel n (2 ^ k) k = Some e
              /\ 1 <= e <= 63 /\ n <= 2 ^ e /\ (e = 1 \/ 2 ^ (e - 1) < n).
Proof.
  intro Hn. induction m as [| m IH]; intros k fuel Hm Hk Hfuel Hprev.
  - assert (k = 63) by lia. subst k.
    destruct fuel as [| fuel]; [lia |]. cbn [ilog2_loop].
    replace (2 ^ 63 <? n) with false by (symmetry; apply Z.ltb_ge; lia).
    exists 63. repeat split; try lia; exact Hprev.
  - destruct fuel as [| fuel]; [lia |]. cbn [ilog2_loop].
    destruct (2 ^ k <? n) eqn:E; [apply Z.ltb_lt in E | apply Z.ltb_ge in E].
    + rewrite shift_pow2 by lia.
      rewrite to_unsigned_small
        by (change (2 ^ 32) with 4294967296; lia).
      apply IH; try lia. right. now replace (k + 1 - 1) with k by lia.
    + exists k. repeat split; try lia; exact Hprev.
Qed.

(** X29. Without [__GNUC__], [ilog2(n)] for [0 < n <= 2^63] returns the
    least exponent [e >= 1] with [n <= 2^e], not the documented
    [floor(log2(n))]: the two branches of [ilog2] agree exactly when [n] is
    a power of two from 2 on. *)
Theorem ilog2_else_differs (n : Z) (fuel : nat) :
  0 < n <= 2 ^ 63 -> (63 <= fuel)%nat ->
  exists e,
    ilog2_else fuel n = Some e
    /\ 1 <= e <= 63 /\ n <= 2 ^ e /\ (e = 1 \/ 2 ^ (e - 1) < n)
    /\ (e = ilog2_gnuc n <-> n = 2 ^ e).
Proof.
  intros Hn Hfuel. unfold ilog2_else.
  destruct (ilog2_loop_returns n 62 ltac:(lia) 1 fuel)
    as [e [E [He [Hup Hlow]]]]; [reflexivity | lia | lia | now left |].
  exists e. split; [exact E |]. split; [exact He |].
  split; [exact Hup |]. split; [exact Hlow |].
  assert (P : 2 ^ 63 < 2 ^ 64) by reflexivity.
  destruct (ilog2_gnuc_log2 n ltac:(lia)) as [G L]. rewrite G.
  pose proof (Z.log2_spec n ltac:(lia)) as S.
  split.
  - intros ->. lia.
  - intro Hp. rewrite Hp. symmetry. apply Z.log2_pow2. lia.
Qed.


(* ------------------------------------------------------------------------- *)
(** ** Sylvan pigeonhole: the clause accumulator *)

Lemma existsb_rev' {B : Type} (f : B -> bool) (l : list B) :
  existsb f (rev l) = existsb f l.
Proof.
  induction l as [| x l IH]; [reflexivity |].
  simpl. rewrite existsb_app, IH. simpl. rewrite orb_false_r.
  apply orb_comm.
Qed.

Lemma eval_clause_chain (A : Z -> bool) (l : clause_t) (c0 : dd) :
  eval A (fold_left (fun c (v : literal_t) =>
                       mk_node (fst v)
                               (if snd v then top else c)
                               (if snd v then c else top)) l c0)
  = existsb (fun v : literal_t => xorb (A (fst v)) (snd v)) l || eval A c0.
Proof.
  revert c0. induction l as [| [x neg] l IH]; intro c0; [reflexivity |].
  cbn [fold_left existsb fst snd]. rewrite IH, eval_mk_node.
  destruct (A x), neg,
    (existsb (fun v : literal_t => xorb (A (fst v)) (snd v)) l),
    (eval A c0); reflexivity.
Qed.

(** X30. The lambda [sat_and_clause] conjoins the accumulator with the
    disjunction of the clause's literals: a literal [(x, false)] holds when
    variable [x] is true and a literal [(x, true)] when it is false; the
    empty clause makes the accumulator false. *)
Theorem sat_and_clause_disjunction (clause : clause_t) (sat_acc : dd)
        (A : Z -> bool) :
  eval A (sat_and_clause clause sat_acc)
  = eval A sat_acc
    && existsb (fun v : literal_t =>
                  if snd v then negb (A (fst v)) else A (fst v)) clause.
Proof.
  unfold sat_and_clause, apply_and. cbv zeta.
  rewrite eval_apply, eval_clause_chain, existsb_rev'. simpl eval.
  rewrite orb_false_r. f_equal.
  induction clause as [| [x neg] clause IH]; [reflexivity |].
  cbn [existsb fst snd]. rewrite IH. destruct (A x), neg; reflexivity.
Qed.

(* ------------------------------------------------------------------------- *)
(** ** Concrete grids *)

Lemma visit_stored_perm (m : list (cell * Z)) : Permutation (visit_stored m) m.
Proof. apply Permutation_refl. Defined.

Lemma vm_1x1_built : var_map_new 1 1 hash_id visit_stored none = Ok vm_1x1.
Proof. vm_compute. reflexivity. Defined.

Lemma vm_1x2_none_built :
  var_map_new 1 2 hash_id visit_stored none = Ok vm_1x2_none.
Proof. vm_compute. reflexivity. Defined.

Lemma vm_1x2_mirror_built :
  var_map_new 1 2 hash_id visit_stored mirror = Ok vm_1x2_mirror.
Proof. vm_compute. reflexivity. Defined.

Lemma vm_6x1_built : var_map_new 6 1 hash_id visit_stored none = Ok vm_6x1.
Proof. vm_compute. reflexivity. Defined.

(** C1 (the code at the failing inputs). On the 1x1 grid the diagram built
    for "exactly one alive" around (1,1) accepts an assignment with two of
    the nine target variables true, and the diagram built for "exactly three
    alive" rejects an assignment with three of them true. *)
Theorem construct_count_miscounts :
  exists r1 a1 r3 a3,
    var_map_new 1 1 hash_id visit_stored none = Ok vm_1x1
    /\ target_vars 1 1 hash_id vm_1x1 (Cell 1 1 post)
       = Ok [0; 1; 2; 3; 4; 6; 7; 8; 9]
    /\ construct_count 1 1 vm_1x1 (Cell 1 1 post) 1 (adapter_new 10)
       = Ok (r1, a1)
    /\ alive_count two_alive [0; 1; 2; 3; 4; 6; 7; 8; 9] = 2
    /\ eval two_alive r1 = true
    /\ construct_count 1 1 vm_1x1 (Cell 1 1 post) 3 (adapter_new 10)
       = Ok (r3, a3)
    /\ alive_count three_alive [0; 1; 2; 3; 4; 6; 7; 8; 9] = 3
    /\ eval three_alive r3 = false.
Proof.
  do 4 eexists.
  split; [exact vm_1x1_built |].
  split; [vm_compute; reflexivity |].
  split; [vm_compute; reflexivity |].
  split; [vm_compute; reflexivity |].
  split; [vm_compute; reflexivity |].
  split; [vm_compute; reflexivity |].
  split; vm_compute; reflexivity.
Qed.

Lemma construct_eq_correct_witness :
  exists x_pre x_post r a',
    var_from_cell 1 1 hash_id vm_1x1 (cell_reprime (Cell 1 1 post) pre)
    = Ok x_pre
    /\ var_from_cell 1 1 hash_id vm_1x1 (Cell 1 1 post) = Ok x_post
    /\ x_pre < x_post
    /\ construct_eq 1 1 hash_id vm_1x1 (Cell 1 1 post) (adapter_new 10)
       = Ok (r, a')
    /\ forall A : Z -> bool, eval A r = Bool.eqb (A x_pre) (A x_post).
Proof.
  apply (construct_eq_correct 1 1 hash_id visit_stored visit_stored_perm none).
  - lia.
  - lia.
  - exact vm_1x1_built.
  - reflexivity.
  - reflexivity.
Defined.

Lemma var_map_pre_count_witness :
  (1 <= 126 -> 1 <= 126 ->
   exists vm, var_map_new 1 1 hash_id visit_stored mirror = Ok vm)
  /\ forall vm,
      var_map_new 1 1 hash_id visit_stored mirror = Ok vm ->
      varcount_of vm pre = rows 1 pre * cols 1 pre
      /\ (forall c, prime c = pre -> out_of_range 1 1 c = false ->
                    exists x, var_from_cell 1 1 hash_id vm c = Ok x
                              /\ 0 <= x < varcount vm)
      /\ (forall c1 c2 x,
             prime c1 = pre -> prime c2 = pre ->
             var_from_cell 1 1 hash_id vm c1 = Ok x ->
             var_from_cell 1 1 hash_id vm c2 = Ok x ->
             c1 = c2).
Proof.
  apply (var_map_pre_count 1 1 hash_id visit_stored visit_stored_perm mirror).
  - lia.
  - lia.
Defined.

Lemma var_map_mirror_post_le_witness :
  varcount_of vm_1x2_mirror post <= varcount_of vm_1x2_none post
  /\ forall c, prime c = post -> out_of_range 1 2 c = false ->
                var_from_cell 1 2 hash_id vm_1x2_mirror
                              (Cell (row c) (MAX_COL 2 pre - col c) post)
                = var_from_cell 1 2 hash_id vm_1x2_mirror c.
Proof.
  apply (var_map_mirror_post_le 1 2 hash_id visit_stored visit_stored_perm).
  - lia.
  - lia.
  - exact vm_1x2_none_built.
  - exact vm_1x2_mirror_built.
Defined.

Lemma var_map_inverse_round_trip_witness :
  exists c, cell_from_var vm_1x2_mirror 8 = Ok c
            /\ var_from_cell 1 2 hash_id vm_1x2_mirror c = Ok 8.
Proof.
  apply (var_map_inverse_round_trip 1 2 hash_id visit_stored visit_stored_perm
                                    mirror).
  - lia.
  - lia.
  - exact vm_1x2_mirror_built.
  - vm_compute. split; [discriminate | reflexivity].
Defined.

Lemma sweep_quantification_schedule_witness :
  exists (rel : Z -> Z -> dd) r a',
    (forall i j a0,
        1 <= i <= 6 -> 1 <= j <= 1 ->
        a_varcount a0 = varcount vm_6x1 ->
        exists a1, construct_rel 6 1 hash_id vm_6x1 (Cell i j pre) a0
                   = Ok (rel i j, a1))
    /\ acc_rel_half 6 1 hash_id vm_6x1 true (adapter_new (varcount vm_6x1))
       = Ok ((r, sweep_schedule 6 true), a')
    /\ good (varcount vm_6x1) a'
    /\ forall A : Z -> bool,
        eval A r = true
        <-> exists B : Z -> bool,
            (forall x,
                (forall k, cell_from_var vm_6x1 x = Ok k -> prime k = pre ->
                           quantified (sweep_schedule 6 true) (row k) = false) ->
                B x = A x)
            /\ forall i j,
                accumulated (sweep_schedule 6 true) i = true ->
                1 <= j <= 1 ->
                eval B (rel i j) = true.
Proof.
  apply (sweep_quantification_schedule 6 1 hash_id visit_stored
                                       visit_stored_perm none).
  - lia.
  - lia.
  - exact vm_6x1_built.
  - split; [reflexivity | exact I].
Defined.

(** C3 (counterexample). On the 6x1 grid the top sweep conjoins post rows 1,
    2 and 3 and quantifies pre row 0 only: pre row 1, which only post rows 1
    and 2 reference and which lies two steps behind row 3, stays in the
    accumulation, and so does pre row 2. *)
Lemma sweep_leaves_free_row :
  exists r lines a',
    var_map_new 6 1 hash_id visit_stored none = Ok vm_6x1
    /\ acc_rel_half 6 1 hash_id vm_6x1 false (adapter_new (varcount vm_6x1))
       = Ok ((r, lines), a')
    /\ lines = [Acc 1 1; Exi 0; Acc 1 2; Acc 1 3]
    /\ free_pre_row 6 lines 1 = true
    /\ quantified lines 1 = false
    /\ free_pre_row 6 lines 2 = true
    /\ quantified lines 2 = false
    /\ schedule_of_spec 6 lines = false.
Proof.
  do 3 eexists.
  split; [exact vm_6x1_built |].
  split; [vm_compute; reflexivity |].
  repeat split; vm_compute; reflexivity.
Qed.

Lemma garden_of_eden_post_only_witness :
  exists r a',
    garden_of_eden 1 1 hash_id vm_1x1 (adapter_new (varcount vm_1x1))
    = Ok (r, a')
    /\ forall A B : Z -> bool,
        (forall x k, cell_from_var vm_1x1 x = Ok k -> prime k = post ->
                     A x = B x) ->
        eval A r = eval B r.
Proof.
  apply (garden_of_eden_post_only 1 1 hash_id visit_stored visit_stored_perm
                                  none).
  - lia.
  - lia.
  - exact vm_1x1_built.
Defined.

Lemma construct_count_above_nine_witness :
  exists a',
    construct_count 1 1 vm_1x1 (Cell 1 1 post) 10 (adapter_new 10)
    = Ok (bot, a').
Proof.
  apply (construct_count_above_nine 1 1).
  - lia.
  - lia.
  - reflexivity.
  - unfold INT_MAX. lia.
Defined.

(** C6 (counterexample). For the pre cell (0,0) of the 1x1 grid and the
    count 10, [construct_count] throws: the neighbourhood of the cell leaves
    the grid. *)
Lemma construct_count_border_throws :
  var_map_new 1 1 hash_id visit_stored none = Ok vm_1x1
  /\ out_of_range 1 1 (Cell 0 0 pre) = false
  /\ construct_count 1 1 vm_1x1 (Cell 0 0 pre) 10 (adapter_new 10)
     = Throw (out_of_range_exn "Cell not within valid boundaries").
Proof.
  split; [exact vm_1x1_built |]. split; vm_compute; reflexivity.
Qed.

(* ------------------------------------------------------------------------- *)
(** ** Instances of the further results *)

Lemma neighbourhood_cells_witness :
  exists nb,
    neighbourhood 1 1 (Cell 1 1 post) = Ok nb
    /\ nb = [Cell 0 0 pre; Cell 0 1 pre; Cell 0 2 pre; Cell 1 0 pre;
             Cell 1 1 post; Cell 1 2 pre;
             Cell 2 0 pre; Cell 2 1 pre; Cell 2 2 pre]
    /\ forall k, prime k = pre ->
                 (In k (map (fun x => cell_reprime x pre) nb)
                  <-> in_neighbourhood (Cell 1 1 post) k = true).
Proof.
  apply (neighbourhood_cells 1 1 (Cell 1 1 post)).
  - lia.
  - lia.
  - reflexivity.
Defined.

Lemma neighbourhood_off_grid_witness :
  neighbourhood 1 1 (Cell 0 0 pre)
  = Throw (out_of_range_exn "Cell not within valid boundaries").
Proof.
  apply (neighbourhood_off_grid 1 1 (Cell 0 0 pre)).
  - lia.
  - lia.
  - simpl. lia.
  - simpl. lia.
  - reflexivity.
Defined.

Lemma cell_min_max_bound_witness :
  exists lo hi,
    cell_min 1 1 post = Ok lo /\ cell_max 1 1 post = Ok hi
    /\ prime lo = post /\ prime hi = post
    /\ row lo <= 1 <= row hi /\ col lo <= 1 <= col hi.
Proof.
  apply (proj1 (cell_min_max_bound 1 1) (Cell 1 1 post)).
  - lia.
  - lia.
  - reflexivity.
Defined.

Lemma cell_to_string_injective_witness :
  cell_to_string (Cell 1 1 post) = [49; 65; 39]
  /\ Cell 1 1 post = Cell 1 1 post.
Proof.
  split; [reflexivity |].
  apply (cell_to_string_injective (Cell 1 1 post) (Cell 1 1 post)).
  - simpl. lia.
  - simpl. lia.
  - simpl. lia.
  - simpl. lia.
  - reflexivity.
Defined.

Lemma cell_from_var_candidate_witness :
  (out_of_range 1 2 (Cell 1 1 post) = true ->
   cell_from_var_cand 1 2 hash_id vm_1x2_mirror 8 (Cell 1 1 post)
   = Throw (out_of_range_exn "Cell not within valid boundaries"))
  /\ (out_of_range 1 2 (Cell 1 1 post) = false ->
      exists k,
        cell_from_var_cand 1 2 hash_id vm_1x2_mirror 8 (Cell 1 1 post) = Ok k
        /\ var_from_cell 1 2 hash_id vm_1x2_mirror k = Ok 8
        /\ (var_from_cell 1 2 hash_id vm_1x2_mirror (Cell 1 1 post) = Ok 8 ->
            k = Cell 1 1 post)
        /\ (var_from_cell 1 2 hash_id vm_1x2_mirror (Cell 1 1 post) <> Ok 8 ->
            cell_from_var vm_1x2_mirror 8 = Ok k)).
Proof.
  apply (cell_from_var_candidate 1 2 hash_id visit_stored visit_stored_perm
                                 mirror).
  - lia.
  - lia.
  - exact vm_1x2_mirror_built.
  - vm_compute. split; [discriminate | reflexivity].
Defined.

Lemma var_map_post_count_witness :
  varcount_of vm_1x2_mirror post = 1 * ((2 + 1) / 2)
  /\ varcount vm_1x2_mirror
     = (1 + 2) * (2 + 2) + varcount_of vm_1x2_mirror post.
Proof.
  apply (var_map_post_count 1 2 hash_id visit_stored visit_stored_perm mirror).
  - lia.
  - lia.
  - exact vm_1x2_mirror_built.
Defined.

Lemma var_map_size_witness :
  size vm_1x2_mirror = (1 + 2) * (2 + 2) + 1 * 2
  /\ size vm_1x2_mirror - varcount vm_1x2_mirror = 1 * (2 / 2).
Proof.
  apply (var_map_size 1 2 hash_id visit_stored visit_stored_perm mirror).
  - lia.
  - lia.
  - exact vm_1x2_mirror_built.
Defined.

Lemma post_index_follows_pre_witness :
  exists x_pre x_post,
    var_from_cell 1 2 hash_id vm_1x2_mirror (cell_reprime (Cell 1 2 post) pre)
    = Ok x_pre
    /\ var_from_cell 1 2 hash_id vm_1x2_mirror (Cell 1 2 post) = Ok x_post
    /\ x_pre < x_post
    /\ x_post <= x_pre + 2.
Proof.
  apply (post_index_follows_pre 1 2 hash_id visit_stored visit_stored_perm
                                mirror).
  - lia.
  - lia.
  - exact vm_1x2_mirror_built.
  - reflexivity.
  - reflexivity.
Defined.

Lemma index_order_by_rows_witness : 4 < 9.
Proof.
  apply (index_order_by_rows 6 1 hash_id visit_stored visit_stored_perm none
                             vm_6x1 (Cell 1 1 pre) (Cell 2 1 post)).
  - lia.
  - lia.
  - exact vm_6x1_built.
  - vm_compute. reflexivity.
  - vm_compute. reflexivity.
  - simpl. lia.
Defined.

Lemma shared_index_is_mirror_witness :
  Cell 1 1 post = Cell 1 2 post
  \/ (mirror = mirror /\ prime (Cell 1 1 post) = post
      /\ prime (Cell 1 2 post) = post
      /\ row (Cell 1 1 post) = row (Cell 1 2 post)
      /\ col (Cell 1 1 post) + col (Cell 1 2 post) = MAX_COL 2 pre).
Proof.
  apply (shared_index_is_mirror 1 2 hash_id visit_stored visit_stored_perm
                                mirror vm_1x2_mirror _ _ 8).
  - lia.
  - lia.
  - exact vm_1x2_mirror_built.
  - vm_compute. reflexivity.
  - vm_compute. reflexivity.
Defined.

Lemma construct_count_any_builder_state_witness :
  exists r,
    (forall a, a_varcount a = varcount vm_1x1 ->
               construct_count 1 1 vm_1x1 (Cell 1 1 post) 3 a
               = Ok (r, adapter_new (varcount vm_1x1)))
    /\ forall A B : Z -> bool,
        (forall x k, cell_from_var vm_1x1 x = Ok k -> prime k = pre ->
                     in_neighbourhood (Cell 1 1 post) k = true -> A x = B x) ->
        eval A r = eval B r.
Proof.
  apply (construct_count_any_builder_state 1 1 hash_id visit_stored
                                           visit_stored_perm none).
  - lia.
  - lia.
  - exact vm_1x1_built.
  - reflexivity.
  - lia.
Defined.

Lemma construct_count_none_alive_witness :
  exists r a',
    construct_count 1 1 vm_1x1 (Cell 1 1 post) 0 (adapter_new 10)
    = Ok (r, a')
    /\ forall A : Z -> bool,
        eval A r = true
        <-> forall x k, cell_from_var vm_1x1 x = Ok k -> prime k = pre ->
                        in_neighbourhood (Cell 1 1 post) k = true ->
                        A x = false.
Proof.
  apply (construct_count_none_alive 1 1 hash_id visit_stored
                                    visit_stored_perm none).
  - lia.
  - lia.
  - exact vm_1x1_built.
  - reflexivity.
  - reflexivity.
Defined.

Lemma construct_rel_three_cases_witness :
  exists r3 r4 x_pre x_post r,
    var_from_cell 1 1 hash_id vm_1x1 (cell_reprime (Cell 1 1 post) pre)
    = Ok x_pre
    /\ var_from_cell 1 1 hash_id vm_1x1 (cell_reprime (Cell 1 1 post) post)
       = Ok x_post
    /\ (forall a,
           a_varcount a = varcount vm_1x1 ->
           construct_count 1 1 vm_1x1 (Cell 1 1 post) 3 a
           = Ok (r3, adapter_new (varcount vm_1x1))
           /\ construct_count 1 1 vm_1x1 (Cell 1 1 post) 4 a
              = Ok (r4, adapter_new (varcount vm_1x1))
           /\ construct_rel 1 1 hash_id vm_1x1 (Cell 1 1 post) a
              = Ok (r, adapter_new (varcount vm_1x1)))
    /\ forall A : Z -> bool,
        eval A r
        = implb (eval A r3) (A x_post)
          && implb (eval A r4) (Bool.eqb (A x_pre) (A x_post))
          && implb (negb (eval A r3 || eval A r4)) (negb (A x_post)).
Proof.
  apply (construct_rel_three_cases 1 1 hash_id visit_stored visit_stored_perm
                                   none).
  - lia.
  - lia.
  - exact vm_1x1_built.
  - reflexivity.
Defined.

Lemma acc_rel_row_conjunction_witness :
  exists (rel : Z -> dd) f a',
    (forall c a0, 1 <= c <= 1 -> a_varcount a0 = varcount vm_1x1 ->
                  exists a1, construct_rel 1 1 hash_id vm_1x1 (Cell 1 c pre) a0
                             = Ok (rel c, a1))
    /\ acc_rel_row 1 1 hash_id vm_1x1 1 (adapter_new 10) = Ok (f, a')
    /\ forall A : Z -> bool,
        eval A f = true
        <-> forall c, 1 <= c <= 1 -> eval A (rel c) = true.
Proof.
  apply (acc_rel_row_conjunction 1 1 hash_id visit_stored visit_stored_perm
                                 none).
  - lia.
  - lia.
  - exact vm_1x1_built.
  - lia.
  - reflexivity.
Defined.

Lemma garden_of_eden_meaning_witness :
  exists (rel : Z -> Z -> dd) r a',
    (forall i j a0,
        1 <= i <= 1 -> 1 <= j <= 1 ->
        a_varcount a0 = varcount vm_1x1 ->
        exists a1, construct_rel 1 1 hash_id vm_1x1 (Cell i j pre) a0
                   = Ok (rel i j, a1))
    /\ garden_of_eden 1 1 hash_id vm_1x1 (adapter_new (varcount vm_1x1))
       = Ok (r, a')
    /\ forall A : Z -> bool,
        eval A r = true
        <-> exists B : Z -> bool,
            (forall x k, cell_from_var vm_1x1 x = Ok k -> prime k = post ->
                         B x = A x)
            /\ forall i j, 1 <= i <= 1 -> 1 <= j <= 1 ->
                           eval B (rel i j) = true.
Proof.
  apply (garden_of_eden_meaning 1 1 hash_id visit_stored visit_stored_perm
                                none).
  - lia.
  - lia.
  - exact vm_1x1_built.
Defined.

Lemma adapter_exists_meaning_witness :
  exists g,
    adapter_exists (ithvar 0) (fun i => Ok (i =? 0)) (adapter_new 2)
    = Ok (g, adapter_new 2)
    /\ forall A : Z -> bool,
        eval A g = true
        <-> exists B : Z -> bool,
            (forall x, ~ (0 <= x < a_varcount (adapter_new 2)
                          /\ Ok (x =? 0) = Ok true) ->
                       B x = A x)
            /\ eval B (ithvar 0) = true.
Proof.
  apply (proj1 (adapter_exists_meaning (ithvar 0) (fun i => Ok (i =? 0))
                                       (adapter_new 2))).
  - simpl. repeat split; lia.
  - intros i _. exists (i =? 0). reflexivity.
Defined.

Lemma construct_count_early_exit_witness :
  construct_count 1 1 vm_1x1 (Cell 1 1 post) 10 (adapter_new (varcount vm_1x1))
  = Ok (bot, Adapter (varcount vm_1x1) top)
  /\ bind (construct_count 1 1 vm_1x1 (Cell 1 1 post) 10) (fun _ => build)
          (adapter_new (varcount vm_1x1))
     = Ok (top, adapter_new (varcount vm_1x1)).
Proof.
  apply (construct_count_early_exit 1 1).
  - lia.
  - lia.
  - reflexivity.
  - unfold INT_MAX. lia.
Defined.

Lemma cache_size_ignores_memory_witness :
  cache_size 1024 1000 = cache_size 2048 1000
  /\ cache_size 1024 1000 = Z.quot 1000 min_cache_ratio
  /\ Z.quot 1000 max_cache_ratio <= cache_size 1024 1000.
Proof.
  apply (cache_size_ignores_memory 1024 2048 1000).
  unfold max_int. lia.
Defined.

Lemma table_size_fits_witness :
  0 <= table_size (128 * 1024 * 1024) <= max_int
  /\ table_size_assert (128 * 1024 * 1024) = true
  /\ sizeof_node * table_size (128 * 1024 * 1024)
     + sizeof_cache * cache_size (128 * 1024 * 1024)
                                 (table_size (128 * 1024 * 1024))
     <= 128 * 1024 * 1024.
Proof.
  apply (table_size_fits (128 * 1024 * 1024)).
  lia.
Defined.

Lemma log2_least_exponent_witness :
  exists e,
    log2 63 1000 = Some e
    /\ 1 <= e <= 63 /\ 1000 <= 2 ^ e /\ (e = 1 \/ 2 ^ (e - 1) < 1000).
Proof.
  apply (log2_least_exponent 1000 63).
  - lia.
  - lia.
Defined.

Lemma log2_never_returns_witness : log2 100 (2 ^ 63 + 1) = None.
Proof.
  apply (log2_never_returns (2 ^ 63 + 1) 100).
  lia.
Defined.

Lemma label_of_position_bijective_witness :
  0 <= label_of_position 1 2 3 < 64.
Proof.
  apply (proj1 label_of_position_bijective 1 2 3).
  - lia.
  - lia.
  - lia.
Defined.

Lemma construct_init_exactly_N_witness :
  exists r, construct_init 20 = Ok r
            /\ forall A : Z -> bool, eval A r = (count_false A 0 =? 20).
Proof.
  apply (construct_init_exactly_N 20).
  lia.
Defined.

Lemma tic_tac_toe_res_correct_witness :
  exists r,
    tic_tac_toe_res 20 [] = Ok r
    /\ forall A : Z -> bool,
        eval A r = true
        <-> count_false A 0 = 20
            /\ forall l, In l (construct_lines []) ->
                 A (line_at l 0) && A (line_at l 1)
                 && A (line_at l 2) && A (line_at l 3) = false
                 /\ A (line_at l 0) || A (line_at l 1)
                    || A (line_at l 2) || A (line_at l 3) = true.
Proof.
  apply (tic_tac_toe_res_correct 20 []).
  lia.
Defined.

Lemma ilog2_gnuc_floor_witness :
  0 <= ilog2_gnuc 1000 <= 63
  /\ 2 ^ ilog2_gnuc 1000 <= 1000 < 2 ^ (ilog2_gnuc 1000 + 1).
Proof.
  apply (ilog2_gnuc_floor 1000).
  lia.
Defined.

Lemma ilog2_else_differs_witness :
  exists e,
    ilog2_else 63 1000 = Some e
    /\ 1 <= e <= 63 /\ 1000 <= 2 ^ e /\ (e = 1 \/ 2 ^ (e - 1) < 1000)
    /\ (e = ilog2_gnuc 1000 <-> 1000 = 2 ^ e).
Proof.
  apply (ilog2_else_differs 1000 63).
  - lia.
  - lia.
Defined.
